(** * Header libraries: the open-addressing hash map (hashmap.h) and the
      region-based arena allocator (arena.h)

    The C code is embedded shallowly.  Machine integers are [Z] with the
    wrap-around of their C type written out ([size_t] is 64 bits wide,
    [uint32_t] 32 bits), pointers are addresses in [Z], arrays are lists
    read with [!!] and written with [<[ _ := _ ]>], and every operation
    returns an [outcome]: a value, a call to [abort()], undefined behaviour
    (a read outside an array or through [NULL]) or a loop that never ends. *)

From Stdlib Require Import ZArith Lia Bool.
From Stdlib.Strings Require Import Byte.
From stdpp Require Import base option list gmap.

Local Open Scope Z_scope.

(** ** Outcomes of a C call *)

Inductive outcome (A : Type) : Type :=
| Ret (a : A)     (* normal return *)
| Abort           (* the code called abort() *)
| Undef           (* undefined behaviour: out-of-bounds or NULL access *)
| Diverge.        (* a loop that does not terminate *)
Arguments Ret {A} a.
Arguments Abort {A}.
Arguments Undef {A}.
Arguments Diverge {A}.

Definition obind {A B : Type} (m : outcome A) (f : A -> outcome B) : outcome B :=
  match m with
  | Ret a => f a
  | Abort => Abort
  | Undef => Undef
  | Diverge => Diverge
  end.

Notation "'do' x <- m ; k" := (obind m (fun x => k))
  (at level 10, x name, m at level 100, k at level 200).

(** An array read [a[i]]: outside the array the behaviour is undefined. *)
Definition aread {A : Type} (a : list A) (i : Z) : outcome A :=
  if i <? 0 then Undef
  else match a !! Z.to_nat i with
       | Some x => Ret x
       | None => Undef
       end.

(** Conversions to the C integer types. *)
Definition u32 (z : Z) : Z := z mod 2 ^ 32.
Definition u64 (z : Z) : Z := z mod 2 ^ 64.
(** [size_t] to [ssize_t]. *)
Definition to_ssize (z : Z) : Z := if z <? 2 ^ 63 then z else z - 2 ^ 64.

(** ** hashmap.h *)

Module Hashmap.

Section Model.
(** The bytes behind the borrowed key pointers.  The table never writes
    them and the caller keeps them alive, so they are one fixed memory. *)
Context (M : Z -> byte).
(** The element type of [MAKE_HASHMAP(type)] and its all-zero value, which
    is what [calloc] leaves in every slot. *)
Context {T : Type} (T0 : T).

(** [str[0]], a [uint8_t]. *)
Definition load8 (p : Z) : Z := Z.of_N (Byte.to_N (M p)).

(** [s_hashmap_meta]; [used] only ever holds 0 or 1. *)
Record s_hashmap_meta : Type := {
  key : Z;       (* pointer to the key bytes *)
  len : Z;       (* uint32_t: number of bytes in the key *)
  used : bool    (* uint8_t: 1 if this entry is being used *)
}.

(** One element of [items]. *)
Record item : Type := {
  meta : s_hashmap_meta;
  data : T
}.

(** The fields of [MAKE_HASHMAP(type)]; [items = None] is the NULL
    pointer. *)
Record hashmap : Type := {
  count : Z;                   (* size_t *)
  index : Z;                   (* ssize_t *)
  capacity : Z;                (* size_t *)
  maxcol : Z;                  (* uint32_t *)
  items : option (list item)
}.

(** [hashmap_hash]: FNV-1, multiply then xor, on a 64-bit [size_t]. *)
Fixpoint hash_loop (n : nat) (str : Z) (hash : Z) : Z :=
  match n with
  | O => hash
  | S n' => hash_loop n' (str + 1)
              (Z.lxor (u64 (hash * 0x100000001b3)) (load8 str))
  end.

Definition hashmap_hash (str : Z) (slen : Z) : Z :=
  hash_loop (Z.to_nat slen) str 0xcbf29ce484222325.

(** [memcmp(p, q, n) == 0]. *)
Fixpoint memcmp_eq (n : nat) (p q : Z) : bool :=
  match n with
  | O => true
  | S n' => Byte.eqb (M p) (M q) && memcmp_eq n' (p + 1) (q + 1)
  end.

(** The element type behind the key pointer that a caller hands to a
    macro.  [hashmap_lookup] and [hashmap_hash] take the pointer through a
    cast to [uint8_t *]; [hashmap_match_item] reads [(kbuf)[0]] through the
    pointer as it is. *)
Inductive kchar : Type :=
| UChar    (* uint8_t, unsigned char, or char where char is unsigned *)
| SChar.   (* signed char, or char where char is signed *)

(** [(kbuf)[0]] after the promotion to [int]. *)
Definition first_char (ty : kchar) (kbuf : Z) : Z :=
  match ty with
  | UChar => load8 kbuf
  | SChar => if load8 kbuf <? 128 then load8 kbuf else load8 kbuf - 256
  end.

(** [hashmap_match_item(item, kbuf, klen)] for a [kbuf] of element type
    [ty]: the stored first byte is a [uint8_t], the first byte of the key
    is what the caller's pointer makes of it. *)
Definition hashmap_match_item (ty : kchar) (it : item) (kbuf klen : Z) : bool :=
  (first_char ty kbuf =? load8 (key (meta it)))
  && (klen =? len (meta it))
  && memcmp_eq (Z.to_nat klen) kbuf (key (meta it)).

(** [capacity - 1] on [size_t], the mask of [hashmap_lookup] and of
    [HASHMAP_CAP_MASK(hm)], and the step [(index + 1) & mask]. *)
Definition cap_mask (capacity : Z) : Z := u64 (capacity - 1).
Definition HASHMAP_CAP_MASK (hm : hashmap) : Z := cap_mask (capacity hm).
Definition next_index (mask index : Z) : Z := Z.land (u64 (index + 1)) mask.

(** The loop of [hashmap_lookup].  The loop leaves through [col > maxcol]
    or through a match; it does not look at [used] to stop. *)
Fixpoint lookup_loop (fuel : nat) (its : list item) (mask maxcol str slen : Z)
    (index col : Z) : outcome Z :=
  match fuel with
  | O => Diverge
  | S fuel' =>
    if col <=? maxcol then
      do it <- aread its index;
      if used (meta it)
         && Byte.eqb (M (key (meta it))) (M str)
         && (len (meta it) =? slen)
         && memcmp_eq (Z.to_nat slen) str (key (meta it))
      then Ret (to_ssize index)
      else lookup_loop fuel' its mask maxcol str slen
             (next_index mask index) (u32 (col + 1))
    else Ret (-1)
  end.

(** [hashmap_lookup].  The parameter [itemlen] of the C function serves the
    address arithmetic [items + index * itemlen], which is the list read
    here.  With [maxcol < 2^32 - 1] the loop ends within
    [maxcol + 2] tests of its condition; with [maxcol = 2^32 - 1] the
    condition never fails, the probe sequence has visited every slot it
    will ever visit after [capacity] steps, and running out of this fuel
    is a loop that never ends. *)
Definition hashmap_lookup (items : option (list item))
    (capacity maxcol str slen : Z) : outcome Z :=
  match items with
  | None => Ret (-1)
  | Some its =>
    let mask := cap_mask capacity in
    let index := Z.land (hashmap_hash str slen) mask in
    lookup_loop (Z.to_nat (maxcol + capacity + 2)) its mask maxcol str slen index 0
  end.

Definition zero_item : item :=
  {| meta := {| key := 0; len := 0; used := false |}; data := T0 |}.

(** [hashmap_init_cap] where [calloc] returns a block; where it returns
    NULL the macro aborts, and so do [hashmap_grow], [hashmap_shrink] and
    [hashmap_put], which reach it.  What is proved of a call that returns
    is proved of these returning calls. *)
Definition hashmap_init_cap (hm : hashmap) (cap : Z) : hashmap :=
  {| count := 0; index := index hm; capacity := cap; maxcol := 0;
     items := Some (replicate (Z.to_nat cap) zero_item) |}.

Definition HASHMAP_CAP_DEFAULT : Z := 8.

Definition hashmap_init (hm : hashmap) : hashmap :=
  hashmap_init_cap hm HASHMAP_CAP_DEFAULT.

(** A variable declared as [hm = { 0 }]. *)
Definition hashmap_zero : hashmap :=
  {| count := 0; index := 0; capacity := 0; maxcol := 0; items := None |}.

Definition hashmap_deinit (hm : hashmap) : hashmap :=
  {| count := 0; index := index hm; capacity := 0; maxcol := maxcol hm;
     items := None |}.

(** [hashmap_avail(hm)], a [size_t] subtraction. *)
Definition hashmap_avail (hm : hashmap) : Z := u64 (capacity hm - count hm).

Definition set_index (hm : hashmap) (i : Z) : hashmap :=
  {| count := count hm; index := i; capacity := capacity hm;
     maxcol := maxcol hm; items := items hm |}.

(** [hm.items[i]]. *)
Definition item_at (hm : hashmap) (i : Z) : outcome item :=
  match items hm with
  | None => Undef
  | Some its => aread its i
  end.

(** [hashmap_at(hm, index)]. *)
Definition hashmap_at (hm : hashmap) (i : Z) : outcome T :=
  do it <- item_at hm i; Ret (data it).

(** [hashmap_index], [hashmap_contains] and [hashmap_get] store the result
    of the lookup in [hm.index] and yield the second operand of the comma
    expression. *)
Definition hashmap_index (hm : hashmap) (kstr klen : Z) : outcome (hashmap * Z) :=
  do i <- hashmap_lookup (items hm) (capacity hm) (maxcol hm) kstr (u32 klen);
  Ret (set_index hm i, i).

Definition hashmap_contains (hm : hashmap) (kstr klen : Z)
    : outcome (hashmap * bool) :=
  do i <- hashmap_lookup (items hm) (capacity hm) (maxcol hm) kstr (u32 klen);
  Ret (set_index hm i, 0 <=? i).

Definition hashmap_get (hm : hashmap) (kstr klen : Z) : outcome (hashmap * T) :=
  do i <- hashmap_lookup (items hm) (capacity hm) (maxcol hm) kstr (u32 klen);
  do v <- hashmap_at (set_index hm i) i;
  Ret (set_index hm i, v).

(** The [while] loop of [hashmap_put_nogrow]: it returns the final index
    and collision count.  The index sequence is periodic, so when
    [capacity] slots in a row are used and do not match, the loop never
    ends. *)
Fixpoint put_probe (ty : kchar) (fuel : nat) (its : list item)
    (mask kbuf klen : Z) (index cnt : Z) : outcome (Z * Z) :=
  match fuel with
  | O => Diverge
  | S fuel' =>
    do it <- aread its index;
    if used (meta it) then
      if hashmap_match_item ty it kbuf klen then Ret (index, cnt)
      else put_probe ty fuel' its mask kbuf klen (next_index mask index)
             (u32 (cnt + 1))
    else Ret (index, cnt)
  end.

Definition set_data (it : item) (v : T) : item :=
  {| meta := meta it; data := v |}.

(** [hashmap_put_nogrow] for a [kbuf] of element type [ty].  The macro
    casts [kbuf] to [uint8_t *] for the hash and for the stored pointer and
    [klen] to [uint32_t] for the hash and for the stored length, and hands
    both as they are to [hashmap_match_item]. *)
Definition hashmap_put_nogrow (ty : kchar) (hm : hashmap) (value : T)
    (kbuf klen : Z) : outcome hashmap :=
  if capacity hm <=? count hm then Abort
  else
    match items hm with
    | None => Undef
    | Some its =>
      let mask := HASHMAP_CAP_MASK hm in
      let start := Z.land (hashmap_hash kbuf (u32 klen)) mask in
      do r <- put_probe ty (Z.to_nat (capacity hm)) its mask kbuf klen start 0;
      let i := fst r in
      let cnt := snd r in
      do it <- aread its i;
      let its1 := <[Z.to_nat i := set_data it value]> its in
      if used (meta it) then
        Ret {| count := count hm; index := index hm; capacity := capacity hm;
               maxcol := maxcol hm; items := Some its1 |}
      else
        let slot := {| meta := {| key := kbuf; len := u32 klen; used := true |};
                       data := value |} in
        Ret {| count := u64 (count hm + 1); index := index hm;
               capacity := capacity hm;
               maxcol := if maxcol hm <? cnt then cnt else maxcol hm;
               items := Some (<[Z.to_nat i := slot]> its) |}
    end.

(** The [for] loops of [hashmap_grow] and [hashmap_shrink]: every index
    below [bound] is read from the old array, and a used entry is put into
    [tmp]; the key handed on is the stored pointer, a [uint8_t *]. *)
Definition reinsert_step (src : option (list item)) (acc : outcome hashmap)
    (i : nat) : outcome hashmap :=
  do tmp <- acc;
  match src with
  | None => Undef
  | Some its =>
    do it <- aread its (Z.of_nat i);
    if used (meta it)
    then hashmap_put_nogrow UChar tmp (data it) (key (meta it)) (len (meta it))
    else Ret tmp
  end.

Definition reinsert (src : option (list item)) (bound : Z) (tmp : hashmap)
    : outcome hashmap :=
  foldl (reinsert_step src) (Ret tmp) (seq 0 (Z.to_nat bound)).

(** The last four assignments of both rebuilds (after [hashmap_deinit]). *)
Definition take_over (hm tmp : hashmap) : hashmap :=
  {| count := count tmp; index := index hm; capacity := capacity tmp;
     maxcol := maxcol tmp; items := items tmp |}.

(** [hashmap_grow]: the loop runs over [index < capacity]. *)
Definition hashmap_grow (hm : hashmap) : outcome hashmap :=
  let tmp := hashmap_init_cap hashmap_zero (u64 (Z.shiftl (capacity hm) 1)) in
  do tmp' <- reinsert (items hm) (capacity hm) tmp;
  Ret (take_over hm tmp').

(** [hashmap_shrink]: the loop runs over [index < count]. *)
Definition hashmap_shrink (hm : hashmap) : outcome hashmap :=
  if capacity hm / 4 <? count hm then Ret hm
  else
    let tmp := hashmap_init_cap hashmap_zero (Z.shiftr (capacity hm) 1) in
    do tmp' <- reinsert (items hm) (count hm) tmp;
    Ret (take_over hm tmp').

(** [(double)count / (double)capacity >= 0.7].  The double nearest to 0.7
    is 6305039478318694 / 2^53.  Counts and capacities below 2^53 convert
    without rounding and a quotient by a power of two is exact, so on the
    tables of this library the test is the comparison of rationals below;
    0/0 is a NaN (the test fails) and n/0 is +inf for n > 0.  For any
    other capacity up to 2^30 the comparison is the same: a quotient that
    is not 7/10 is at least 1 / (10 capacity) away from it, and rounding
    moves the quotient and 0.7 by 2^-53 at most; the quotient 7/10 rounds
    to the double nearest to 0.7. *)
Definition load_factor_ge_0_7 (count capacity : Z) : bool :=
  if capacity =? 0 then 0 <? count
  else 6305039478318694 * capacity <=? count * 2 ^ 53.

(** [hashmap_put] for a [kbuf] of element type [ty]. *)
Definition hashmap_put (ty : kchar) (hm : hashmap) (value : T) (kbuf klen : Z)
    : outcome hashmap :=
  do hm1 <- (if load_factor_ge_0_7 (count hm) (capacity hm)
             then hashmap_grow hm else Ret hm);
  hashmap_put_nogrow ty hm1 value kbuf klen.

(** Modelled from the spec: the macro [hashmap_index_var] is used by
    [hashmap_remove] and defined nowhere in hashmap.h.  The spec has
    Remove act on "the matched slot" of Lookup, so the macro stores the
    result of [hashmap_lookup] in the variable it is given, as
    [hashmap_index] does for [hm.index]. *)
Definition hashmap_index_var (hm : hashmap) (kbuf klen : Z) : outcome Z :=
  hashmap_lookup (items hm) (capacity hm) (maxcol hm) kbuf (u32 klen).

Definition clear_used (it : item) : item :=
  {| meta := {| key := key (meta it); len := len (meta it); used := false |};
     data := data it |}.

(** [hashmap_remove]. *)
Definition hashmap_remove (hm : hashmap) (kbuf klen : Z) : outcome hashmap :=
  do i <- hashmap_index_var hm kbuf klen;
  if 0 <=? i then
    match items hm with
    | None => Undef
    | Some its =>
      do it <- aread its i;
      Ret {| count := u64 (count hm - 1); index := index hm;
             capacity := capacity hm; maxcol := maxcol hm;
             items := Some (<[Z.to_nat i := clear_used it]> its) |}
    end
  else Ret hm.

(** Sequences of calls on one table by a caller whose key pointers have
    the element type [ty]; a call of [hashmap_contains] leaves its result
    in [hm.index]. *)
Inductive op : Type :=
| Put (value : T) (kbuf klen : Z)
| Remove (kbuf klen : Z)
| Contains (kbuf klen : Z).

Definition exec (ty : kchar) (hm : hashmap) (o : op) : outcome hashmap :=
  match o with
  | Put v k l => hashmap_put ty hm v k l
  | Remove k l => hashmap_remove hm k l
  | Contains k l => do r <- hashmap_contains hm k l; Ret (fst r)
  end.

Definition run (ty : kchar) (hm : hashmap) (ops : list op) : outcome hashmap :=
  foldl (fun acc o => do h <- acc; exec ty h o) (Ret hm) ops.

End Model.

Arguments item T : clear implicits.
Arguments hashmap T : clear implicits.
Arguments op T : clear implicits.

(** ** Predicates on tables

    The vocabulary of the statements below: when two keys are the same,
    probe sequences, the invariant of a table, and what a table holds. *)

Section Predicates.
Context (M : Z -> byte) {T : Type} (T0 : T).

(** Two keys, each a pointer and a length, are the same key for the table
    when the test of [hashmap_lookup] says so: first byte, length and bytes,
    all read as [uint8_t].  [hashmap_match_item] says the same of a key
    that it reads through a [uint8_t *]. *)
Definition keq (p1 l1 p2 l2 : Z) : bool :=
  Byte.eqb (M p1) (M p2) && (l1 =? l2) && memcmp_eq M (Z.to_nat l1) p1 p2.

(** From a start slot [s], the [j]-th slot of the probe sequence of a table
    of [cap] slots. *)
Definition probe (its : list (item T)) (cap s j : Z) : option (item T) :=
  its !! Z.to_nat ((s + j) mod cap).

(** The first byte of the key reads through a pointer of element type
    [ty] as it reads through a [uint8_t *]: the type is unsigned, or the
    byte is below 0x80. *)
Definition plain (ty : kchar) (kbuf : Z) : bool :=
  match ty with
  | UChar => true
  | SChar => load8 M kbuf <? 128
  end.

(** The test on which the loop of [hashmap_put_nogrow] stops for a key
    handed over through a pointer of element type [ty], the same test for
    a [uint8_t *], and the test on which the loop of [hashmap_lookup]
    returns. *)
Definition stop_at (ty : kchar) (kbuf klen : Z) (it : item T) : bool :=
  negb (used (meta it)) || hashmap_match_item M ty it kbuf klen.

Definition stop_put (kbuf klen : Z) (it : item T) : bool :=
  negb (used (meta it)) || keq kbuf klen (key (meta it)) (len (meta it)).

Definition hit (str slen : Z) (it : item T) : bool :=
  used (meta it) && keq str slen (key (meta it)) (len (meta it)).

(** The number of used slots of an array of metadata. *)
Fixpoint used_count (ms : list s_hashmap_meta) : Z :=
  match ms with
  | [] => 0
  | m :: ms' => (if used m then 1 else 0) + used_count ms'
  end.

(** The home slot of a stored key and the displacement of slot [i] from
    it, in a table of [cap] slots. *)
Definition home (cap : Z) (m : s_hashmap_meta) : Z :=
  hashmap_hash M (key m) (len m) mod cap.

Definition disp (cap : Z) (m : s_hashmap_meta) (i : nat) : Z :=
  (Z.of_nat i - home cap m) mod cap.

(** What every table reached through the interface satisfies: a power of
    two of slots, [count] the number of used slots, and no used slot
    further than [maxcol] from its home slot. *)
Record table_ok (hm : hashmap T) (its : list (item T)) : Prop := {
  ok_items : items hm = Some its;
  ok_cap : exists k, 0 <= k <= 31 /\ capacity hm = 2 ^ k;
  ok_len : Z.of_nat (length its) = capacity hm;
  ok_count : count hm = used_count (meta <$> its);
  ok_maxcol : 0 <= maxcol hm < capacity hm;
  ok_klen : forall (i : nat) it, its !! i = Some it -> used (meta it) = true ->
            0 <= len (meta it) < 2 ^ 32;
  ok_disp : forall (i : nat) it, its !! i = Some it -> used (meta it) = true ->
            disp (capacity hm) (meta it) i <= maxcol hm
}.

(** What a table built by puts alone satisfies on top: between the home
    slot of a stored key and its slot every slot is used by another
    key. *)
Definition chain_ok (cap : Z) (its : list (item T)) : Prop :=
  forall (i : nat) it, its !! i = Some it -> used (meta it) = true ->
  forall d, 0 <= d < disp cap (meta it) i ->
  exists it', probe its cap (home cap (meta it)) d = Some it' /\
              stop_put (key (meta it)) (len (meta it)) it' = false.

(** The key [kbuf, klen] is stored with value [v]. *)
Definition holds (its : list (item T)) (kbuf klen : Z) (v : T) : Prop :=
  exists (i : nat) it, its !! i = Some it /\ hit kbuf klen it = true /\ data it = v.

Definition held (its : list (item T)) (kbuf klen : Z) : Prop :=
  exists (i : nat) it, its !! i = Some it /\ hit kbuf klen it = true.

Definition new_slot (v : T) (kbuf klen : Z) : item T :=
  {| meta := {| key := kbuf; len := klen; used := true |}; data := v |}.

(** What the loops of [hashmap_grow] and [hashmap_shrink] keep after [i]
    slots of the old array [its] of [cap] slots: the new table of [newcap]
    slots is sound and holds what the visited slots held. *)
Definition rebuild_inv (newcap cap : Z) (its : list (item T)) (i : nat)
    (t : hashmap T) : Prop :=
  exists tits,
    table_ok t tits /\ chain_ok newcap tits /\ capacity t = newcap /\
    count t <= used_count (meta <$> take i its) /\
    (chain_ok cap its ->
     count t = used_count (meta <$> take i its) /\
     forall kbuf klen v, holds tits kbuf klen v <-> holds (take i its) kbuf klen v).

(** What the rebuild loops keep on every sound table, also on one with
    the gaps of removals: the keys of the new table are the keys of the
    visited slots. *)
Definition rebuild_keys (newcap : Z) (its : list (item T)) (i : nat)
    (t : hashmap T) : Prop :=
  exists tits,
    table_ok t tits /\ chain_ok newcap tits /\ capacity t = newcap /\
    count t <= used_count (meta <$> take i its) /\
    forall kbuf klen, held tits kbuf klen <-> held (take i its) kbuf klen.

(** No used slot of [its] holds the key. *)
Definition absent (its : list (item T)) (kbuf klen : Z) : bool :=
  forallb (fun it => negb (hit kbuf klen it)) its.

(** [inthashmap hm = { 0 }; hashmap_init(hm);] *)
Definition init : hashmap T := hashmap_init T0 hashmap_zero.

Definition op_ok (o : op T) : Prop :=
  match o with
  | Put _ _ klen => 0 <= klen < 2 ^ 32
  | Remove _ klen => 0 <= klen < 2 ^ 32
  | Contains _ klen => 0 <= klen < 2 ^ 32
  end.

Definition is_put (o : op T) : Prop :=
  match o with
  | Put _ _ _ => True
  | Remove _ _ => False
  | Contains _ _ => False
  end.

(** The key of a put is [plain] for the caller's pointer type. *)
Definition op_plain (ty : kchar) (o : op T) : Prop :=
  match o with
  | Put _ kbuf _ => plain ty kbuf = true
  | Remove _ _ => True
  | Contains _ _ => True
  end.

(** The value of the last put of the key among [ops], if any. *)
Fixpoint last_put (ops : list (op T)) (kbuf klen : Z) : option T :=
  match ops with
  | [] => None
  | o :: ops' =>
    match last_put ops' kbuf klen with
    | Some v => Some v
    | None =>
      match o with
      | Put v k l => if keq k l kbuf klen then Some v else None
      | Remove _ _ => None
      | Contains _ _ => None
      end
    end
  end.

(** No call of [ops] puts a key that an earlier call has put. *)
Definition distinct_puts (ops : list (op T)) : Prop :=
  forall (i : nat) v k l,
    ops !! i = Some (Put v k l) -> last_put (take i ops) k l = None.

(** The size of a table after [n] calls. *)
Definition size_ok (n : Z) (hm : hashmap T) : Prop :=
  8 <= capacity hm /\ 7 * capacity hm <= 56 + 20 * n /\ count hm <= n.

(** The tables that a caller with key pointers of element type [ty]
    reaches through the macros of the header: set up by
    [hashmap_init_cap] with a power of two of slots ([hashmap_init] is the
    case of 8 slots), then any returning call of [hashmap_put],
    [hashmap_put_nogrow], [hashmap_remove], [hashmap_grow],
    [hashmap_shrink] and [hashmap_deinit], and of the lookups
    [hashmap_index], [hashmap_contains] and [hashmap_get], which leave
    their result in [index].  Key lengths fit a [uint32_t], and a table
    that is put into or grown has at most [2^30] slots. *)
Inductive reachable (ty : kchar) : hashmap T -> Prop :=
| reach_init_cap hm0 k :
    0 <= k <= 30 -> reachable ty (hashmap_init_cap T0 hm0 (2 ^ k))
| reach_put hm v kbuf klen hm' :
    reachable ty hm -> 0 <= klen < 2 ^ 32 -> capacity hm <= 2 ^ 30 ->
    hashmap_put M T0 ty hm v kbuf klen = Ret hm' -> reachable ty hm'
| reach_put_nogrow hm v kbuf klen hm' :
    reachable ty hm -> 0 <= klen < 2 ^ 32 ->
    hashmap_put_nogrow M ty hm v kbuf klen = Ret hm' -> reachable ty hm'
| reach_remove hm kbuf klen hm' :
    reachable ty hm -> 0 <= klen < 2 ^ 32 ->
    hashmap_remove M hm kbuf klen = Ret hm' -> reachable ty hm'
| reach_lookup hm kbuf klen i :
    reachable ty hm -> 0 <= klen < 2 ^ 32 ->
    hashmap_lookup M (items hm) (capacity hm) (maxcol hm) kbuf (u32 klen) = Ret i ->
    reachable ty (set_index hm i)
| reach_grow hm hm' :
    reachable ty hm -> capacity hm <= 2 ^ 30 ->
    hashmap_grow M T0 hm = Ret hm' -> reachable ty hm'
| reach_shrink hm hm' :
    reachable ty hm -> hashmap_shrink M T0 hm = Ret hm' -> reachable ty hm'
| reach_deinit hm :
    reachable ty hm -> reachable ty (hashmap_deinit hm).

(** What such a table satisfies: it is sound, or it has no slot at all
    (after [hashmap_deinit], or after [hashmap_shrink] on one slot). *)
Definition sound (hm : hashmap T) : Prop :=
  (exists its, table_ok hm its) \/
  (capacity hm = 0 /\ count hm = 0 /\ (items hm = None \/ items hm = Some [])).

End Predicates.

(** ** A concrete memory for the examples

    The byte at address [16 * i] is the [i]-th lower-case letter, so that
    [(16 * i, 1)] is the one-letter key "a", "b", ...  On a table of 8 slots
    the home slots of "a" to "i" are 6, 5, 4, 3, 2, 1, 0, 7 and 6.  The
    bytes go on after "z": the byte at address [16 * 31] is 0x80.  The
    caller of the examples hands its keys over as [char *] on a target
    where [char] is signed, as main.c does. *)
Definition demo_mem (a : Z) : byte :=
  match Byte.of_N (Z.to_N (97 + a / 16)) with
  | Some b => b
  | None => x00
  end.

Definition demo_key (i : Z) : Z := 16 * i.

(** Puts of the keys of the given numbers, each with its number as value. *)
Definition demo_puts (l : list Z) : list (op Z) :=
  map (fun i => Put i (demo_key i) 1) l.

Definition table_of (o : outcome (hashmap Z)) : hashmap Z :=
  match o with
  | Ret hm => hm
  | _ => hashmap_zero
  end.

(** The table after the puts of "a" and "i", which share the home slot 6:
    "a" sits in slot 6 and "i" in slot 7. *)
Definition demo_two : hashmap Z :=
  Eval vm_compute in table_of (run demo_mem 0 SChar (init 0) (demo_puts [0; 8])).

Definition demo_two_items : list (item Z) :=
  Eval vm_compute in default [] (items demo_two).

(** The same table after the removal of "a": slot 6 is unused again. *)
Definition demo_gap : hashmap Z :=
  Eval vm_compute in table_of (hashmap_remove demo_mem demo_two (demo_key 0) 1).

Definition demo_gap_items : list (item Z) :=
  Eval vm_compute in default [] (items demo_gap).

(** Put "a" and "i", remove "a", put "i" again with the value 999, then put
    "b" to "f"; the last of these puts grows the table. *)
Definition demo_stale_ops : list (op Z) :=
  demo_puts [0; 8] ++ [Remove (demo_key 0) 1; Put 999 (demo_key 8) 1]
  ++ demo_puts [1; 2; 3; 4; 5].


(** The table after the put of "g" alone, which sits in slot 0. *)
Definition demo_one : hashmap Z :=
  Eval vm_compute in table_of (run demo_mem 0 SChar (init 0) (demo_puts [6])).

Definition demo_one_items : list (item Z) :=
  Eval vm_compute in default [] (items demo_one).

(** A table set up by [hashmap_init_cap] with 3 slots, after the put of
    "a", which sits in slot 2; "e" has the same home slot. *)
Definition demo_odd : hashmap Z :=
  Eval vm_compute in
    table_of (hashmap_put_nogrow demo_mem SChar (hashmap_init_cap 0 hashmap_zero 3)
                0 (demo_key 0) 1).

Definition demo_odd_items : list (item Z) :=
  Eval vm_compute in default [] (items demo_odd).

(** A table set up by [hashmap_init_cap] with 2 slots, after the put of
    "a". *)
Definition demo_small : hashmap Z :=
  Eval vm_compute in
    table_of (hashmap_put demo_mem 0 SChar (hashmap_init_cap 0 hashmap_zero 2)
                0 (demo_key 0) 1).

(** The one-byte key 0x80, and the table after its put with the value 1. *)
Definition demo_high : Z := demo_key 31.

Definition demo_high_one : hashmap Z :=
  Eval vm_compute in
    table_of (run demo_mem 0 SChar (init 0) [Put 1 demo_high 1]).

Definition demo_high_items : list (item Z) :=
  Eval vm_compute in default [] (items demo_high_one).

End Hashmap.

(** ** arena.h *)

Module Arena.

(** [ARENA_DEFAULT_CAPACITY] *)
Definition ARENA_DEFAULT_CAPACITY : Z := 2 * 4096.

(** [sizeof(struct _memory_region)]: the fields [size], [offset] and [next]
    of 8 bytes each; the flexible array member [mem] adds nothing. *)
Definition sizeof_region : Z := 24.

(** [sizeof(struct _arena_alloc_header)]: the field [size]. *)
Definition sizeof_header : Z := 8.

(** [struct _memory_region].  [mem] is the address of the byte array that
    ends the structure; [next] is the rest of the list the region is in. *)
Record _memory_region : Type := {
  size : Z;      (* size_t *)
  offset : Z;    (* size_t *)
  mem : Z        (* address of mem[] *)
}.

(** [s_arena].  The chain from [head] to [tail] is the list [regions]; both
    pointers are NULL exactly when the list is empty. *)
Record s_arena : Type := {
  total : Z;     (* size_t *)
  regions : list _memory_region
}.

(** The memory of the regions: the bytes that have been written, by
    address.  A [size_t] is 8 bytes, the lowest first; [m !! a] reads the
    [size_t] at address [a], which has no defined value unless its 8 bytes
    have been written, and [<[a := v]> m] writes one, so that a write
    changes the [size_t] at every address less than 8 bytes away. *)
Record memory : Type := { bytes : gmap Z Z }.

Fixpoint store_bytes (n : nat) (a v : Z) (m : gmap Z Z) : gmap Z Z :=
  match n with
  | O => m
  | S n' => <[a := v mod 256]> (store_bytes n' (a + 1) (v / 256) m)
  end.

Fixpoint load_bytes (n : nat) (a : Z) (m : gmap Z Z) : option Z :=
  match n with
  | O => Some 0
  | S n' =>
    match m !! a, load_bytes n' (a + 1) m with
    | Some b, Some r => Some (b + 256 * r)
    | _, _ => None
    end
  end.

#[global] Instance memory_lookup : Lookup Z Z memory :=
  fun a m => load_bytes 8 a (bytes m).
#[global] Instance memory_insert : Insert Z Z memory :=
  fun a v m => {| bytes := store_bytes 8 a v (bytes m) |}.
#[global] Instance memory_empty : Empty memory := {| bytes := ∅ |}.
#[global] Instance memory_singleton : SingletonM Z Z memory :=
  fun a v => <[a := v]> ∅.

(** The state the allocator works on: the arena, the memory of the regions,
    in which the allocation headers lie, and the next address the backend
    hands out.  The allocator writes headers only: the payload bytes are
    the caller's, and no function of arena.h reads them to decide
    anything. *)
Record world : Type := {
  arena : s_arena;
  heap : memory;
  brk : Z
}.

Definition set_arena (w : world) (a : s_arena) : world :=
  {| arena := a; heap := heap w; brk := brk w |}.

Definition set_regions (w : world) (rs : list _memory_region) : world :=
  set_arena w {| total := total (arena w); regions := rs |}.

Definition set_offset (r : _memory_region) (o : Z) : _memory_region :=
  {| size := size r; offset := o; mem := mem r |}.

(** [header->size = v] for the header at address [a]. *)
Definition store_header (w : world) (a v : Z) : world :=
  {| arena := arena w; heap := <[a := v]> (heap w); brk := brk w |}.

(** [header->size] for the header at address [a]; bytes that were never
    written have no defined value. *)
Definition load_header (w : world) (a : Z) : outcome Z :=
  match heap w !! a with
  | Some v => Ret v
  | None => Undef
  end.

(** [_ARENA_BACKEND_ALLOC(n)]: the backend hands out consecutive blocks of a
    64-bit address space and returns [_ARENA_INVALID_ALLOC] ([None]) when a
    block does not fit. *)
Definition backend_alloc (w : world) (n : Z) : option (Z * world) :=
  if brk w + n <? 2 ^ 64
  then Some (brk w, {| arena := arena w; heap := heap w; brk := brk w + n |})
  else None.

(** [_arena_append_region]. *)
Definition _arena_append_region (w : world) (sz : Z) : outcome world :=
  match backend_alloc w (u64 (sizeof_region + sz)) with
  | None => Abort
  | Some (block, w1) =>
    let region := {| size := sz; offset := 0; mem := block + sizeof_region |} in
    let a := arena w1 in
    Ret (set_arena w1
           {| total := u64 (total a + u64 (sizeof_region + sz));
              regions := regions a ++ [region] |})
  end.

(** [arena_init]. *)
Definition arena_init (w : world) : outcome world :=
  _arena_append_region
    (set_arena w {| total := 0; regions := regions (arena w) |})
    ARENA_DEFAULT_CAPACITY.

(** The first-fit scan of [arena_alloc]: the index of the first region with
    [required <= region->size - region->offset], a [size_t] subtraction. *)
Fixpoint find_fit (required : Z) (rs : list _memory_region) (i : nat) : option nat :=
  match rs with
  | [] => None
  | r :: rs' =>
    if required <=? u64 (size r - offset r) then Some i
    else find_fit required rs' (S i)
  end.

(** The last four statements of [arena_alloc], on the region of index [i]:
    write the header at the current offset, advance the offset, return the
    address after the header. *)
Definition bump (w : world) (i : nat) (sz required : Z) : outcome (Z * world) :=
  match regions (arena w) !! i with
  | None => Undef
  | Some r =>
    let header := mem r + offset r in
    let w1 := store_header w header sz in
    Ret (header + sizeof_header,
         set_regions w1 (<[i := set_offset r (u64 (offset r + required))]>
                           (regions (arena w1))))
  end.

(** [arena_alloc]. *)
Definition arena_alloc (w : world) (sz : Z) : outcome (Z * world) :=
  do w1 <- (match regions (arena w) with
            | [] => arena_init w
            | _ :: _ => Ret w
            end);
  let required := u64 (sizeof_header + sz) in
  match find_fit required (regions (arena w1)) 0 with
  | Some i => bump w1 i sz required
  | None =>
    do w2 <- _arena_append_region w1
               (if ARENA_DEFAULT_CAPACITY <? required
                then required else ARENA_DEFAULT_CAPACITY);
    bump w2 (Nat.pred (length (regions (arena w2)))) sz required
  end.

(** The scan of [_arena_find_region]: the index of the first region with
    [ptr >= region->mem && endptr <= region->mem + region->offset].  The
    sums [header->mem + header->size] and [region->mem + region->offset]
    are sums of a 64-bit pointer and a [size_t]. *)
Fixpoint find_owner (ptr endptr : Z) (rs : list _memory_region) (i : nat)
    : option nat :=
  match rs with
  | [] => None
  | r :: rs' =>
    if (mem r <=? ptr) && (endptr <=? u64 (mem r + offset r)) then Some i
    else find_owner ptr endptr rs' (S i)
  end.

(** [_arena_find_region]; it aborts when no region owns the pointer. *)
Definition _arena_find_region (w : world) (ptr : Z) : outcome nat :=
  do hsize <- load_header w (ptr - sizeof_header);
  match find_owner ptr (u64 (ptr + hsize)) (regions (arena w)) 0 with
  | Some i => Ret i
  | None => Abort
  end.

(** [arena_free]. *)
Definition arena_free (w : world) (ptr : Z) : outcome world :=
  if ptr =? 0 then Ret w
  else
    do i <- _arena_find_region w ptr;
    do hsize <- load_header w (ptr - sizeof_header);
    match regions (arena w) !! i with
    | None => Undef
    | Some r =>
      if u64 (ptr + hsize) =? u64 (mem r + offset r)
      then Ret (set_regions w
                  (<[i := set_offset r (u64 (offset r - u64 (hsize - sizeof_header)))]>
                     (regions (arena w))))
      else Ret w
    end.

(** [arena_realloc]; the [memcpy] of the last line moves payload bytes
    only. *)
Definition arena_realloc (w : world) (ptr sz : Z) : outcome (Z * world) :=
  if ptr =? 0 then arena_alloc w sz
  else
    do hsize <- load_header w (ptr - sizeof_header);
    if sz <=? hsize then Ret (ptr, store_header w (ptr - sizeof_header) sz)
    else
      let required := u64 (sz - hsize) in
      let endptr := u64 (ptr + hsize) in
      do i <- _arena_find_region w ptr;
      match regions (arena w) !! i with
      | None => Undef
      | Some r =>
        if (endptr =? u64 (mem r + offset r))
           && (required <=? u64 (size r - offset r))
        then
          let w1 := store_header w (ptr - sizeof_header) sz in
          Ret (ptr,
               set_regions w1 (<[i := set_offset r (u64 (offset r + required))]>
                                 (regions (arena w1))))
        else arena_alloc w sz
      end.

(** A [p_arena arena = { 0 }] on a backend whose next block is at [base]. *)
Definition fresh (base : Z) : world :=
  {| arena := {| total := 0; regions := [] |}; heap := ∅; brk := base |}.

(** ** Predicates on arenas *)

(** The invariant of the spec on one region: [0 <= offset <= size]. *)
Definition offset_ok (r : _memory_region) : bool :=
  (0 <=? offset r) && (offset r <=? size r).

(** The byte arrays of two regions do not meet. *)
Definition apart (r r' : _memory_region) : bool :=
  (mem r + size r <? mem r') || (mem r' + size r' <? mem r).

(** Every region keeps the invariant, has a [size] that fits a [size_t],
    and no two regions meet. *)
Fixpoint regions_ok (rs : list _memory_region) : bool :=
  match rs with
  | [] => true
  | r :: rs' =>
    offset_ok r && (size r <? 2 ^ 64) && forallb (apart r) rs' && regions_ok rs'
  end.

(** The byte arrays of the regions lie in the 64-bit address space. *)
Definition addressable (rs : list _memory_region) : Prop :=
  Forall (fun r => 0 <= mem r /\ mem r + size r < 2 ^ 64) rs.

(** The invariant of the spec on every region of a chain, with sizes that
    fit a [size_t]. *)
Definition sizes_ok (rs : list _memory_region) : Prop :=
  Forall (fun r => 0 <= offset r <= size r /\ size r < 2 ^ 64) rs.

(** The allocation at [ptr], of payload size [hsize], is the last one of
    region [r]: its header lies in the region and its payload ends at the
    region's offset. *)
Definition at_top (r : _memory_region) (ptr hsize : Z) : bool :=
  (mem r + sizeof_header <=? ptr) && (ptr + hsize =? mem r + offset r).

(** ** Concrete arenas for the examples *)

(** The arena after [arena_alloc(16)] and [arena_alloc(32)] on a backend
    starting at address 4096: one region at 4120, the payloads at 4128 and
    4152, the offset at 64. *)
Definition demo_world : world :=
  {| arena := {| total := 8216;
                 regions := [{| size := 8192; offset := 64; mem := 4120 |}] |};
     heap := <[4144 := 32]> (<[4120 := 16]> ∅);
     brk := 12312 |}.

(** What a sequence of calls leaves in the regions. *)
Definition regions_of (o : outcome world) : outcome (list _memory_region) :=
  do w <- o; Ret (regions (arena w)).

(** ** The rest of arena.h *)

(** [_alloc_memory_region]: a new region in front of the chain [next].
    No other function of arena.h calls it. *)
Definition _alloc_memory_region (w : world) (sz : Z) (next : list _memory_region)
    : outcome (list _memory_region * world) :=
  match backend_alloc w (u64 (sizeof_region + sz)) with
  | None => Abort
  | Some (block, w1) =>
    Ret ({| size := sz; offset := 0; mem := block + sizeof_region |} :: next, w1)
  end.

(** [arena_deinit]: the calls of [_ARENA_BACKEND_DEALLOC] in the order of
    the chain, each with its address and its size, and the arena
    afterwards.  The function resets [total] only: [head] and [tail] keep
    their values, so the chain of the arena is what it was, now made of
    released blocks. *)
Definition arena_deinit (w : world) : list (Z * Z) * world :=
  (map (fun r => (mem r - sizeof_region, u64 (sizeof_region + size r)))
       (regions (arena w)),
   set_arena w {| total := 0; regions := regions (arena w) |}).

(** Allocations one after the other, as a caller makes them; the pointers
    are returned in the order of the calls. *)
Fixpoint alloc_all (w : world) (sizes : list Z) : outcome (list Z * world) :=
  match sizes with
  | [] => Ret ([], w)
  | sz :: rest =>
    do r <- arena_alloc w sz;
    do rr <- alloc_all (snd r) rest;
    Ret (fst r :: fst rr, snd rr)
  end.

(** ** More predicates on arenas *)

(** The regions are the blocks that the backend has handed out from
    address [a] on, one after the other, up to address [b]. *)
Fixpoint tiled (a : Z) (rs : list _memory_region) (b : Z) : Prop :=
  match rs with
  | [] => a = b
  | r :: rs' =>
    mem r = a + sizeof_region /\ 0 <= size r /\ tiled (mem r + size r) rs' b
  end.

(** An arena that only [arena_alloc], [arena_realloc] and frees of
    allocations of 8 bytes or more have worked on, over a backend that
    started at [base]: the regions are the blocks handed out, every offset
    is within its region, and [total] is the number of bytes handed out. *)
Definition world_ok (base : Z) (w : world) : Prop :=
  0 <= base /\ brk w < 2 ^ 64 /\
  tiled base (regions (arena w)) (brk w) /\
  Forall (fun r => 0 <= offset r <= size r) (regions (arena w)) /\
  total (arena w) = brk w - base.

(** The allocation at [ptr] of [hsize] bytes lies, header included, in the
    used part of region [r]. *)
Definition inside (r : _memory_region) (ptr hsize : Z) : Prop :=
  mem r + sizeof_header <= ptr /\ ptr + hsize <= mem r + offset r.

Definition block_in (rs : list _memory_region) (ptr hsize : Z) : Prop :=
  exists (i : nat) r, rs !! i = Some r /\ inside r ptr hsize.

(** Two allocations, headers included, do not meet. *)
Definition disjoint (p s q t : Z) : Prop :=
  p + s <= q - sizeof_header \/ q + t <= p - sizeof_header.

(** No region owns the allocation, in the sense of the test of
    [_arena_find_region]. *)
Definition foreign (rs : list _memory_region) (ptr hsize : Z) : bool :=
  forallb (fun r => negb ((mem r <=? ptr)
                          && (u64 (ptr + hsize) <=? u64 (mem r + offset r)))) rs.

(** Room in the backend that suffices for allocations of the given sizes:
    for each its size and header, and two regions of the default capacity
    with their headers. *)
Definition room (sizes : list Z) : Z :=
  foldr (fun sz acc => 2 * (sizeof_region + ARENA_DEFAULT_CAPACITY)
                       + sizeof_header + sz + acc) 0 sizes.

(** The bytes of the blocks in a list of calls of the backend. *)
Definition released_bytes (l : list (Z * Z)) : Z :=
  foldr (fun b acc => snd b + acc) 0 l.

(** The blocks lie one after the other from [a] to [b]. *)
Fixpoint consecutive (a : Z) (l : list (Z * Z)) (b : Z) : Prop :=
  match l with
  | [] => a = b
  | blk :: l' => fst blk = a /\ 0 < snd blk /\ consecutive (a + snd blk) l' b
  end.

(** ** A client of the arena

    A call names the allocation it frees or reallocates by the number of
    the call that returned it. *)
Inductive call : Type :=
| Alloc (sz : Z)
| Free (k : nat)
| Realloc (k : nat) (sz : Z).

(** One call on the pointers returned so far and the arena; [arena_free]
    returns nothing, which is recorded as NULL. *)
Definition step (st : list Z * world) (c : call) : outcome (list Z * world) :=
  match c with
  | Alloc sz =>
    do r <- arena_alloc (snd st) sz; Ret (fst st ++ [fst r], snd r)
  | Free k =>
    do w' <- arena_free (snd st) (default 0 (fst st !! k));
    Ret (fst st ++ [0], w')
  | Realloc k sz =>
    do r <- arena_realloc (snd st) (default 0 (fst st !! k)) sz;
    Ret (fst st ++ [fst r], snd r)
  end.

Definition calls (w : world) (cs : list call) : outcome (list Z * world) :=
  foldl (fun acc c => do st <- acc; step st c) (Ret ([], w)) cs.

(** Which pointers a client may still use: the one an allocation or a
    reallocation returned, until it is freed or reallocated.  A client
    that frees or reallocates anything else is not considered ([None]). *)
Definition live_step (lv : option (list bool)) (c : call) : option (list bool) :=
  match lv with
  | None => None
  | Some l =>
    match c with
    | Alloc _ => Some (l ++ [true])
    | Free k =>
      if default false (l !! k) then Some (<[k := false]> l ++ [false]) else None
    | Realloc k _ =>
      if default false (l !! k) then Some (<[k := false]> l ++ [true]) else None
    end
  end.

Definition live (cs : list call) : option (list bool) :=
  foldl live_step (Some []) cs.

(** The sizes a sequence of calls asks for. *)
Definition sizes_of (cs : list call) : list Z :=
  omap (fun c => match c with
                 | Alloc sz => Some sz
                 | Free _ => None
                 | Realloc _ sz => Some sz
                 end) cs.

(** Every size asked for is at least the size of an allocation header. *)
Definition call_ok (c : call) : Prop :=
  match c with
  | Alloc sz => sizeof_header <= sz
  | Free _ => True
  | Realloc _ sz => sizeof_header <= sz
  end.

(** What holds between the calls of such a client: the arena is sound,
    every pointer in use has its size in its header and lies in the used
    part of a region, and no two of them meet. *)
Definition arena_inv (base : Z) (lv : list bool) (ps : list Z) (w : world) : Prop :=
  world_ok base w /\ length ps = length lv /\
  (forall (i : nat) p, lv !! i = Some true -> ps !! i = Some p ->
     exists s, sizeof_header <= s /\ heap w !! (p - sizeof_header) = Some s /\
               block_in (regions (arena w)) p s) /\
  (forall (i j : nat) p q s t, i <> j ->
     lv !! i = Some true -> lv !! j = Some true ->
     ps !! i = Some p -> ps !! j = Some q ->
     heap w !! (p - sizeof_header) = Some s ->
     heap w !! (q - sizeof_header) = Some t -> disjoint p s q t).

End Arena.

(** * Machine integers and array reads *)

Lemma u64_small z : 0 <= z < 2 ^ 64 -> u64 z = z.
Proof. intros. unfold u64. apply Z.mod_small. lia. Qed.

Lemma u32_small z : 0 <= z < 2 ^ 32 -> u32 z = z.
Proof. intros. unfold u32. apply Z.mod_small. lia. Qed.

Lemma to_ssize_small z : z < 2 ^ 63 -> to_ssize z = z.
Proof. intros. unfold to_ssize. destruct (Z.ltb_spec z (2 ^ 63)); lia. Qed.

Lemma aread_Ret {A} (a : list A) i x :
  aread a i = Ret x <-> 0 <= i /\ a !! Z.to_nat i = Some x.
Proof.
  unfold aread. destruct (Z.ltb_spec i 0).
  - split; [done | lia].
  - destruct (a !! Z.to_nat i); split; intros; try done.
    + split; [lia | congruence].
    + destruct H0 as [_ ?]. congruence.
    + by destruct H0.
Qed.

Lemma aread_nat {A} (a : list A) (i : nat) x :
  a !! i = Some x -> aread a (Z.of_nat i) = Ret x.
Proof. intros. apply aread_Ret. rewrite Nat2Z.id. split; [lia | done]. Qed.

(** * Properties of the hash map *)

Module HashmapFacts.
Import Hashmap.

(** ** Arithmetic of masks and indices *)

Lemma pow2_bounds k : 0 <= k <= 31 -> 1 <= 2 ^ k <= 2 ^ 31.
Proof.
  intros Hk. split.
  - assert (0 < 2 ^ k) by (apply Z.pow_pos_nonneg; lia). lia.
  - apply Z.pow_le_mono_r; lia.
Qed.

Lemma cap_mask_pow2 k : 0 <= k <= 31 -> cap_mask (2 ^ k) = Z.ones k.
Proof.
  intros Hk. unfold cap_mask. rewrite Z.ones_equiv.
  pose proof (pow2_bounds k Hk). rewrite u64_small; lia.
Qed.

Lemma land_mask k x : 0 <= k <= 31 -> Z.land x (cap_mask (2 ^ k)) = x mod 2 ^ k.
Proof. intros Hk. rewrite cap_mask_pow2 by done. apply Z.land_ones. lia. Qed.

Lemma next_index_pow2 k i :
  0 <= k <= 31 -> 0 <= i < 2 ^ k ->
  next_index (cap_mask (2 ^ k)) i = (i + 1) mod 2 ^ k.
Proof.
  intros Hk Hi. unfold next_index. pose proof (pow2_bounds k Hk).
  rewrite u64_small by lia. by apply land_mask.
Qed.

(** The load-factor test on a table below 2^51 slots: [count / capacity]
    is at least the double 0.7 exactly when it is at least 7/10. *)
Lemma load_factor_spec count capacity :
  0 < capacity < 2 ^ 51 -> 0 <= count ->
  load_factor_ge_0_7 count capacity = true <-> 7 * capacity <= 10 * count.
Proof.
  intros Hc Hn. unfold load_factor_ge_0_7.
  destruct (Z.eqb_spec capacity 0); [lia |].
  rewrite Z.leb_le.
  change (2 ^ 53) with 9007199254740992.
  change (2 ^ 51) with 2251799813685248 in Hc.
  split; intros H.
  - destruct (Z.le_gt_cases (7 * capacity) (10 * count)); [done |].
    assert (10 * count + 1 <= 7 * capacity) by lia. nia.
  - nia.
Qed.

Section Facts.
Context (M : Z -> byte) {T : Type} (T0 : T).

Local Abbreviation keq := (Hashmap.keq M).
Local Abbreviation plain := (Hashmap.plain M).
Local Abbreviation op_plain := (Hashmap.op_plain M).
Local Abbreviation stop_at := (Hashmap.stop_at M).
Local Abbreviation stop_put := (Hashmap.stop_put M).
Local Abbreviation hit := (Hashmap.hit M).
Local Abbreviation home := (Hashmap.home M).
Local Abbreviation disp := (Hashmap.disp M).
Local Abbreviation table_ok := (Hashmap.table_ok M).
Local Abbreviation chain_ok := (Hashmap.chain_ok M).
Local Abbreviation holds := (Hashmap.holds M).
Local Abbreviation held := (Hashmap.held M).
Local Abbreviation rebuild_inv := (Hashmap.rebuild_inv M).
Local Abbreviation last_put := (Hashmap.last_put M).
Local Abbreviation distinct_puts := (Hashmap.distinct_puts M).
Local Abbreviation init := (Hashmap.init T0).
Local Abbreviation ok_items := (Hashmap.ok_items M).
Local Abbreviation ok_cap := (Hashmap.ok_cap M).
Local Abbreviation ok_len := (Hashmap.ok_len M).
Local Abbreviation ok_count := (Hashmap.ok_count M).
Local Abbreviation ok_maxcol := (Hashmap.ok_maxcol M).
Local Abbreviation ok_klen := (Hashmap.ok_klen M).
Local Abbreviation ok_disp := (Hashmap.ok_disp M).

Implicit Types (its tits : list (item T)) (hm t tmp : hashmap T).
Implicit Types (it x y : item T) (ops : list (op T)) (v : T).
Implicit Types (ms : list s_hashmap_meta) (m : s_hashmap_meta) (ty : kchar).

Lemma byte_eqb_refl b : Byte.eqb b b = true.
Proof. by apply Byte.byte_dec_lb. Qed.

Lemma byte_eqb_eq a b : Byte.eqb a b = true <-> a = b.
Proof. split; [apply Byte.byte_dec_bl | apply Byte.byte_dec_lb]. Qed.

(** ** The key pointer's element type *)

Lemma load8_bounds p : 0 <= load8 M p < 256.
Proof.
  unfold load8. pose proof (Byte.to_N_bounded (M p)). lia.
Qed.

Lemma load8_eqb p q : (load8 M p =? load8 M q) = Byte.eqb (M p) (M q).
Proof.
  destruct (Byte.eqb (M p) (M q)) eqn:E.
  - apply byte_eqb_eq in E. unfold load8. rewrite E. apply Z.eqb_refl.
  - apply Z.eqb_neq. intros Heq. unfold load8 in Heq.
    assert (Hn : Byte.to_N (M p) = Byte.to_N (M q)) by lia.
    assert (Hb : M p = M q).
    { apply (f_equal Byte.of_N) in Hn. rewrite !Byte.of_to_N in Hn. congruence. }
    rewrite Hb, byte_eqb_refl in E. done.
Qed.

(** Through a [uint8_t *] the macro compares as [hashmap_lookup] does. *)
Lemma match_item_keq (it : item T) kbuf klen :
  hashmap_match_item M UChar it kbuf klen
  = keq kbuf klen (key (meta it)) (len (meta it)).
Proof.
  unfold hashmap_match_item, Hashmap.keq, first_char. by rewrite load8_eqb.
Qed.

(** A plain key is compared as through a [uint8_t *]; a key that is not
    plain, a first byte of 0x80 or more behind a pointer to signed
    characters, matches no slot. *)
Lemma match_item_plain ty (it : item T) kbuf klen :
  plain ty kbuf = true ->
  hashmap_match_item M ty it kbuf klen = hashmap_match_item M UChar it kbuf klen.
Proof.
  destruct ty; [done |]. unfold Hashmap.plain, hashmap_match_item, first_char.
  by intros ->.
Qed.

Lemma match_item_signed ty (it : item T) kbuf klen :
  plain ty kbuf = false -> hashmap_match_item M ty it kbuf klen = false.
Proof.
  destruct ty; [done |]. unfold Hashmap.plain, hashmap_match_item, first_char.
  intros ->. pose proof (load8_bounds kbuf). pose proof (load8_bounds (key (meta it))).
  destruct (Z.eqb_spec (load8 M kbuf - 256) (load8 M (key (meta it)))); [lia | done].
Qed.

Lemma match_item_sub ty (it : item T) kbuf klen :
  hashmap_match_item M ty it kbuf klen = true ->
  keq kbuf klen (key (meta it)) (len (meta it)) = true.
Proof.
  destruct (plain ty kbuf) eqn:E.
  - by rewrite (match_item_plain ty it kbuf klen E), match_item_keq.
  - by rewrite (match_item_signed ty it kbuf klen E).
Qed.

Lemma stop_at_put (it : item T) kbuf klen :
  stop_at UChar kbuf klen it = stop_put kbuf klen it.
Proof. unfold Hashmap.stop_at, Hashmap.stop_put. by rewrite match_item_keq. Qed.

Lemma stop_at_plain ty (it : item T) kbuf klen :
  plain ty kbuf = true -> stop_at ty kbuf klen it = stop_put kbuf klen it.
Proof.
  intros Hp. unfold Hashmap.stop_at, Hashmap.stop_put.
  by rewrite (match_item_plain ty it kbuf klen Hp), match_item_keq.
Qed.

(** On a slot that does not hold the key the two tests agree, whatever
    the pointer type. *)
Lemma stop_at_miss ty (it : item T) kbuf klen :
  hit kbuf klen it = false -> stop_at ty kbuf klen it = stop_put kbuf klen it.
Proof.
  unfold Hashmap.stop_at, Hashmap.stop_put, Hashmap.hit.
  destruct (used (meta it)); simpl; [| done]. intros Hk. rewrite Hk.
  destruct (hashmap_match_item M ty it kbuf klen) eqn:E; [| done].
  apply match_item_sub in E. congruence.
Qed.

Lemma memcmp_refl n p : memcmp_eq M n p p = true.
Proof. revert p. induction n; intros; simpl; [done |]. by rewrite byte_eqb_refl, IHn. Qed.

Lemma memcmp_sym n p q : memcmp_eq M n p q = true -> memcmp_eq M n q p = true.
Proof.
  revert p q. induction n; intros p q; simpl; [done |].
  rewrite !andb_true_iff, !byte_eqb_eq. intros [-> ?]. split; [done | auto].
Qed.

Lemma memcmp_trans n p q r :
  memcmp_eq M n p q = true -> memcmp_eq M n q r = true -> memcmp_eq M n p r = true.
Proof.
  revert p q r. induction n; intros p q r; simpl; [done |].
  rewrite !andb_true_iff, !byte_eqb_eq. intros [-> ?] [-> ?]. split; [done | eauto].
Qed.

Lemma memcmp_hash n p q h :
  memcmp_eq M n p q = true -> hash_loop M n p h = hash_loop M n q h.
Proof.
  revert p q h. induction n; intros p q h; simpl; [done |].
  rewrite andb_true_iff, byte_eqb_eq. intros [Hb ?].
  unfold load8. rewrite Hb. auto.
Qed.

Lemma keq_refl p l : keq p l p l = true.
Proof. unfold keq. by rewrite byte_eqb_refl, Z.eqb_refl, memcmp_refl. Qed.

Lemma keq_sym p1 l1 p2 l2 : keq p1 l1 p2 l2 = true -> keq p2 l2 p1 l1 = true.
Proof.
  unfold keq. rewrite !andb_true_iff, !byte_eqb_eq, !Z.eqb_eq.
  intros [[-> ->] ?]. repeat split; try done. by apply memcmp_sym.
Qed.

Lemma keq_trans p1 l1 p2 l2 p3 l3 :
  keq p1 l1 p2 l2 = true -> keq p2 l2 p3 l3 = true -> keq p1 l1 p3 l3 = true.
Proof.
  unfold keq. rewrite !andb_true_iff, !byte_eqb_eq, !Z.eqb_eq.
  intros [[-> ->] ?] [[-> ->] ?]. repeat split; try done. by eapply memcmp_trans.
Qed.

Lemma keq_len p1 l1 p2 l2 : keq p1 l1 p2 l2 = true -> l1 = l2.
Proof. unfold keq. rewrite !andb_true_iff, Z.eqb_eq. tauto. Qed.

Lemma keq_hash p1 l1 p2 l2 :
  keq p1 l1 p2 l2 = true -> hashmap_hash M p1 l1 = hashmap_hash M p2 l2.
Proof.
  unfold keq. rewrite !andb_true_iff, Z.eqb_eq. intros [[_ <-] ?].
  unfold hashmap_hash. by apply memcmp_hash.
Qed.

(** Keys of at least one byte are the same exactly when their byte spans
    are equal; the comparison of the first bytes only adds something for
    keys of length 0. *)
Lemma keq_bytes p1 l1 p2 l2 :
  0 < l1 ->
  keq p1 l1 p2 l2 = true <-> l1 = l2 /\ memcmp_eq M (Z.to_nat l1) p1 p2 = true.
Proof.
  intros Hl. unfold keq. rewrite !andb_true_iff, Z.eqb_eq. split; [tauto |].
  intros [? Hm]. repeat split; try done.
  destruct (Z.to_nat l1) eqn:E; [lia |]. simpl in Hm.
  apply andb_true_iff in Hm. tauto.
Qed.


Lemma lookup_test_hit (it : item T) str slen :
  used (meta it) && Byte.eqb (M (key (meta it))) (M str)
    && (len (meta it) =? slen) && memcmp_eq M (Z.to_nat slen) str (key (meta it))
  = hit str slen it.
Proof.
  unfold hit, keq. destruct (used (meta it)); simpl; [| done].
  destruct (Byte.eqb (M (key (meta it))) (M str)) eqn:E1.
  - apply byte_eqb_eq in E1. rewrite E1, byte_eqb_refl. simpl.
    by rewrite (Z.eqb_sym slen).
  - destruct (Byte.eqb (M str) (M (key (meta it)))) eqn:E2; [| done].
    apply byte_eqb_eq in E2. rewrite E2, byte_eqb_refl in E1. done.
Qed.

Lemma probe_shift its cap s j :
  0 < cap -> probe its cap ((s + 1) mod cap) j = probe its cap s (j + 1).
Proof.
  intros. unfold probe. rewrite Z.add_mod_idemp_l by lia.
  do 3 f_equal. lia.
Qed.

Lemma probe_zero its cap s :
  0 <= s < cap -> probe its cap s 0 = its !! Z.to_nat s.
Proof. intros. unfold probe. rewrite Z.add_0_r, Z.mod_small by lia. done. Qed.

Lemma probe_is_Some its cap s j :
  0 < cap -> Z.of_nat (length its) = cap -> is_Some (probe its cap s j).
Proof.
  intros Hc Hl. unfold probe. apply lookup_lt_is_Some.
  pose proof (Z.mod_pos_bound (s + j) cap Hc). lia.
Qed.

(** Every slot is on the probe sequence of every start slot. *)
Lemma probe_reaches its cap s (i : nat) :
  0 < cap -> Z.of_nat i < cap ->
  probe its cap s ((Z.of_nat i - s) mod cap) = its !! i.
Proof.
  intros Hc Hi. unfold probe. rewrite Z.add_mod_idemp_r by lia.
  replace (s + (Z.of_nat i - s)) with (Z.of_nat i) by lia.
  rewrite Z.mod_small by lia. by rewrite Nat2Z.id.
Qed.

Lemma probe_index cap h (i : nat) :
  0 < cap -> Z.of_nat i < cap -> (h + (Z.of_nat i - h) mod cap) mod cap = Z.of_nat i.
Proof.
  intros. rewrite Z.add_mod_idemp_r by lia.
  replace (h + (Z.of_nat i - h)) with (Z.of_nat i) by lia.
  apply Z.mod_small. lia.
Qed.

Lemma disp_of_probe cap h d :
  0 < cap -> 0 <= d < cap -> ((h + d) mod cap - h mod cap) mod cap = d.
Proof.
  intros. rewrite <- Zminus_mod. replace (h + d - h) with d by lia.
  apply Z.mod_small. lia.
Qed.

(** The loop of [hashmap_put_nogrow] walks over the slots on which it does
    not stop and leaves at the first one on which it does. *)
Lemma put_probe_run ty k its kbuf klen (d : nat) : forall fuel s c it,
  0 <= k <= 31 -> (d < fuel)%nat -> 0 <= s < 2 ^ k -> 0 <= c < 2 ^ 32 ->
  (forall j, 0 <= j < Z.of_nat d ->
     exists it', probe its (2 ^ k) s j = Some it' /\
                 stop_at ty kbuf klen it' = false) ->
  probe its (2 ^ k) s (Z.of_nat d) = Some it -> stop_at ty kbuf klen it = true ->
  put_probe M ty fuel its (cap_mask (2 ^ k)) kbuf klen s c
  = Ret ((s + Z.of_nat d) mod 2 ^ k, u32 (c + Z.of_nat d)).
Proof.
  induction d as [| d IH]; intros fuel s c it Hk Hf Hs Hc Hrun Hit Hstop;
    (destruct fuel as [| fuel]; [lia |]); simpl.
  - rewrite probe_zero in Hit by done.
    assert (Har : aread its s = Ret it) by (apply aread_Ret; split; [lia | done]).
    rewrite Har. simpl. unfold Hashmap.stop_at in Hstop.
    rewrite Z.add_0_r, Z.mod_small, (u32_small (c + Z.of_nat 0)) by lia.
    rewrite Z.add_0_r.
    destruct (used (meta it)); simpl in *; [by rewrite Hstop | done].
  - destruct (Hrun 0) as (it0 & Hp0 & Hs0); [lia |].
    rewrite probe_zero in Hp0 by done.
    assert (Har : aread its s = Ret it0) by (apply aread_Ret; split; [lia | done]).
    rewrite Har. simpl. unfold Hashmap.stop_at in Hs0.
    apply orb_false_iff in Hs0 as [Hu Hm]. apply negb_false_iff in Hu.
    rewrite Hu, Hm.
    pose proof (pow2_bounds k Hk).
    rewrite next_index_pow2 by done.
    erewrite (IH fuel ((s + 1) mod 2 ^ k) (u32 (c + 1)) it); try done.
    + f_equal. f_equal.
      * rewrite Z.add_mod_idemp_l by lia. f_equal. lia.
      * unfold u32. rewrite Z.add_mod_idemp_l by lia. f_equal. lia.
    + lia.
    + apply Z.mod_pos_bound. lia.
    + unfold u32. apply Z.mod_pos_bound. lia.
    + intros j Hj. rewrite probe_shift by lia. apply Hrun. lia.
    + rewrite probe_shift by lia. rewrite <- Hit. f_equal. lia.
Qed.

(** The loop of [hashmap_lookup] returns the first slot among the next
    [maxcol - col + 1] of the probe sequence that is used and holds the
    key; unused slots are walked over like any other slot. *)
Lemma lookup_loop_found k its maxcol str slen (d : nat) : forall fuel s col it,
  0 <= k <= 31 -> (d < fuel)%nat -> 0 <= s < 2 ^ k ->
  0 <= col -> col + Z.of_nat d <= maxcol -> maxcol < 2 ^ 32 - 1 ->
  (forall j, 0 <= j < Z.of_nat d ->
     exists it', probe its (2 ^ k) s j = Some it' /\ hit str slen it' = false) ->
  probe its (2 ^ k) s (Z.of_nat d) = Some it -> hit str slen it = true ->
  lookup_loop M fuel its (cap_mask (2 ^ k)) maxcol str slen s col
  = Ret ((s + Z.of_nat d) mod 2 ^ k).
Proof.
  induction d as [| d IH]; intros fuel s col it Hk Hf Hs Hc Hcm Hmax Hrun Hit Hhit;
    (destruct fuel as [| fuel]; [lia |]); simpl;
    (destruct (Z.leb_spec col maxcol); [| lia]);
    pose proof (pow2_bounds k Hk).
  - rewrite probe_zero in Hit by done.
    assert (Har : aread its s = Ret it) by (apply aread_Ret; split; [lia | done]).
    rewrite Har. simpl. rewrite lookup_test_hit, Hhit.
    rewrite Z.add_0_r, Z.mod_small, to_ssize_small by lia. done.
  - destruct (Hrun 0) as (it0 & Hp0 & Hs0); [lia |].
    rewrite probe_zero in Hp0 by done.
    assert (Har : aread its s = Ret it0) by (apply aread_Ret; split; [lia | done]).
    rewrite Har. simpl. rewrite lookup_test_hit, Hs0.
    rewrite next_index_pow2 by done.
    rewrite u32_small by lia.
    erewrite (IH fuel ((s + 1) mod 2 ^ k) (col + 1) it); try done.
    + rewrite Z.add_mod_idemp_l by lia. do 2 f_equal. lia.
    + lia.
    + apply Z.mod_pos_bound. lia.
    + lia.
    + lia.
    + intros j Hj. rewrite probe_shift by lia. apply Hrun. lia.
    + rewrite probe_shift by lia. rewrite <- Hit. f_equal. lia.
Qed.

Lemma lookup_loop_missing k its maxcol str slen (n : nat) : forall fuel s col,
  0 <= k <= 31 -> (n < fuel)%nat -> 0 <= s < 2 ^ k ->
  0 <= col -> col + Z.of_nat n = maxcol + 1 -> maxcol < 2 ^ 32 - 1 ->
  (forall j, 0 <= j < Z.of_nat n ->
     exists it', probe its (2 ^ k) s j = Some it' /\ hit str slen it' = false) ->
  lookup_loop M fuel its (cap_mask (2 ^ k)) maxcol str slen s col = Ret (-1).
Proof.
  induction n as [| n IH]; intros fuel s col Hk Hf Hs Hc Hcm Hmax Hrun;
    (destruct fuel as [| fuel]; [lia |]); simpl;
    pose proof (pow2_bounds k Hk).
  - destruct (Z.leb_spec col maxcol); [lia | done].
  - destruct (Z.leb_spec col maxcol); [| lia].
    destruct (Hrun 0) as (it0 & Hp0 & Hs0); [lia |].
    rewrite probe_zero in Hp0 by done.
    assert (Har : aread its s = Ret it0) by (apply aread_Ret; split; [lia | done]).
    rewrite Har. simpl. rewrite lookup_test_hit, Hs0.
    rewrite next_index_pow2 by done.
    rewrite u32_small by lia.
    apply IH; try done; try lia.
    + apply Z.mod_pos_bound. lia.
    + intros j Hj. rewrite probe_shift by lia. apply Hrun. lia.
Qed.

(** The fuel of the two loops only decides whether a run is cut short: a
    run that ends gives the same result with any larger fuel. *)
Lemma lookup_loop_more_fuel (fuel1 : nat) : forall (fuel2 : nat) its mask maxcol str slen index col r,
  (fuel1 <= fuel2)%nat ->
  lookup_loop M fuel1 its mask maxcol str slen index col = r -> r <> Diverge ->
  lookup_loop M fuel2 its mask maxcol str slen index col = r.
Proof.
  induction fuel1 as [| fuel1 IH]; intros fuel2 its mask maxcol str slen index col r Hle Hr Hnd.
  - simpl in Hr. congruence.
  - destruct fuel2 as [| fuel2]; [lia |]. simpl in *.
    destruct (col <=? maxcol); [| done].
    destruct (aread its index) as [it | | |]; simpl in *; try done.
    destruct (used (meta it) && Byte.eqb (M (key (meta it))) (M str)
              && (len (meta it) =? slen)
              && memcmp_eq M (Z.to_nat slen) str (key (meta it))); [done |].
    apply IH; [lia | done | done].
Qed.

Lemma put_probe_more_fuel ty (fuel1 : nat) :
  forall (fuel2 : nat) its mask kbuf klen index cnt r,
  (fuel1 <= fuel2)%nat ->
  put_probe M ty fuel1 its mask kbuf klen index cnt = r -> r <> Diverge ->
  put_probe M ty fuel2 its mask kbuf klen index cnt = r.
Proof.
  induction fuel1 as [| fuel1 IH]; intros fuel2 its mask kbuf klen index cnt r Hle Hr Hnd.
  - simpl in Hr. congruence.
  - destruct fuel2 as [| fuel2]; [lia |]. simpl in *.
    destruct (aread its index) as [it | | |]; simpl in *; try done.
    destruct (used (meta it)); [| done].
    destruct (hashmap_match_item M ty it kbuf klen); [done |].
    apply IH; [lia | done | done].
Qed.

(** A bounded search for the first slot of a probe sequence passing a
    test. *)
Lemma first_stop (Q : item T -> bool) its cap s (n : nat) :
  0 < cap -> Z.of_nat (length its) = cap ->
  (exists d it, 0 <= d < Z.of_nat n /\ probe its cap s d = Some it /\ Q it = true /\
     forall j, 0 <= j < d -> exists it', probe its cap s j = Some it' /\ Q it' = false)
  \/ (forall j, 0 <= j < Z.of_nat n ->
        exists it', probe its cap s j = Some it' /\ Q it' = false).
Proof.
  intros Hc Hl. induction n as [| n IH].
  - right. intros j Hj. lia.
  - destruct IH as [(d & it & Hd & Hp & HQ & Hrun) | Hrun].
    + left. exists d, it. repeat split; try done; lia.
    + destruct (probe_is_Some its cap s (Z.of_nat n) Hc Hl) as [it Hit].
      destruct (Q it) eqn:HQ.
      * left. exists (Z.of_nat n), it. repeat split; try done; lia.
      * right. intros j Hj.
        destruct (decide (j = Z.of_nat n)) as [-> | Hne]; [by exists it |].
        apply Hrun. lia.
Qed.


(** [hashmap_lookup] on an array of [2^k] slots: the first slot among the
    [maxcol + 1] slots from the home slot that is used and holds the key,
    or -1 when none of them is. *)
Lemma lookup_cases k its maxcol str slen :
  0 <= k <= 31 -> Z.of_nat (length its) = 2 ^ k -> 0 <= maxcol < 2 ^ 32 - 1 ->
  let h := hashmap_hash M str slen mod 2 ^ k in
  (exists d it, 0 <= d <= maxcol /\ probe its (2 ^ k) h d = Some it /\
      hit str slen it = true /\
      (forall j, 0 <= j < d ->
         exists it', probe its (2 ^ k) h j = Some it' /\ hit str slen it' = false) /\
      hashmap_lookup M (Some its) (2 ^ k) maxcol str slen = Ret ((h + d) mod 2 ^ k))
  \/ ((forall j, 0 <= j <= maxcol ->
         exists it', probe its (2 ^ k) h j = Some it' /\ hit str slen it' = false) /\
      hashmap_lookup M (Some its) (2 ^ k) maxcol str slen = Ret (-1)).
Proof.
  intros Hk Hl Hmax h. pose proof (pow2_bounds k Hk) as Hp.
  assert (Hh : 0 <= h < 2 ^ k) by (apply Z.mod_pos_bound; lia).
  unfold hashmap_lookup. rewrite land_mask by done. fold h.
  destruct (first_stop (hit str slen) its (2 ^ k) h (Z.to_nat (maxcol + 1)))
    as [(d & it & Hd & Hpd & Hhit & Hrun) | Hrun]; [lia | done | |].
  - left. exists d, it. repeat split; try done; try lia.
    replace d with (Z.of_nat (Z.to_nat d)) by lia.
    apply lookup_loop_found with (it := it); try done; try lia.
    + intros j Hj. apply Hrun. lia.
    + by replace (Z.of_nat (Z.to_nat d)) with d by lia.
  - right. split.
    + intros j Hj. apply Hrun. lia.
    + apply lookup_loop_missing with (k := k) (n := Z.to_nat (maxcol + 1));
        try done; lia.
Qed.

Lemma used_count_bounds ms : 0 <= used_count ms <= Z.of_nat (length ms).
Proof. induction ms as [| m ms IH]; simpl; [lia |]. destruct (used m); lia. Qed.

Lemma used_count_app ms1 ms2 :
  used_count (ms1 ++ ms2) = used_count ms1 + used_count ms2.
Proof. induction ms1 as [| m ms1 IH]; simpl; [done |]. rewrite IH. lia. Qed.

Lemma used_count_insert ms (i : nat) m0 m :
  ms !! i = Some m0 ->
  used_count (<[i := m]> ms)
  = used_count ms - (if used m0 then 1 else 0) + (if used m then 1 else 0).
Proof.
  revert i. induction ms as [| a ms IH]; intros [| i] Hi; simpl in *; try done.
  - injection Hi as ->. lia.
  - rewrite (IH i Hi). lia.
Qed.

Lemma used_count_replicate n m :
  used m = false -> used_count (replicate n m) = 0.
Proof. intros Hm. induction n as [| n IH]; simpl; [done |]. rewrite Hm, IH. done. Qed.

(** An array with fewer used slots than slots has an unused slot. *)
Lemma used_count_room ms :
  used_count ms < Z.of_nat (length ms) ->
  exists (i : nat) m, ms !! i = Some m /\ used m = false.
Proof.
  induction ms as [| a ms IH]; simpl; [lia |]. intros Hlt.
  destruct (used a) eqn:Ha.
  - destruct IH as (i & m & Hi & Hm); [lia |]. by exists (S i), m.
  - by exists 0%nat, a.
Qed.

Lemma used_count_pos ms (i : nat) m :
  ms !! i = Some m -> used m = true -> 0 < used_count ms.
Proof.
  revert i. induction ms as [| a ms IH]; intros [| i] Hi Hm; simpl in *; try done.
  - injection Hi as ->. rewrite Hm. pose proof (used_count_bounds ms). lia.
  - pose proof (IH i Hi Hm). destruct (used a); lia.
Qed.

Lemma hit_keq kbuf klen (it : item T) :
  hit kbuf klen it = true <->
  used (meta it) = true /\ keq kbuf klen (key (meta it)) (len (meta it)) = true.
Proof. unfold hit. apply andb_true_iff. Qed.

Lemma hit_home cap kbuf klen (it : item T) :
  hit kbuf klen it = true -> home cap (meta it) = hashmap_hash M kbuf klen mod cap.
Proof.
  rewrite hit_keq. intros [_ Hk]. unfold home. by rewrite (keq_hash _ _ _ _ Hk).
Qed.

Lemma hit_same_key kbuf klen k' l' (it : item T) :
  keq kbuf klen k' l' = true -> hit kbuf klen it = hit k' l' it.
Proof.
  intros Hk. unfold hit. destruct (used (meta it)); simpl; [| done].
  destruct (keq k' l' (key (meta it)) (len (meta it))) eqn:E.
  - by eapply keq_trans.
  - destruct (keq kbuf klen (key (meta it)) (len (meta it))) eqn:E2; [| done].
    rewrite <- E. symmetry. eapply keq_trans; [| exact E2]. by apply keq_sym.
Qed.

Lemma slot_on_probe its cap (i : nat) it :
  0 < cap -> Z.of_nat (length its) = cap -> its !! i = Some it ->
  0 <= disp cap (meta it) i < cap /\
  probe its cap (home cap (meta it)) (disp cap (meta it) i) = Some it.
Proof.
  intros Hc Hl Hi. apply lookup_lt_Some in Hi as Hlt. split.
  - apply Z.mod_pos_bound. lia.
  - unfold disp. rewrite probe_reaches by lia. done.
Qed.

(** A table built by puts alone stores no key twice. *)
Lemma chain_no_dup its cap (i j : nat) a b :
  0 < cap -> Z.of_nat (length its) = cap -> chain_ok cap its ->
  its !! i = Some a -> its !! j = Some b ->
  used (meta a) = true -> hit (key (meta a)) (len (meta a)) b = true ->
  i = j.
Proof.
  intros Hc Hl Hch Hi Hj Hua Hab.
  apply hit_keq in Hab as Hab'. destruct Hab' as [Hub Hk].
  pose proof (hit_home cap _ _ _ Hab) as Hh. fold (home cap (meta a)) in Hh.
  destruct (slot_on_probe its cap i a Hc Hl Hi) as [Hdi Hpi].
  destruct (slot_on_probe its cap j b Hc Hl Hj) as [Hdj Hpj].
  destruct (Z.lt_trichotomy (disp cap (meta a) i) (disp cap (meta b) j))
    as [Hlt | [Heq | Hgt]].
  - destruct (Hch j b Hj Hub (disp cap (meta a) i)) as (it' & Hp' & Hs'); [lia |].
    rewrite Hh, Hpi in Hp'. injection Hp' as <-.
    unfold stop_put in Hs'. apply orb_false_iff in Hs' as [_ Hs'].
    apply keq_sym in Hk. congruence.
  - apply lookup_lt_Some in Hi as Hli. apply lookup_lt_Some in Hj as Hlj.
    assert (Z.of_nat i = Z.of_nat j); [| lia].
    rewrite <- (probe_index cap (home cap (meta a)) i),
            <- (probe_index cap (home cap (meta b)) j) by lia.
    fold (disp cap (meta a) i). fold (disp cap (meta b) j).
    by rewrite Heq, Hh.
  - destruct (Hch i a Hi Hua (disp cap (meta b) j)) as (it' & Hp' & Hs'); [lia |].
    rewrite <- Hh, Hpj in Hp'. injection Hp' as <-.
    unfold stop_put in Hs'. apply orb_false_iff in Hs' as [_ Hs']. congruence.
Qed.


(** ** [hashmap_put_nogrow] *)

(** On a table with a free slot the loop stops after [d < capacity]
    steps, on the first slot that is unused or holds the key, and the
    macro overwrites the value there or fills the slot. *)
Lemma put_nogrow_cases ty hm its v kbuf klen :
  table_ok hm its -> count hm < capacity hm -> 0 <= klen < 2 ^ 32 ->
  let cap := capacity hm in
  let h := hashmap_hash M kbuf klen mod cap in
  exists d (i : nat) it,
    0 <= d < cap /\ i = Z.to_nat ((h + d) mod cap) /\ its !! i = Some it /\
    (forall j, 0 <= j < d ->
       exists it', probe its cap h j = Some it' /\
                   stop_at ty kbuf klen it' = false) /\
    stop_at ty kbuf klen it = true /\
    hashmap_put_nogrow M ty hm v kbuf klen
    = Ret (if used (meta it)
           then {| count := count hm; index := index hm; capacity := cap;
                   maxcol := maxcol hm;
                   items := Some (<[i := set_data it v]> its) |}
           else {| count := count hm + 1; index := index hm; capacity := cap;
                   maxcol := Z.max (maxcol hm) d;
                   items := Some (<[i := new_slot v kbuf klen]> its) |}).
Proof.
  intros Hok Hroom Hklen cap h.
  destruct Hok as [Hits (k & Hk & Hcap) Hlen Hcnt Hmax _ _].
  pose proof (pow2_bounds k Hk) as Hp.
  assert (Hc : 0 < cap) by (unfold cap; lia).
  assert (Hh : 0 <= h < cap) by (apply Z.mod_pos_bound; lia).
  destruct (first_stop (stop_at ty kbuf klen) its cap h (Z.to_nat cap))
    as [(d & it & Hd & Hpd & Hst & Hrun) | Hrun]; [lia | done | |].
  - exists d, (Z.to_nat ((h + d) mod cap)), it.
    repeat split; try done; try lia.
    unfold hashmap_put_nogrow, HASHMAP_CAP_MASK.
    destruct (Z.leb_spec (capacity hm) (count hm)); [lia |].
    rewrite Hits, (u32_small klen) by done. fold cap.
    assert (Hcap' : cap = 2 ^ k) by done.
    rewrite Hcap', land_mask by done. rewrite <- Hcap'. fold h.
    rewrite Hcap'.
    rewrite (put_probe_run ty k its kbuf klen (Z.to_nat d) _ h 0 it);
      try done; try lia; rewrite <- ?Hcap'.
    + replace (Z.of_nat (Z.to_nat d)) with d by lia. simpl.
      assert (Hmod : 0 <= (h + d) mod cap < cap) by (apply Z.mod_pos_bound; lia).
      assert (Har : aread its ((h + d) mod cap) = Ret it)
        by (apply aread_Ret; split; [lia | done]).
      pose proof (used_count_bounds (meta <$> its)).
      rewrite Har. simpl. rewrite (u32_small (0 + d)), u64_small by lia.
      destruct (used (meta it)); [done |]. unfold new_slot.
      replace (if maxcol hm <? 0 + d then 0 + d else maxcol hm)
        with (Z.max (maxcol hm) d)
        by (destruct (Z.ltb_spec (maxcol hm) (0 + d)); lia).
      done.
    + intros j Hj. apply Hrun. lia.
    + by replace (Z.of_nat (Z.to_nat d)) with d by lia.
  - exfalso.
    destruct (used_count_room (meta <$> its)) as (i & m & Hi & Hm).
    { rewrite length_fmap. lia. }
    rewrite list_lookup_fmap in Hi.
    destruct (its !! i) as [it |] eqn:Hit; [| done]. injection Hi as <-.
    apply lookup_lt_Some in Hit as Hlt.
    destruct (Hrun ((Z.of_nat i - h) mod cap)) as (it' & Hp' & Hs').
    { pose proof (Z.mod_pos_bound (Z.of_nat i - h) cap Hc). lia. }
    rewrite probe_reaches in Hp' by lia.
    assert (it' = it) by congruence. subst it'.
    unfold Hashmap.stop_at in Hs'. rewrite Hm in Hs'. done.
Qed.

Lemma metas_lookup (its its' : list (item T)) (j : nat) x :
  meta <$> its' = meta <$> its -> its' !! j = Some x ->
  exists y, its !! j = Some y /\ meta y = meta x.
Proof.
  intros Hm Hj.
  assert (Hx : (meta <$> its') !! j = Some (meta x))
    by (by rewrite list_lookup_fmap, Hj).
  rewrite Hm, list_lookup_fmap in Hx.
  destruct (its !! j) as [y |]; [| done]. injection Hx as Hx. by exists y.
Qed.

Lemma stop_put_meta kbuf klen (x y : item T) :
  meta x = meta y -> stop_put kbuf klen x = stop_put kbuf klen y.
Proof. unfold stop_put. by intros ->. Qed.

Lemma hit_meta kbuf klen (x y : item T) :
  meta x = meta y -> hit kbuf klen x = hit kbuf klen y.
Proof. unfold hit. by intros ->. Qed.

(** The invariants read the metadata only. *)
Lemma chain_ok_metas cap its its' :
  meta <$> its' = meta <$> its -> chain_ok cap its -> chain_ok cap its'.
Proof.
  intros Hm Hch j x Hj Hu d Hd.
  destruct (metas_lookup its its' j x Hm Hj) as (y & Hy & Hyx).
  rewrite <- Hyx in *.
  destruct (Hch j y Hy Hu d Hd) as (it' & Hp' & Hs').
  unfold probe in *.
  set (n := Z.to_nat ((home cap (meta y) + d) mod cap)) in *.
  assert (Hx : (meta <$> its) !! n = Some (meta it'))
    by (by rewrite list_lookup_fmap, Hp').
  rewrite <- Hm, list_lookup_fmap in Hx.
  destruct (its' !! n) as [z |] eqn:Hz; simpl in Hx; [| done].
  injection Hx as Hx.
  exists z. split; [done |]. by rewrite (stop_put_meta _ _ z it').
Qed.


Lemma table_ok_metas hm hm' its its' :
  table_ok hm its -> meta <$> its' = meta <$> its ->
  items hm' = Some its' -> capacity hm' = capacity hm ->
  count hm' = count hm -> maxcol hm' = maxcol hm ->
  table_ok hm' its'.
Proof.
  intros [Hits Hcap Hlen Hcnt Hmax Hkl Hdi] Hm Hits' Hc' Hn' Hx'.
  split; rewrite ?Hc', ?Hn', ?Hx', ?Hm; try done.
  - rewrite <- Hlen. rewrite <- (length_fmap meta its'), Hm. by rewrite length_fmap.
  - intros j x Hj Hu.
    destruct (metas_lookup its its' j x Hm Hj) as (y & Hy & Hyx).
    rewrite <- Hyx in *. by eapply Hkl.
  - intros j x Hj Hu.
    destruct (metas_lookup its its' j x Hm Hj) as (y & Hy & Hyx).
    rewrite <- Hyx in *. by eapply Hdi.
Qed.

(** Overwriting the value of the slot that holds the key. *)
Lemma overwrite_ok hm its (i : nat) it v kbuf klen :
  table_ok hm its -> its !! i = Some it -> hit kbuf klen it = true ->
  let its' := <[i := set_data it v]> its in
  let hm' := {| count := count hm; index := index hm; capacity := capacity hm;
                maxcol := maxcol hm; items := Some its' |} in
  table_ok hm' its' /\ holds its' kbuf klen v /\
  (chain_ok (capacity hm) its ->
   chain_ok (capacity hm) its' /\
   forall k' l' v', holds its' k' l' v' <->
                    if keq kbuf klen k' l' then v' = v else holds its k' l' v').
Proof.
  intros Hok Hi Hhit its' hm'.
  assert (Hm : meta <$> its' = meta <$> its).
  { unfold its'. rewrite list_fmap_insert. simpl. apply list_insert_id.
    by rewrite list_lookup_fmap, Hi. }
  apply lookup_lt_Some in Hi as Hlt.
  assert (Hi' : its' !! i = Some (set_data it v))
    by (by apply list_lookup_insert_eq).
  assert (Hhit' : hit kbuf klen (set_data it v) = true)
    by (by rewrite (hit_meta _ _ _ it)).
  split; [by eapply table_ok_metas |].
  split; [by exists i, (set_data it v) |].
  intros Hch. split; [by eapply chain_ok_metas |].
  destruct Hok as [_ (k & Hk & Hcap) Hlen _ _ _ _].
  pose proof (pow2_bounds k Hk) as Hp.
  apply hit_keq in Hhit as Hhit2. destruct Hhit2 as [Hu Hkey].
  intros k' l' v'. split.
  - intros (j & x & Hj & Hx & Hv).
    apply list_lookup_insert_Some in Hj as [(<- & <- & _) | (Hne & Hj)].
    + simpl in Hv. apply hit_keq in Hx as [_ Hx]. simpl in Hx.
      rewrite (keq_trans _ _ _ _ _ _ Hkey (keq_sym _ _ _ _ Hx)). done.
    + destruct (keq kbuf klen k' l') eqn:E; [| by exists j, x].
      exfalso. apply Hne.
      apply (chain_no_dup its (capacity hm) i j it x); try done; try lia.
      rewrite <- (hit_same_key kbuf klen) by done.
      by rewrite <- (hit_same_key kbuf klen k' l') in Hx.
  - destruct (keq kbuf klen k' l') eqn:E.
    + intros ->. exists i, (set_data it v). repeat split; try done.
      by rewrite <- (hit_same_key kbuf klen k' l').
    + intros (j & x & Hj & Hx & Hv).
      exists j, x. repeat split; try done.
      unfold its'. rewrite list_lookup_insert_ne; [done |].
      intros <-. assert (x = it) by congruence. subst x.
      apply hit_keq in Hx as [_ Hx].
      rewrite (keq_trans _ _ _ _ _ _ Hkey (keq_sym _ _ _ _ Hx)) in E. done.
Qed.


Lemma stop_put_false kbuf klen (it : item T) :
  stop_put kbuf klen it = false <->
  used (meta it) = true /\ keq kbuf klen (key (meta it)) (len (meta it)) = false.
Proof.
  unfold stop_put. rewrite orb_false_iff, negb_false_iff. tauto.
Qed.

(** Filling the unused slot on which the loop stopped after [d] steps. *)
Lemma fill_ok hm its (i : nat) it v kbuf klen d :
  table_ok hm its -> count hm < capacity hm -> 0 <= klen < 2 ^ 32 ->
  let cap := capacity hm in
  let h := hashmap_hash M kbuf klen mod cap in
  0 <= d < cap -> i = Z.to_nat ((h + d) mod cap) ->
  its !! i = Some it -> used (meta it) = false ->
  let its' := <[i := new_slot v kbuf klen]> its in
  let hm' := {| count := count hm + 1; index := index hm; capacity := cap;
                maxcol := Z.max (maxcol hm) d; items := Some its' |} in
  table_ok hm' its' /\ holds its' kbuf klen v /\
  (chain_ok cap its ->
   (forall j, 0 <= j < d ->
      exists it', probe its cap h j = Some it' /\ stop_put kbuf klen it' = false) ->
   chain_ok cap its' /\ ~ held its kbuf klen /\
   forall k' l' v', holds its' k' l' v' <->
                    if keq kbuf klen k' l' then v' = v else holds its k' l' v').
Proof.
  intros Hok Hroom Hklen cap h Hd Hidx Hi Hu its' hm'.
  destruct Hok as [Hits (k & Hk & Hcap) Hlen Hcnt Hmax Hkl Hdi].
  pose proof (pow2_bounds k Hk) as Hp.
  assert (Hc : 0 < cap) by (unfold cap; lia).
  apply lookup_lt_Some in Hi as Hlt.
  assert (Hiz : Z.of_nat i = (h + d) mod cap).
  { pose proof (Z.mod_pos_bound (h + d) cap Hc). lia. }
  assert (Hpd : probe its cap h d = Some it) by (unfold probe; by rewrite <- Hidx).
  assert (Hi' : its' !! i = Some (new_slot v kbuf klen))
    by (by apply list_lookup_insert_eq).
  assert (Hother : forall (j : nat) x, its' !! j = Some x ->
            (j = i /\ x = new_slot v kbuf klen) \/ (j <> i /\ its !! j = Some x)).
  { intros j x Hj. apply list_lookup_insert_Some in Hj as [(<- & <- & _) | (Hne & Hj)].
    - by left.
    - right. split; [done | done]. }
  assert (Hkeep : forall s j x, probe its cap s j = Some x -> used (meta x) = true ->
            probe its' cap s j = Some x).
  { intros s j x Hx Hux. unfold probe, its' in *.
    rewrite list_lookup_insert_ne; [done |]. intros Heq. rewrite <- Heq in Hx.
    congruence. }
  assert (Hhome : home cap (meta (new_slot v kbuf klen)) = h) by done.
  assert (Hdisp : disp cap (meta (new_slot v kbuf klen)) i = d).
  { unfold disp. rewrite Hhome, Hiz, Zminus_mod_idemp_l.
    replace (h + d - h) with d by lia. apply Z.mod_small. lia. }
  assert (Hhit : hit kbuf klen (new_slot v kbuf klen) = true)
    by (unfold hit; simpl; apply keq_refl).
  split; [| split].
  - split; simpl; try done.
    + by exists k.
    + unfold its'. by rewrite length_insert.
    + unfold its'. rewrite list_fmap_insert.
      rewrite (used_count_insert _ i (meta it)) by (by rewrite list_lookup_fmap, Hi).
      simpl. rewrite Hu, Hcnt. lia.
    + fold cap in Hmax. lia.
    + intros j x Hj Hux. destruct (Hother j x Hj) as [[-> ->] | [_ Hj']].
      * done.
      * by eapply Hkl.
    + intros j x Hj Hux. destruct (Hother j x Hj) as [[-> ->] | [_ Hj']].
      * fold cap. rewrite Hdisp. lia.
      * pose proof (Hdi j x Hj' Hux) as Hle. fold cap in Hle. lia.
  - by exists i, (new_slot v kbuf klen).
  - intros Hch Hrun.
    assert (Hfresh : ~ held its kbuf klen).
    { intros (j & x & Hj & Hx).
      destruct (slot_on_probe its cap j x Hc Hlen Hj) as [Hdj Hpj].
      rewrite (hit_home cap kbuf klen x Hx) in Hpj. fold h in Hpj.
      apply hit_keq in Hx as Hx2. destruct Hx2 as [Hux Hkx].
      destruct (Z.lt_trichotomy (disp cap (meta x) j) d) as [Hl | [He | Hg]].
      - destruct (Hrun _ (conj (proj1 Hdj) Hl)) as (it' & Hp' & Hs').
        assert (it' = x) by congruence. subst it'.
        apply stop_put_false in Hs' as [_ Hs']. congruence.
      - rewrite He in Hpj. assert (x = it) by congruence. subst x. congruence.
      - destruct (Hch j x Hj Hux d) as (it' & Hp' & Hs'); [lia |].
        rewrite (hit_home cap kbuf klen x Hx) in Hp'. fold h in Hp'.
        assert (it' = it) by congruence. subst it'.
        apply stop_put_false in Hs' as [Hs' _]. congruence. }
    split; [| split; [done |]].
    + intros j x Hj Hux dd Hdd. destruct (Hother j x Hj) as [[-> ->] | [_ Hj']].
      * rewrite Hdisp in Hdd. rewrite Hhome.
        destruct (Hrun dd Hdd) as (it' & Hp' & Hs').
        exists it'. split; [| done].
        apply Hkeep; [done |]. by apply stop_put_false in Hs' as [? _].
      * destruct (Hch j x Hj' Hux dd Hdd) as (it' & Hp' & Hs').
        exists it'. split; [| done].
        apply Hkeep; [done |]. by apply stop_put_false in Hs' as [? _].
    + intros k' l' v'. split.
      * intros (j & x & Hj & Hx & Hv).
        destruct (Hother j x Hj) as [[-> ->] | [_ Hj']].
        -- simpl in Hv. apply hit_keq in Hx as [_ Hx]. simpl in Hx.
           by rewrite (keq_sym _ _ _ _ Hx).
        -- destruct (keq kbuf klen k' l') eqn:E; [| by exists j, x].
           exfalso. apply Hfresh. exists j, x. split; [done |].
           by rewrite (hit_same_key kbuf klen k' l').
      * destruct (keq kbuf klen k' l') eqn:E.
        -- intros ->. exists i, (new_slot v kbuf klen). repeat split; try done.
           by rewrite <- (hit_same_key kbuf klen k' l').
        -- intros (j & x & Hj & Hx & Hv). exists j, x. repeat split; try done.
           apply hit_keq in Hx as [Hux _].
           unfold its'. rewrite list_lookup_insert_ne; [done |].
           intros <-. congruence.
Qed.


(** [hashmap_put_nogrow] on a table with a free slot returns, keeps the
    invariant, stores the pair, and on a table built by puts alone changes
    nothing else. *)
Lemma put_nogrow_ok ty hm its v kbuf klen :
  table_ok hm its -> count hm < capacity hm -> 0 <= klen < 2 ^ 32 ->
  exists hm' its',
    hashmap_put_nogrow M ty hm v kbuf klen = Ret hm' /\ table_ok hm' its' /\
    capacity hm' = capacity hm /\ index hm' = index hm /\
    count hm <= count hm' <= count hm + 1 /\ holds its' kbuf klen v /\
    (chain_ok (capacity hm) its ->
     plain ty kbuf = true \/ ~ held its kbuf klen ->
     chain_ok (capacity hm) its' /\
     (forall k' l' v', holds its' k' l' v' <->
                       if keq kbuf klen k' l' then v' = v else holds its k' l' v') /\
     (held its kbuf klen -> count hm' = count hm) /\
     (~ held its kbuf klen -> count hm' = count hm + 1)).
Proof.
  intros Hok Hroom Hklen.
  destruct (put_nogrow_cases ty hm its v kbuf klen Hok Hroom Hklen)
    as (d & i & it & Hd & Hidx & Hi & Hrun & Hstop & Hput).
  assert (Hrun' : plain ty kbuf = true \/ ~ held its kbuf klen ->
            forall j, 0 <= j < d ->
              exists it', probe its (capacity hm) (hashmap_hash M kbuf klen mod capacity hm) j
                          = Some it' /\ stop_put kbuf klen it' = false).
  { intros Hcase j Hj. destruct (Hrun j Hj) as (it' & Hp' & Hs').
    exists it'. split; [done |]. destruct Hcase as [Hpl | Hnh].
    - by rewrite <- (stop_at_plain ty it' kbuf klen Hpl).
    - rewrite <- (stop_at_miss ty it' kbuf klen); [done |].
      destruct (hit kbuf klen it') eqn:E; [| done].
      exfalso. apply Hnh. unfold Hashmap.probe in Hp'. by eexists _, it'. }
  destruct (used (meta it)) eqn:Hu.
  - assert (Hhit : hit kbuf klen it = true).
    { unfold Hashmap.stop_at in Hstop. rewrite Hu in Hstop. simpl in Hstop.
      apply hit_keq. split; [done |]. by apply (match_item_sub ty). }
    destruct (overwrite_ok hm its i it v kbuf klen Hok Hi Hhit) as (Hok' & Hh & Hch).
    eexists _, _. split; [exact Hput |]. split; [exact Hok' |].
    simpl. repeat split; try done; try lia.
    + by apply Hch.
    + by apply Hch.
    + by apply Hch.
    + intros Hn. exfalso. apply Hn. by exists i, it.
  - destruct (fill_ok hm its i it v kbuf klen d Hok Hroom Hklen Hd Hidx Hi Hu)
      as (Hok' & Hh & Hch).
    eexists _, _. split; [exact Hput |]. split; [exact Hok' |].
    simpl. repeat split; try done; try lia.
    + by apply Hch; [| apply Hrun'].
    + by apply Hch; [| apply Hrun'].
    + by apply Hch; [| apply Hrun'].
    + intros Hheld. exfalso. by apply Hch; [| apply Hrun' | ].
Qed.

(** ** The rebuild loops *)

Lemma reinsert_S (src : option (list (item T))) (bound : nat) (tmp : hashmap T) :
  reinsert M src (Z.of_nat (S bound)) tmp
  = reinsert_step M src (reinsert M src (Z.of_nat bound) tmp) bound.
Proof.
  unfold reinsert. rewrite !Nat2Z.id, seq_S, foldl_app. done.
Qed.

(** The loop rule of [reinsert]: a property of the number of slots
    visited and of the table being built, kept by every step, holds when
    the loop ends, and the loop does end. *)
Lemma reinsert_inv (P : nat -> hashmap T -> Prop) its (n : nat) tmp :
  (n <= length its)%nat -> P 0%nat tmp ->
  (forall (i : nat) t it, (i < n)%nat -> P i t -> its !! i = Some it ->
     if used (meta it)
     then exists t', hashmap_put_nogrow M UChar t (data it) (key (meta it))
                       (len (meta it))
                     = Ret t' /\ P (S i) t'
     else P (S i) t) ->
  exists t', reinsert M (Some its) (Z.of_nat n) tmp = Ret t' /\ P n t'.
Proof.
  intros Hn H0 Hstep. induction n as [| n IH].
  - exists tmp. by split.
  - destruct IH as (t & Ht & HP); [lia | |].
    { intros i t it Hi. apply Hstep. lia. }
    destruct (lookup_lt_is_Some_2 its n) as [it Hit]; [lia |].
    rewrite reinsert_S, Ht. unfold reinsert_step. simpl.
    rewrite (aread_nat its n it Hit). simpl.
    specialize (Hstep n t it (Nat.lt_succ_diag_r n) HP Hit).
    destruct (used (meta it)); [done |]. by exists t.
Qed.

Lemma holds_snoc its it kbuf klen v :
  holds (its ++ [it]) kbuf klen v <->
  holds its kbuf klen v \/ (hit kbuf klen it = true /\ data it = v).
Proof.
  split.
  - intros (j & x & Hj & Hx & Hv).
    apply lookup_snoc_Some in Hj as [[_ Hj] | [_ <-]].
    + left. by exists j, x.
    + by right.
  - intros [(j & x & Hj & Hx & Hv) | [Hx Hv]].
    + exists j, x. repeat split; try done. apply lookup_app_l_Some. done.
    + exists (length its), it. repeat split; try done.
      apply lookup_snoc_Some. by right.
Qed.

Lemma holds_take its (n : nat) kbuf klen v :
  holds (take n its) kbuf klen v ->
  exists (j : nat) x, (j < n)%nat /\ its !! j = Some x /\ hit kbuf klen x = true
                      /\ data x = v.
Proof.
  intros (j & x & Hj & Hx & Hv). apply lookup_take_Some in Hj as [Hj Hlt].
  by exists j, x.
Qed.


Lemma replicate_zero_unused (n i : nat) (it : item T) :
  replicate n (zero_item T0) !! i = Some it -> used (meta it) = false.
Proof. intros [-> _]%lookup_replicate. done. Qed.

(** A freshly allocated array of [2^k] slots. *)
Lemma init_cap_ok (hm0 : hashmap T) k :
  0 <= k <= 31 ->
  let its := replicate (Z.to_nat (2 ^ k)) (zero_item T0) in
  table_ok (hashmap_init_cap T0 hm0 (2 ^ k)) its /\ chain_ok (2 ^ k) its /\
  forall kbuf klen, ~ held its kbuf klen.
Proof.
  intros Hk its. pose proof (pow2_bounds k Hk) as Hp. split; [| split].
  - split; simpl; try done.
    + by exists k.
    + unfold its. rewrite length_replicate. lia.
    + unfold its. rewrite fmap_replicate. by rewrite used_count_replicate.
    + lia.
    + intros i it Hi Hu. apply replicate_zero_unused in Hi. congruence.
    + intros i it Hi Hu. apply replicate_zero_unused in Hi. congruence.
  - intros i it Hi Hu. apply replicate_zero_unused in Hi. congruence.
  - intros kbuf klen (i & it & Hi & Hx). apply replicate_zero_unused in Hi.
    apply hit_keq in Hx as [Hu _]. congruence.
Qed.

Lemma rebuild_step newcap hm its (i : nat) t it :
  table_ok hm its -> Z.of_nat i < newcap ->
  rebuild_inv newcap (capacity hm) its i t -> its !! i = Some it ->
  if used (meta it)
  then exists t', hashmap_put_nogrow M UChar t (data it) (key (meta it))
                    (len (meta it))
                  = Ret t' /\ rebuild_inv newcap (capacity hm) its (S i) t'
  else rebuild_inv newcap (capacity hm) its (S i) t.
Proof.
  intros Hok Hi (tits & Htok & Htch & Htcap & Htcnt & Hsrc) Hit.
  pose proof (ok_len _ _ Hok) as Hlen.
  destruct (ok_cap _ _ Hok) as (k & Hk & Hcap).
  pose proof (pow2_bounds k Hk) as Hp.
  pose proof (used_count_bounds (meta <$> take i its)) as Hb.
  rewrite length_fmap, length_take in Hb.
  destruct (used (meta it)) eqn:Hu.
  - destruct (put_nogrow_ok UChar t tits (data it) (key (meta it)) (len (meta it)))
      as (t' & tits' & Hput & Hok' & Hcap' & _ & Hcnt' & _ & Hchain);
      [done | lia | by eapply (ok_klen _ _ Hok) |].
    rewrite Htcap in Hchain.
    destruct (Hchain Htch (or_introl eq_refl)) as (Hc1 & Hh1 & _ & Hnew).
    exists t'. split; [done |]. exists tits'.
    rewrite (take_S_r _ _ _ Hit), fmap_app, used_count_app. simpl. rewrite Hu.
    split; [done |]. split; [done |]. split; [lia |]. split; [lia |].
    intros Hsc. destruct (Hsrc Hsc) as [Hceq Hheq].
    assert (Hfresh : ~ held tits (key (meta it)) (len (meta it))).
    { intros (j & x & Hj & Hx).
      assert (Hh : holds tits (key (meta it)) (len (meta it)) (data x))
        by (by exists j, x).
      apply Hheq, holds_take in Hh as (j' & x' & Hj' & Hx' & Hhit' & _).
      assert (i = j'); [| lia].
      apply (chain_no_dup its (capacity hm) i j' it x'); try done; lia. }
    split; [rewrite (Hnew Hfresh); lia |].
    intros k' l' v'. rewrite Hh1, holds_snoc, <- Hheq.
    destruct (keq (key (meta it)) (len (meta it)) k' l') eqn:E.
    + split.
      * intros ->. right. split; [| done]. apply hit_keq. split; [done |].
        by apply keq_sym.
      * intros [(j & x & Hj & Hx & _) | [_ Hv]]; [| done].
        exfalso. apply Hfresh. exists j, x. split; [done |].
        by rewrite (hit_same_key _ _ k' l').
    + split; [by left |]. intros [Hold | [Hx _]]; [done |].
      apply hit_keq in Hx as [_ Hx]. apply keq_sym in Hx. congruence.
  - exists tits.
    rewrite (take_S_r _ _ _ Hit), fmap_app, used_count_app. simpl. rewrite Hu.
    split; [done |]. split; [done |]. split; [done |]. split; [lia |].
    intros Hsc. destruct (Hsrc Hsc) as [Hceq Hheq]. split; [lia |].
    intros k' l' v'. rewrite holds_snoc, <- Hheq.
    split; [by left |]. intros [Hold | [Hx _]]; [done |].
    apply hit_keq in Hx as [Hx _]. congruence.
Qed.

(** [hashmap_grow] returns a sound table of twice the capacity in which
    every stored key sits at the end of an unbroken run from its home
    slot; when the old table was built by puts alone, the new one holds
    the same pairs and the same [count]. *)
Lemma grow_ok hm its :
  table_ok hm its -> capacity hm <= 2 ^ 30 ->
  exists hm' its',
    hashmap_grow M T0 hm = Ret hm' /\ table_ok hm' its' /\
    chain_ok (capacity hm') its' /\ capacity hm' = 2 * capacity hm /\
    index hm' = index hm /\ count hm' <= count hm /\
    (chain_ok (capacity hm) its ->
     count hm' = count hm /\
     forall kbuf klen v, holds its' kbuf klen v <-> holds its kbuf klen v).
Proof.
  intros Hok Hbound.
  pose proof (ok_len _ _ Hok) as Hlen. pose proof (ok_items _ _ Hok) as Hits.
  destruct (ok_cap _ _ Hok) as (k & Hk & Hcap).
  pose proof (pow2_bounds k Hk) as Hp.
  assert (Hk' : 0 <= k + 1 <= 31).
  { split; [lia |]. destruct (Z.le_gt_cases (k + 1) 31) as [| Hgt]; [done |].
    assert (2 ^ 31 <= 2 ^ k) by (apply Z.pow_le_mono_r; lia). lia. }
  assert (Hdbl : u64 (Z.shiftl (capacity hm) 1) = 2 ^ (k + 1)).
  { rewrite Z.shiftl_mul_pow2 by lia. rewrite Z.pow_add_r by lia.
    rewrite u64_small; lia. }
  assert (H2 : 2 ^ (k + 1) = 2 * capacity hm).
  { rewrite Z.pow_add_r by lia. lia. }
  unfold hashmap_grow. rewrite Hdbl, Hits.
  destruct (init_cap_ok hashmap_zero (k + 1) Hk') as (Hok0 & Hch0 & Hempty0).
  destruct (reinsert_inv (rebuild_inv (2 * capacity hm) (capacity hm) its) its (length its)
              (hashmap_init_cap T0 hashmap_zero (2 ^ (k + 1))))
    as (t & Ht & (tits & Htok & Htch & Htcap & Htcnt & Hsrc)); [lia | |  |].
  - eexists. split; [exact Hok0 |]. rewrite <- H2. split; [done |].
    split; [done |]. simpl. split; [lia |]. intros _. split; [done |].
    intros kbuf klen v. split.
    + intros (j & x & Hj & Hx & _). exfalso.
      apply (Hempty0 kbuf klen). by exists j, x.
    + intros (j & x & Hj & _). done.
  - intros i t it Hi HP Hit. apply (rebuild_step _ hm its i t it); try done. lia.
  - rewrite Hlen in Ht. rewrite Ht. simpl.
    rewrite take_ge in Htcnt, Hsrc by lia.
    exists (take_over hm t), tits.
    split; [done |].
    split; [apply (table_ok_metas t _ tits tits); try done;
            simpl; apply (ok_items _ _ Htok) |].
    unfold take_over. simpl. rewrite Htcap.
    split; [done |]. split; [done |]. split; [done |].
    rewrite (ok_count _ _ Hok). split; [done |]. done.
Qed.


Lemma held_holds (its : list (item T)) kbuf klen :
  held its kbuf klen <-> exists v, holds its kbuf klen v.
Proof.
  split.
  - intros (j & x & Hj & Hx). exists (data x). by exists j, x.
  - intros (v & j & x & Hj & Hx & _). by exists j, x.
Qed.

Lemma table_count_bounds hm its :
  table_ok hm its -> 0 <= count hm <= capacity hm.
Proof.
  intros Hok. rewrite (ok_count _ _ Hok), <- (ok_len _ _ Hok).
  pose proof (used_count_bounds (meta <$> its)) as Hb.
  by rewrite length_fmap in Hb.
Qed.

(** [hashmap_shrink] on a table built by puts alone, with
    [count <= capacity / 4]: the new table of half the capacity holds what
    the first [count] slots of the old array held, and nothing of the other
    slots. *)
Lemma shrink_spec hm its :
  table_ok hm its -> chain_ok (capacity hm) its ->
  2 <= capacity hm -> count hm <= capacity hm / 4 ->
  exists hm' its',
    hashmap_shrink M T0 hm = Ret hm' /\ table_ok hm' its' /\
    capacity hm' = capacity hm / 2 /\
    count hm' = used_count (meta <$> take (Z.to_nat (count hm)) its) /\
    forall kbuf klen v,
      holds its' kbuf klen v <-> holds (take (Z.to_nat (count hm)) its) kbuf klen v.
Proof.
  intros Hok Hch H2 Hquarter.
  pose proof (ok_len _ _ Hok) as Hlen. pose proof (ok_items _ _ Hok) as Hits.
  destruct (ok_cap _ _ Hok) as (k & Hk & Hcap).
  pose proof (pow2_bounds k Hk) as Hp.
  assert (Hk1 : 1 <= k).
  { destruct (Z.le_gt_cases 1 k) as [| Hlt]; [done |].
    assert (k = 0) by lia. subst k. change (2 ^ 0) with 1 in Hcap. lia. }
  assert (Hhalf : capacity hm = 2 * 2 ^ (k - 1)).
  { rewrite Hcap. replace k with (k - 1 + 1) at 1 by lia.
    rewrite Z.pow_add_r by lia. lia. }
  assert (Hk' : 0 <= k - 1 <= 31) by lia.
  pose proof (pow2_bounds (k - 1) Hk') as Hp'.
  assert (Hshift : Z.shiftr (capacity hm) 1 = 2 ^ (k - 1)).
  { rewrite Z.shiftr_div_pow2 by lia. change (2 ^ 1) with 2.
    rewrite Hhalf, Z.mul_comm. apply Z.div_mul. lia. }
  pose proof (table_count_bounds hm its Hok) as Hb.
  assert (Hq : capacity hm / 4 <= 2 ^ (k - 1))
    by (apply Z.div_le_upper_bound; lia).
  unfold hashmap_shrink.
  destruct (Z.ltb_spec (capacity hm / 4) (count hm)); [lia |].
  rewrite Hshift, Hits.
  destruct (init_cap_ok hashmap_zero (k - 1) Hk') as (Hok0 & Hch0 & Hempty0).
  destruct (reinsert_inv (rebuild_inv (2 ^ (k - 1)) (capacity hm) its) its
              (Z.to_nat (count hm))
              (hashmap_init_cap T0 hashmap_zero (2 ^ (k - 1))))
    as (t & Ht & (tits & Htok & Htch & Htcap & Htcnt & Hsrc)); [lia | |  |].
  - eexists. split; [exact Hok0 |]. split; [done |].
    split; [done |]. simpl. split; [lia |]. intros _. split; [done |].
    intros kbuf klen v. split.
    + intros (j & x & Hj & Hx & _). exfalso.
      apply (Hempty0 kbuf klen). by exists j, x.
    + intros (j & x & Hj & _). done.
  - intros i t it Hi HP Hit. apply (rebuild_step _ hm its i t it); try done. lia.
  - rewrite Z2Nat.id in Ht by lia. rewrite Ht. simpl.
    destruct (Hsrc Hch) as [Hcnt Hh].
    exists (take_over hm t), tits.
    split; [done |].
    split; [apply (table_ok_metas t _ tits tits); try done;
            simpl; apply (ok_items _ _ Htok) |].
    assert (Hdiv : capacity hm / 2 = 2 ^ (k - 1))
      by (rewrite Hhalf, Z.mul_comm; apply Z.div_mul; lia).
    unfold take_over. cbn [capacity count]. rewrite Htcap, Hdiv.
    split; [done |]. split; [done |]. done.
Qed.

(** So a key stored in a slot of index [count] or more is lost by
    [hashmap_shrink]. *)
Lemma shrink_loses hm its (i : nat) it :
  table_ok hm its -> chain_ok (capacity hm) its ->
  2 <= capacity hm -> count hm <= capacity hm / 4 ->
  its !! i = Some it -> used (meta it) = true -> count hm <= Z.of_nat i ->
  exists hm' its',
    hashmap_shrink M T0 hm = Ret hm' /\ table_ok hm' its' /\
    ~ held its' (key (meta it)) (len (meta it)).
Proof.
  intros Hok Hch H2 Hquarter Hi Hu Hge.
  destruct (shrink_spec hm its Hok Hch H2 Hquarter)
    as (hm' & its' & Hshrink & Hok' & _ & _ & Hh).
  exists hm', its'. split; [done |]. split; [done |].
  intros (j & x & Hj & Hx).
  assert (Hx' : holds its' (key (meta it)) (len (meta it)) (data x))
    by (by exists j, x).
  apply Hh, holds_take in Hx' as (j' & x' & Hj' & Hx' & Hhit' & _).
  destruct (ok_cap _ _ Hok) as (k & Hk & Hcap).
  pose proof (pow2_bounds k Hk) as Hp.
  assert (i = j'); [| lia].
  apply (chain_no_dup its (capacity hm) i j' it x'); try done; try lia.
  apply (ok_len _ _ Hok).
Qed.


(** ** [hashmap_put] *)

Lemma put_ok ty hm its v kbuf klen :
  table_ok hm its -> capacity hm <= 2 ^ 30 -> 0 <= klen < 2 ^ 32 ->
  exists hm' its',
    hashmap_put M T0 ty hm v kbuf klen = Ret hm' /\ table_ok hm' its' /\
    capacity hm' = (if load_factor_ge_0_7 (count hm) (capacity hm)
                    then 2 * capacity hm else capacity hm) /\
    index hm' = index hm /\ count hm' <= count hm + 1 /\
    10 * (count hm' - 1) < 7 * capacity hm' /\ holds its' kbuf klen v /\
    (chain_ok (capacity hm) its ->
     plain ty kbuf = true \/ ~ held its kbuf klen ->
     chain_ok (capacity hm') its' /\
     (forall k' l' v', holds its' k' l' v' <->
                       if keq kbuf klen k' l' then v' = v else holds its k' l' v') /\
     (held its kbuf klen -> count hm' = count hm) /\
     (~ held its kbuf klen -> count hm' = count hm + 1)).
Proof.
  intros Hok Hbound Hklen.
  pose proof (table_count_bounds hm its Hok) as Hcb.
  destruct (ok_cap _ _ Hok) as (k & Hk & Hcap).
  pose proof (pow2_bounds k Hk) as Hp.
  unfold hashmap_put.
  destruct (load_factor_ge_0_7 (count hm) (capacity hm)) eqn:Hload.
  - apply load_factor_spec in Hload; [| lia | lia].
    destruct (grow_ok hm its Hok Hbound)
      as (hm1 & its1 & Hgrow & Hok1 & Hch1 & Hcap1 & Hidx1 & Hcnt1 & Hsame).
    rewrite Hgrow. simpl.
    destruct (put_nogrow_ok ty hm1 its1 v kbuf klen Hok1)
      as (hm' & its' & Hput & Hok' & Hcap' & Hidx' & Hcnt' & Hh & Hchain);
      [lia | done |].
    exists hm', its'.
    split; [done |]. split; [done |]. split; [lia |]. split; [lia |].
    split; [lia |]. split; [lia |]. split; [done |].
    intros Hch0 Hcase. destruct (Hsame Hch0) as [Hc Heq].
    assert (Hcase1 : plain ty kbuf = true \/ ~ held its1 kbuf klen).
    { destruct Hcase as [Hpl | Hnh]; [by left | right].
      intros [v0 Hx]%held_holds. apply Hnh, held_holds. exists v0. by apply Heq. }
    destruct (Hchain Hch1 Hcase1) as (Hc' & Hh' & Hheld & Hnew).
    split; [by rewrite Hcap' |]. split; [| split].
    + intros k' l' v'. rewrite Hh'. destruct (keq kbuf klen k' l'); [done |].
      apply Heq.
    + intros Hx. rewrite Hheld; [lia |].
      apply held_holds in Hx as [v0 Hx]. apply held_holds. exists v0. by apply Heq.
    + intros Hx. rewrite Hnew; [lia |].
      intros [v0 Hx']%held_holds. apply Hx, held_holds. exists v0. by apply Heq.
  - assert (Hlt : 10 * count hm < 7 * capacity hm).
    { destruct (Z.le_gt_cases (7 * capacity hm) (10 * count hm)) as [Hle |]; [| lia].
      apply load_factor_spec in Hle; [congruence | lia | lia]. }
    simpl.
    destruct (put_nogrow_ok ty hm its v kbuf klen Hok)
      as (hm' & its' & Hput & Hok' & Hcap' & Hidx' & Hcnt' & Hh & Hchain);
      [lia | done |].
    exists hm', its'. rewrite Hcap'.
    split; [done |]. split; [done |]. split; [done |]. split; [lia |].
    split; [lia |]. split; [lia |]. split; [done |]. done.
Qed.

(** ** [hashmap_remove] *)

Lemma remove_cases hm its kbuf klen :
  table_ok hm its -> 0 <= klen < 2 ^ 32 ->
  let cap := capacity hm in
  let h := hashmap_hash M kbuf klen mod cap in
  (exists d (i : nat) it,
      0 <= d <= maxcol hm /\ i = Z.to_nat ((h + d) mod cap) /\
      its !! i = Some it /\ hit kbuf klen it = true /\
      (forall j, 0 <= j < d ->
         exists it', probe its cap h j = Some it' /\ hit kbuf klen it' = false) /\
      hashmap_remove M hm kbuf klen
      = Ret {| count := count hm - 1; index := index hm; capacity := cap;
               maxcol := maxcol hm;
               items := Some (<[i := clear_used it]> its) |})
  \/ ((forall j, 0 <= j <= maxcol hm ->
         exists it', probe its cap h j = Some it' /\ hit kbuf klen it' = false) /\
      hashmap_remove M hm kbuf klen = Ret hm).
Proof.
  intros Hok Hklen cap h.
  pose proof (table_count_bounds hm its Hok) as Hcb.
  destruct Hok as [Hits (k & Hk & Hcap) Hlen Hcnt Hmax _ _].
  pose proof (pow2_bounds k Hk) as Hp.
  assert (Hc : 0 < cap) by (unfold cap; lia).
  unfold hashmap_remove, hashmap_index_var. rewrite Hits, (u32_small klen) by done.
  destruct (lookup_cases k its (maxcol hm) kbuf klen Hk)
    as [(d & it & Hd & Hpd & Hhit & Hrun & Hlook) | [Hrun Hlook]];
    [lia | lia | |].
  - rewrite <- Hcap in *. rewrite Hlook. simpl.
    fold cap in Hpd, Hrun. fold h in Hpd, Hrun. fold cap. fold h.
    left. exists d, (Z.to_nat ((h + d) mod cap)), it.
    repeat split; try done; try lia.
    assert (Hmod : 0 <= (h + d) mod cap < cap) by (apply Z.mod_pos_bound; lia).
    destruct (Z.leb_spec 0 ((h + d) mod cap)); [| lia].
    assert (Har : aread its ((h + d) mod cap) = Ret it)
      by (apply aread_Ret; split; [lia | done]).
    rewrite Har. simpl. rewrite u64_small; [done |].
    apply hit_keq in Hhit as [Hu _].
    assert (0 < used_count (meta <$> its)).
    { apply (used_count_pos _ (Z.to_nat ((h + d) mod cap)) (meta it)); [| done].
      unfold probe in Hpd. by rewrite list_lookup_fmap, Hpd. }
    lia.
  - rewrite <- Hcap in *. rewrite Hlook. simpl. right. by split.
Qed.

Lemma remove_ok hm its kbuf klen :
  table_ok hm its -> 0 <= klen < 2 ^ 32 ->
  exists hm' its',
    hashmap_remove M hm kbuf klen = Ret hm' /\ table_ok hm' its' /\
    capacity hm' = capacity hm /\ maxcol hm' = maxcol hm /\
    count hm' <= count hm.
Proof.
  intros Hok Hklen.
  destruct (remove_cases hm its kbuf klen Hok Hklen)
    as [(d & i & it & Hd & Hidx & Hi & Hhit & Hrun & Hrem) | [_ Hrem]].
  - eexists _, _. split; [exact Hrem |]. simpl.
    split; [| repeat split; lia].
    destruct Hok as [Hits Hcap Hlen Hcnt Hmax Hkl Hdi].
    apply hit_keq in Hhit as [Hu _].
    split; simpl; try done.
    + by rewrite length_insert.
    + rewrite list_fmap_insert.
      rewrite (used_count_insert _ i (meta it)) by (by rewrite list_lookup_fmap, Hi).
      simpl. rewrite Hu. lia.
    + intros j x Hj Hux.
      apply list_lookup_insert_Some in Hj as [(_ & <- & _) | (_ & Hj)]; [done |].
      by eapply Hkl.
    + intros j x Hj Hux.
      apply list_lookup_insert_Some in Hj as [(_ & <- & _) | (_ & Hj)]; [done |].
      by eapply Hdi.
  - exists hm, its. split; [done |]. split; [done |]. repeat split; lia.
Qed.


(** ** Lookups in a sound table *)

(** A stored key is found, whatever unused slots lie before it: its slot
    is within [maxcol] of its home slot. *)
Lemma lookup_held hm its kbuf klen :
  table_ok hm its -> held its kbuf klen ->
  exists (i : nat) it,
    hashmap_lookup M (items hm) (capacity hm) (maxcol hm) kbuf klen
    = Ret (Z.of_nat i) /\
    its !! i = Some it /\ hit kbuf klen it = true.
Proof.
  intros Hok (j & x & Hj & Hx).
  destruct (ok_cap _ _ Hok) as (k & Hk & Hcap).
  pose proof (pow2_bounds k Hk) as Hp.
  pose proof (ok_len _ _ Hok) as Hlen. pose proof (ok_maxcol _ _ Hok) as Hmax.
  rewrite (ok_items _ _ Hok), Hcap.
  destruct (lookup_cases k its (maxcol hm) kbuf klen Hk)
    as [(d & it & Hd & Hpd & Hhit & Hrun & Hlook) | [Hrun Hlook]]; [lia | lia | |].
  - exists (Z.to_nat ((hashmap_hash M kbuf klen mod 2 ^ k + d) mod 2 ^ k)), it.
    rewrite Hlook. split; [| by split].
    pose proof (Z.mod_pos_bound (hashmap_hash M kbuf klen mod 2 ^ k + d) (2 ^ k)).
    f_equal. lia.
  - exfalso. rewrite <- Hcap in Hrun.
    destruct (slot_on_probe its (capacity hm) j x) as [Hdj Hpj]; [lia | done | done |].
    rewrite (hit_home _ kbuf klen x Hx) in Hpj.
    apply hit_keq in Hx as Hx2. destruct Hx2 as [Hux _].
    pose proof (ok_disp _ _ Hok j x Hj Hux) as Hle.
    destruct (Hrun (disp (capacity hm) (meta x) j)) as (it' & Hp' & Hn); [lia |].
    assert (it' = x) by congruence. subst it'. congruence.
Qed.

Lemma lookup_not_held hm its kbuf klen :
  table_ok hm its -> ~ held its kbuf klen ->
  hashmap_lookup M (items hm) (capacity hm) (maxcol hm) kbuf klen = Ret (-1).
Proof.
  intros Hok Hn.
  destruct (ok_cap _ _ Hok) as (k & Hk & Hcap).
  pose proof (pow2_bounds k Hk) as Hp.
  pose proof (ok_len _ _ Hok) as Hlen. pose proof (ok_maxcol _ _ Hok) as Hmax.
  rewrite (ok_items _ _ Hok), Hcap.
  destruct (lookup_cases k its (maxcol hm) kbuf klen Hk)
    as [(d & it & Hd & Hpd & Hhit & Hrun & Hlook) | [Hrun Hlook]];
    [lia | lia | | done].
  exfalso. apply Hn. unfold probe in Hpd. by eexists _, it.
Qed.

(** In a table built by puts alone the slot found holds the value. *)
Lemma lookup_holds hm its kbuf klen v :
  table_ok hm its -> chain_ok (capacity hm) its -> holds its kbuf klen v ->
  exists (i : nat) it,
    hashmap_lookup M (items hm) (capacity hm) (maxcol hm) kbuf klen
    = Ret (Z.of_nat i) /\
    its !! i = Some it /\ data it = v.
Proof.
  intros Hok Hch (j & x & Hj & Hx & Hv).
  destruct (lookup_held hm its kbuf klen Hok) as (i & it & Hlook & Hi & Hhit);
    [by exists j, x |].
  exists i, it. split; [done |]. split; [done |].
  destruct (ok_cap _ _ Hok) as (k & Hk & Hcap).
  pose proof (pow2_bounds k Hk) as Hp.
  apply hit_keq in Hhit as Hh2. destruct Hh2 as [Hu Hkey].
  assert (i = j).
  { apply (chain_no_dup its (capacity hm) i j it x); try done; try lia.
    - apply (ok_len _ _ Hok).
    - by rewrite <- (hit_same_key kbuf klen). }
  subst j. congruence.
Qed.

(** [hashmap_contains] returns on every sound table and changes [index]
    only. *)
Lemma contains_ok hm its kbuf klen :
  table_ok hm its -> 0 <= klen < 2 ^ 32 ->
  exists i b, hashmap_contains M hm kbuf klen = Ret (set_index hm i, b) /\
              table_ok (set_index hm i) its.
Proof.
  intros Hok Hklen.
  destruct (ok_cap _ _ Hok) as (k & Hk & Hcap).
  pose proof (pow2_bounds k Hk) as Hp.
  pose proof (ok_len _ _ Hok) as Hlen. pose proof (ok_maxcol _ _ Hok) as Hmax.
  unfold hashmap_contains. rewrite (u32_small klen), (ok_items _ _ Hok), Hcap by done.
  destruct (lookup_cases k its (maxcol hm) kbuf klen Hk)
    as [(d & it & _ & _ & _ & _ & Hlook) | [_ Hlook]]; [lia | lia | |];
    rewrite Hlook; simpl; eexists _, _; (split; [reflexivity |]);
    apply (table_ok_metas hm _ its its Hok); try done; apply (ok_items _ _ Hok).
Qed.

Lemma contains_get_holds hm its kbuf klen v :
  table_ok hm its -> chain_ok (capacity hm) its -> 0 <= klen < 2 ^ 32 ->
  holds its kbuf klen v ->
  exists i, hashmap_contains M hm kbuf klen = Ret (set_index hm i, true) /\
            hashmap_get M hm kbuf klen = Ret (set_index hm i, v).
Proof.
  intros Hok Hch Hklen Hh.
  destruct (lookup_holds hm its kbuf klen v Hok Hch Hh) as (i & it & Hlook & Hi & Hv).
  exists (Z.of_nat i). unfold hashmap_contains, hashmap_get.
  rewrite (u32_small klen), Hlook by done. simpl.
  split.
  - destruct (Z.leb_spec 0 (Z.of_nat i)); [done | lia].
  - unfold hashmap_at, item_at. simpl. rewrite (ok_items _ _ Hok).
    rewrite (aread_nat its i it Hi). simpl. by rewrite Hv.
Qed.

(** ** Sequences of calls *)

Lemma last_put_snoc ops v k l kbuf klen :
  last_put (ops ++ [Put v k l]) kbuf klen
  = if keq k l kbuf klen then Some v else last_put ops kbuf klen.
Proof.
  induction ops as [| o ops IH]; simpl.
  - done.
  - rewrite IH. destruct (keq k l kbuf klen); [done |]. done.
Qed.

Lemma run_snoc ty (hm : hashmap T) ops o :
  run M T0 ty hm (ops ++ [o]) = do h <- run M T0 ty hm ops; exec M T0 ty h o.
Proof. unfold run. by rewrite foldl_app. Qed.

Lemma size_ok_bound n hm : size_ok n hm -> n < 2 ^ 28 -> capacity hm <= 2 ^ 30.
Proof. intros (? & ? & ?) ?. lia. Qed.

Lemma size_ok_put n hm its hm' :
  table_ok hm its -> size_ok n hm -> 0 <= n < 2 ^ 28 ->
  capacity hm' = (if load_factor_ge_0_7 (count hm) (capacity hm)
                  then 2 * capacity hm else capacity hm) ->
  count hm' <= count hm + 1 ->
  size_ok (n + 1) hm'.
Proof.
  intros Hok (H8 & Hcap & Hcnt) Hn Hcap' Hcnt'.
  pose proof (table_count_bounds hm its Hok) as Hcb.
  destruct (load_factor_ge_0_7 (count hm) (capacity hm)) eqn:Hload.
  - apply load_factor_spec in Hload; [| lia | lia].
    unfold size_ok. lia.
  - unfold size_ok. lia.
Qed.

Lemma init_ok :
  exists its, table_ok init its /\ chain_ok 8 its /\ size_ok 0 init /\
              (forall kbuf klen, ~ held its kbuf klen).
Proof.
  destruct (init_cap_ok hashmap_zero 3) as (Hok & Hch & Hempty); [lia |].
  eexists. split; [exact Hok |]. split; [exact Hch |]. split; [| exact Hempty].
  unfold size_ok, init. simpl. unfold HASHMAP_CAP_DEFAULT. lia.
Qed.

(** Every sequence of at most [2^28] puts and removes on a fresh table
    returns, and leaves a sound table. *)
Lemma run_ok ty ops :
  Forall op_ok ops -> Z.of_nat (length ops) <= 2 ^ 28 ->
  exists hm its, run M T0 ty init ops = Ret hm /\ table_ok hm its /\
                 size_ok (Z.of_nat (length ops)) hm.
Proof.
  induction ops as [| o ops IH] using rev_ind; intros Hops Hlen.
  - destruct init_ok as (its & Hok & _ & Hsz & _). by exists init, its.
  - rewrite length_app in *. simpl in *.
    apply Forall_app in Hops as [Hops Ho]. apply Forall_inv in Ho.
    destruct IH as (hm & its & Hrun & Hok & Hsz); [done | lia |].
    rewrite run_snoc, Hrun. simpl.
    destruct o as [v k l | k l | k l]; simpl in *.
    + destruct (put_ok ty hm its v k l Hok)
        as (hm' & its' & Hput & Hok' & Hcap' & _ & Hcnt' & _);
        [apply (size_ok_bound _ _ Hsz); lia | lia |].
      exists hm', its'. split; [done |]. split; [done |].
      replace (Z.of_nat (length ops + 1)) with (Z.of_nat (length ops) + 1) by lia.
      apply (size_ok_put _ hm its); try done. lia.
    + destruct (remove_ok hm its k l Hok Ho)
        as (hm' & its' & Hrem & Hok' & Hcap' & _ & Hcnt').
      exists hm', its'. split; [done |]. split; [done |].
      destruct Hsz as (? & ? & ?). unfold size_ok. rewrite Hcap'. lia.
    + destruct (contains_ok hm its k l Hok Ho) as (i & b & Hc & Hok').
      rewrite Hc. simpl. exists (set_index hm i), its.
      split; [done |]. split; [done |].
      destruct Hsz as (? & ? & ?). unfold size_ok. simpl. lia.
Qed.

(** After puts alone the table holds, for every key, the value of its
    last put. *)
Lemma run_puts_ok ty ops :
  Forall (fun o => op_ok o /\ is_put o) ops -> Forall (op_plain ty) ops ->
  Z.of_nat (length ops) <= 2 ^ 28 ->
  exists hm its,
    run M T0 ty init ops = Ret hm /\ table_ok hm its /\ chain_ok (capacity hm) its /\
    size_ok (Z.of_nat (length ops)) hm /\
    forall kbuf klen v, holds its kbuf klen v <-> last_put ops kbuf klen = Some v.
Proof.
  induction ops as [| o ops IH] using rev_ind; intros Hops Hpl Hlen.
  - destruct init_ok as (its & Hok & Hch & Hsz & Hempty). exists init, its.
    split; [done |]. split; [done |]. split; [done |]. split; [done |].
    intros kbuf klen v. simpl. split; [| done].
    intros (j & x & Hj & Hx & _). exfalso. apply (Hempty kbuf klen). by exists j, x.
  - rewrite length_app in *. simpl in *.
    apply Forall_app in Hops as [Hops Ho]. apply Forall_inv in Ho as [Ho Hput].
    apply Forall_app in Hpl as [Hpl Hpo]. apply Forall_inv in Hpo.
    destruct IH as (hm & its & Hrun & Hok & Hch & Hsz & Hh); [done | done | lia |].
    rewrite run_snoc, Hrun. simpl.
    destruct o as [v k l | k l | k l]; simpl in *; [| done | done].
    destruct (put_ok ty hm its v k l Hok)
      as (hm' & its' & Hp & Hok' & Hcap' & _ & Hcnt' & _ & _ & Hchain);
      [apply (size_ok_bound _ _ Hsz); lia | lia |].
    destruct (Hchain Hch (or_introl Hpo)) as (Hch' & Hh' & _).
    exists hm', its'. split; [done |]. split; [done |]. split; [done |].
    split.
    + replace (Z.of_nat (length ops + 1)) with (Z.of_nat (length ops) + 1) by lia.
      apply (size_ok_put _ hm its); try done. lia.
    + intros kbuf klen v'. rewrite Hh', last_put_snoc.
      destruct (keq k l kbuf klen); [| apply Hh].
      split; [by intros -> | by intros [= ->]].
Qed.


(** ** Puts of distinct keys *)

Lemma keq_right p q k l k' l' :
  keq k l k' l' = true -> keq p q k l = keq p q k' l'.
Proof.
  intros Hk. destruct (keq p q k' l') eqn:E.
  - eapply keq_trans; [exact E |]. by apply keq_sym.
  - destruct (keq p q k l) eqn:E2; [| done].
    rewrite <- E. symmetry. by eapply keq_trans.
Qed.

Lemma last_put_same_key ops k l k' l' :
  keq k l k' l' = true -> last_put ops k l = last_put ops k' l'.
Proof.
  intros Hk. induction ops as [| o ops IH]; simpl; [done |].
  rewrite IH. destruct (last_put ops k' l'); [done |].
  destruct o as [v0 k0 l0 | k0 l0 | k0 l0]; [| done | done].
  by rewrite (keq_right k0 l0 k l k' l').
Qed.

Lemma last_put_snoc_other ops o kbuf klen :
  ~ is_put o -> last_put (ops ++ [o]) kbuf klen = last_put ops kbuf klen.
Proof.
  intros Ho. induction ops as [| o' ops IH]; simpl.
  - destruct o; [by destruct Ho | done | done].
  - by rewrite IH.
Qed.

Lemma distinct_puts_app ops1 ops2 :
  distinct_puts (ops1 ++ ops2) -> distinct_puts ops1.
Proof.
  intros H i v k l Hi. apply lookup_lt_Some in Hi as Hlt.
  specialize (H i v k l). rewrite lookup_app_l, take_app_le in H by lia. auto.
Qed.

Lemma distinct_last ops v k l :
  distinct_puts (ops ++ [Put v k l]) -> last_put ops k l = None.
Proof.
  intros H. specialize (H (length ops) v k l).
  rewrite take_app_length in H. apply H.
  apply lookup_snoc_Some. by right.
Qed.

Lemma last_put_distinct ops :
  distinct_puts ops ->
  forall (i : nat) v k l, ops !! i = Some (Put v k l) -> last_put ops k l = Some v.
Proof.
  induction ops as [| o ops IH] using rev_ind; intros Hd i v k l Hi; [done |].
  apply lookup_snoc_Some in Hi as [[_ Hi] | [_ ->]].
  - pose proof (IH (distinct_puts_app _ _ Hd) i v k l Hi) as Hlast.
    destruct o as [v0 k0 l0 | k0 l0 | k0 l0].
    + rewrite last_put_snoc. destruct (keq k0 l0 k l) eqn:E; [| done].
      apply distinct_last in Hd.
      rewrite (last_put_same_key ops k0 l0 k l E) in Hd. congruence.
    + by rewrite last_put_snoc_other by (by intros []).
    + by rewrite last_put_snoc_other by (by intros []).
  - rewrite last_put_snoc. by rewrite keq_refl.
Qed.

(** Up to six puts of distinct keys on a fresh table: no grow, one more
    used slot per put. *)
Lemma run_distinct ty ops :
  Forall (fun o => op_ok o /\ is_put o) ops -> distinct_puts ops ->
  (length ops <= 6)%nat ->
  exists hm its,
    run M T0 ty init ops = Ret hm /\ table_ok hm its /\ chain_ok (capacity hm) its /\
    capacity hm = 8 /\ count hm = Z.of_nat (length ops) /\
    forall kbuf klen v, holds its kbuf klen v <-> last_put ops kbuf klen = Some v.
Proof.
  induction ops as [| o ops IH] using rev_ind; intros Hops Hd Hlen.
  - destruct init_ok as (its & Hok & Hch & Hsz & Hempty). exists init, its.
    split; [done |]. split; [done |]. split; [done |]. split; [done |].
    split; [done |].
    intros kbuf klen v. simpl. split; [| done].
    intros (j & x & Hj & Hx & _). exfalso. apply (Hempty kbuf klen). by exists j, x.
  - rewrite length_app in *. simpl in *.
    apply Forall_app in Hops as [Hops Ho]. apply Forall_inv in Ho as [Ho Hput].
    destruct IH as (hm & its & Hrun & Hok & Hch & Hcap & Hcnt & Hh);
      [done | by eapply distinct_puts_app | lia |].
    rewrite run_snoc, Hrun. simpl.
    destruct o as [v k l | k l | k l]; simpl in *; [| done | done].
    destruct (put_ok ty hm its v k l Hok)
      as (hm' & its' & Hp & Hok' & Hcap' & _ & _ & _ & _ & Hchain); [lia | lia |].
    assert (Hfresh : ~ held its k l).
    { intros [v0 Hv0]%held_holds. apply Hh in Hv0. apply distinct_last in Hd.
      congruence. }
    destruct (Hchain Hch (or_intror Hfresh)) as (Hch' & Hh' & _ & Hnew).
    assert (Hload : load_factor_ge_0_7 (count hm) (capacity hm) = false).
    { destruct (load_factor_ge_0_7 (count hm) (capacity hm)) eqn:E; [| done].
      apply load_factor_spec in E; lia. }
    rewrite Hload in Hcap'.
    exists hm', its'. split; [done |]. split; [done |]. split; [done |].
    split; [lia |]. split.
    + rewrite Hnew; [lia |]. intros [v0 Hv0]%held_holds.
      apply Hh in Hv0. apply distinct_last in Hd. congruence.
    + intros kbuf klen v'. rewrite Hh', last_put_snoc.
      destruct (keq k l kbuf klen); [| apply Hh].
      split; [by intros -> | by intros [= ->]].
Qed.

(** ** The claims on the hash map *)

(** C7, as amended: on an array of [2^k] slots, [hashmap_lookup] probes
    linearly from the hash-derived slot over at most [maxcol + 1]
    consecutive slots, wrapping modulo the capacity.  It walks over unused
    slots as over slots holding other keys, and returns the index of the
    first probed slot that is used, has the first byte and the length of the
    key and is byte-equal to it; it returns -1 exactly when none of the
    [maxcol + 1] slots is such a slot.  On a NULL array it returns -1. *)
Theorem lookup_algorithm k its maxcol str slen :
  0 <= k <= 31 -> Z.of_nat (length its) = 2 ^ k -> 0 <= maxcol < 2 ^ 32 - 1 ->
  let h := hashmap_hash M str slen mod 2 ^ k in
  hashmap_lookup M (@None (list (item T))) (2 ^ k) maxcol str slen = Ret (-1) /\
  ((exists d it,
      0 <= d <= maxcol /\ probe its (2 ^ k) h d = Some it /\
      used (meta it) = true /\ M (key (meta it)) = M str /\ len (meta it) = slen /\
      memcmp_eq M (Z.to_nat slen) str (key (meta it)) = true /\
      (forall j, 0 <= j < d ->
         exists it', probe its (2 ^ k) h j = Some it' /\ hit str slen it' = false) /\
      hashmap_lookup M (Some its) (2 ^ k) maxcol str slen = Ret ((h + d) mod 2 ^ k))
   \/ ((forall j, 0 <= j <= maxcol ->
          exists it', probe its (2 ^ k) h j = Some it' /\ hit str slen it' = false) /\
       hashmap_lookup M (Some its) (2 ^ k) maxcol str slen = Ret (-1))).
Proof.
  intros Hk Hlen Hmax h. split; [done |].
  destruct (lookup_cases k its maxcol str slen Hk Hlen Hmax)
    as [(d & it & Hd & Hpd & Hhit & Hrun & Hlook) | [Hrun Hlook]].
  - left. exists d, it. apply hit_keq in Hhit as Hh. destruct Hh as [Hu Hkey].
    unfold Hashmap.keq in Hkey.
    apply andb_true_iff in Hkey as [Hkey Hm].
    apply andb_true_iff in Hkey as [Hb Hl].
    apply byte_eqb_eq in Hb. apply Z.eqb_eq in Hl.
    repeat split; try done; lia.
  - right. by split.
Qed.

(** The frame of an overwriting put.  When [hashmap_put] is called with a
    key that [hashmap_match_item] finds in slot [i], every slot from the
    home slot of the key up to slot [i] is used by another key (as in every
    table built by puts alone), and the load-factor test triggers no grow,
    only the [data] field of slot [i] is replaced by the new value:
    [count], [maxcol], [capacity] and [index] are unchanged, the metadata of
    slot [i] (key pointer, key length, used flag) is unchanged, and every
    other slot is unchanged. *)
Lemma overwrite_frame ty hm its k v kbuf klen d (i : nat) it :
  items hm = Some its -> 0 <= k <= 31 -> capacity hm = 2 ^ k ->
  Z.of_nat (length its) = 2 ^ k -> 0 <= count hm ->
  load_factor_ge_0_7 (count hm) (capacity hm) = false ->
  0 <= klen < 2 ^ 32 ->
  let h := hashmap_hash M kbuf klen mod 2 ^ k in
  0 <= d < 2 ^ k -> i = Z.to_nat ((h + d) mod 2 ^ k) ->
  its !! i = Some it -> used (meta it) = true ->
  hashmap_match_item M ty it kbuf klen = true ->
  (forall j, 0 <= j < d ->
     exists it', probe its (2 ^ k) h j = Some it' /\ used (meta it') = true /\
                 hashmap_match_item M ty it' kbuf klen = false) ->
  exists hm' its',
    hashmap_put M T0 ty hm v kbuf klen = Ret hm' /\ items hm' = Some its' /\
    count hm' = count hm /\ maxcol hm' = maxcol hm /\
    capacity hm' = capacity hm /\ index hm' = index hm /\
    length its' = length its /\
    (exists it', its' !! i = Some it' /\ data it' = v /\ meta it' = meta it) /\
    (forall j : nat, j <> i -> its' !! j = its !! j).
Proof.
  intros Hits Hk Hcap Hlen Hcnt Hload Hklen h Hd Hidx Hi Hu Hm Hrun.
  pose proof (pow2_bounds k Hk) as Hp.
  assert (Hroom : count hm < capacity hm).
  { destruct (Z.le_gt_cases (7 * capacity hm) (10 * count hm)) as [Hle |]; [| lia].
    apply load_factor_spec in Hle; [congruence | lia | lia]. }
  assert (Hh : 0 <= h < 2 ^ k) by (apply Z.mod_pos_bound; lia).
  assert (Hmod : 0 <= (h + d) mod 2 ^ k < 2 ^ k) by (apply Z.mod_pos_bound; lia).
  exists {| count := count hm; index := index hm; capacity := capacity hm;
            maxcol := maxcol hm; items := Some (<[i := set_data it v]> its) |},
         (<[i := set_data it v]> its).
  apply lookup_lt_Some in Hi as Hlt.
  split; [| simpl; repeat split; try done].
  - unfold hashmap_put. rewrite Hload. simpl.
    unfold hashmap_put_nogrow, HASHMAP_CAP_MASK.
    destruct (Z.leb_spec (capacity hm) (count hm)); [lia |].
    rewrite Hits, (u32_small klen), Hcap, land_mask by done. fold h.
    rewrite (put_probe_run ty k its kbuf klen (Z.to_nat d) _ h 0 it);
      try done; try lia.
    + replace (Z.of_nat (Z.to_nat d)) with d by lia. simpl.
      assert (Har : aread its ((h + d) mod 2 ^ k) = Ret it).
      { apply aread_Ret. split; [lia |]. by rewrite <- Hidx. }
      rewrite Har. simpl. rewrite Hu. by rewrite <- Hidx.
    + intros j Hj. destruct (Hrun j) as (it' & Hp' & Hu' & Hm'); [lia |].
      exists it'. split; [done |]. unfold Hashmap.stop_at.
      by rewrite Hu'.
    + replace (Z.of_nat (Z.to_nat d)) with d by lia. unfold probe. by rewrite <- Hidx.
    + unfold Hashmap.stop_at. by rewrite Hu.
  - by rewrite length_insert.
  - exists (set_data it v). split; [by apply list_lookup_insert_eq | done].
  - intros j Hne. by apply list_lookup_insert_ne.
Qed.

(** C8: in a table reached from [init] by puts and removes, let the keys A
    and B hash to the same initial slot, A sit in that home slot and B one
    slot further.  Removing A clears the used flag of the home slot and
    decrements [count], and B is still found, in its slot, although the
    probe from the home slot now starts on an unused slot. *)
Theorem removal_gap ty ops hm its kA lA kB lB a b :
  Forall op_ok ops -> Z.of_nat (length ops) <= 2 ^ 28 ->
  run M T0 ty init ops = Ret hm -> items hm = Some its ->
  0 <= lA < 2 ^ 32 -> 0 <= lB < 2 ^ 32 ->
  let cap := capacity hm in
  let h := hashmap_hash M kA lA mod cap in
  hashmap_hash M kB lB mod cap = h ->
  its !! Z.to_nat h = Some a -> hit kA lA a = true ->
  its !! Z.to_nat ((h + 1) mod cap) = Some b -> hit kB lB b = true ->
  exists hm' its',
    hashmap_remove M hm kA lA = Ret hm' /\ items hm' = Some its' /\
    count hm' = count hm - 1 /\
    its' !! Z.to_nat h = Some (clear_used a) /\
    hashmap_contains M hm' kB lB = Ret (set_index hm' ((h + 1) mod cap), true).
Proof.
  intros Hops Hlen Hrun Hits HlA HlB cap h HhB Ha Hhita Hb Hhitb.
  assert (Eh : h = hashmap_hash M kA lA mod cap) by reflexivity.
  assert (Ecap : capacity hm = cap) by reflexivity.
  clearbody h cap.
  destruct (run_ok ty ops Hops Hlen) as (hm0 & its0 & Hrun0 & Hok & Hsz).
  assert (hm0 = hm) by congruence. subst hm0.
  assert (its0 = its) by (pose proof (ok_items _ _ Hok); congruence). subst its0.
  destruct Hsz as (Hcap8 & _ & _).
  destruct (ok_cap _ _ Hok) as (k & Hk & Hcap).
  pose proof (ok_len _ _ Hok) as Hl.
  pose proof (ok_maxcol _ _ Hok) as Hmax.
  rewrite Ecap in Hcap8, Hl, Hmax, Hcap.
  pose proof (pow2_bounds k Hk) as Hp.
  assert (Hh : 0 <= h < cap) by (rewrite Eh; apply Z.mod_pos_bound; lia).
  assert (Hh1 : 0 <= (h + 1) mod cap < cap) by (apply Z.mod_pos_bound; lia).
  assert (Hne : Z.to_nat ((h + 1) mod cap) <> Z.to_nat h).
  { intros Heq. assert (Hz : (h + 1) mod cap = h) by lia.
    destruct (Z.eq_dec (h + 1) cap) as [He | He].
    - rewrite He, Z.mod_same in Hz by lia. lia.
    - rewrite Z.mod_small in Hz by lia. lia. }
  assert (Hmax1 : 1 <= maxcol hm).
  { apply hit_keq in Hhitb as Hb2. destruct Hb2 as [Hub _].
    pose proof (ok_disp _ _ Hok _ b Hb Hub) as Hd. rewrite Ecap in Hd.
    unfold Hashmap.disp in Hd. rewrite (hit_home cap kB lB b Hhitb), HhB in Hd.
    rewrite Z2Nat.id, Zminus_mod_idemp_l in Hd by lia.
    replace (h + 1 - h) with 1 in Hd by lia. rewrite Z.mod_small in Hd by lia. done. }
  destruct (remove_cases hm its kA lA Hok HlA)
    as [(d & i & it & Hd & Hidx & Hi & Hhit & Hrun' & Hrem) | [Hrun' _]];
    rewrite Ecap, <- Eh in *.
  2: { destruct (Hrun' 0) as (it' & Hp' & Hn); [lia |].
       rewrite probe_zero in Hp' by done. congruence. }
  assert (d = 0).
  { destruct (Z.eq_dec d 0) as [| Hd0]; [done |].
    destruct (Hrun' 0) as (it' & Hp' & Hn); [lia |].
    rewrite probe_zero in Hp' by done. congruence. }
  subst d. rewrite Z.add_0_r, Z.mod_small in Hidx by done. subst i.
  assert (it = a) by congruence. subst it.
  apply lookup_lt_Some in Ha as Hlt.
  eexists _, _. split; [exact Hrem |]. simpl.
  split; [done |]. split; [done |].
  split; [by apply list_lookup_insert_eq |].
  set (its' := <[Z.to_nat h := clear_used a]> its).
  assert (Hb' : its' !! Z.to_nat ((h + 1) mod cap) = Some b).
  { unfold its'. rewrite list_lookup_insert_ne; [done | lia]. }
  assert (Ha' : its' !! Z.to_nat h = Some (clear_used a)).
  { by apply list_lookup_insert_eq. }
  assert (Hl' : Z.of_nat (length its') = cap) by (unfold its'; by rewrite length_insert).
  unfold hashmap_contains. rewrite (u32_small lB) by done.
  cbn [items capacity maxcol]. rewrite Hcap in *.
  destruct (lookup_cases k its' (maxcol hm) kB lB Hk)
    as [(d & it & Hd2 & Hpd & Hhit' & Hrun'' & Hlook) | [Hrun'' _]]; [lia | lia | |];
    rewrite HhB in *.
  - assert (d = 1).
    { destruct (Z.lt_trichotomy d 1) as [Hlt1 | [| Hgt1]]; [| done |].
      - assert (d = 0) by lia. subst d.
        rewrite probe_zero in Hpd by done.
        assert (it = clear_used a) by congruence. subst it. done.
      - destruct (Hrun'' 1) as (it' & Hp' & Hn); [lia |].
        unfold probe in Hp'. congruence. }
    subst d. rewrite Hlook. simpl.
    destruct (Z.leb_spec 0 ((h + 1) mod 2 ^ k)); [done | lia].
  - destruct (Hrun'' 1) as (it' & Hp' & Hn); [lia |].
    unfold probe in Hp'. congruence.
Qed.


(** C2, as amended: on a fresh table of capacity 8, each of the first six
    puts of distinct keys leaves the capacity at 8 (the test before the
    sixth put sees 5/8).  The put of the seventh distinct key sees 6/8, so
    it first grows the table to capacity 16, in which the seventh key is not
    yet stored, and then places the key; all seven keys are retrievable
    afterwards, each with its value. *)
Theorem rehash_timing ty ops v k l :
  Forall (fun o => op_ok o /\ is_put o) (ops ++ [Put v k l]) ->
  distinct_puts (ops ++ [Put v k l]) -> length ops = 6%nat ->
  (forall n : nat, (n <= 6)%nat ->
     exists hm, run M T0 ty init (take n ops) = Ret hm /\
                capacity hm = 8 /\ count hm = Z.of_nat n) /\
  exists hm6 hmg hm7,
    run M T0 ty init ops = Ret hm6 /\
    hashmap_grow M T0 hm6 = Ret hmg /\ capacity hmg = 16 /\ count hmg = 6 /\
    hashmap_contains M hmg k l = Ret (set_index hmg (-1), false) /\
    hashmap_put_nogrow M ty hmg v k l = Ret hm7 /\
    run M T0 ty init (ops ++ [Put v k l]) = Ret hm7 /\
    capacity hm7 = 16 /\ count hm7 = 7 /\
    forall (i : nat) v' k' l',
      (ops ++ [Put v k l]) !! i = Some (Put v' k' l') ->
      exists j, hashmap_contains M hm7 k' l' = Ret (set_index hm7 j, true) /\
                hashmap_get M hm7 k' l' = Ret (set_index hm7 j, v').
Proof.
  intros Hall Hd Hlen.
  apply Forall_app in Hall as Hall2. destruct Hall2 as [Hops Ho].
  apply Forall_inv in Ho as [Ho _]. simpl in Ho.
  pose proof (distinct_puts_app _ _ Hd) as Hd6.
  split.
  - intros n Hn.
    destruct (run_distinct ty (take n ops))
      as (hm & its & Hrun & _ & _ & Hcap & Hcnt & _).
    + by apply Forall_take.
    + apply (distinct_puts_app _ (drop n ops)). by rewrite take_drop.
    + rewrite length_take. lia.
    + exists hm. rewrite length_take in Hcnt. repeat split; try done. lia.
  - destruct (run_distinct ty ops Hops Hd6)
      as (hm6 & its6 & Hrun & Hok & Hch & Hcap & Hcnt & Hh); [lia |].
    rewrite Hlen in Hcnt. simpl in Hcnt.
    destruct (grow_ok hm6 its6 Hok)
      as (hmg & itsg & Hgrow & Hokg & Hchg & Hcapg & _ & _ & Hsame); [lia |].
    destruct (Hsame Hch) as [Hcntg Hhg].
    assert (Hfresh : ~ held itsg k l).
    { intros [v0 Hv0]%held_holds. apply Hhg, Hh in Hv0.
      apply distinct_last in Hd. congruence. }
    destruct (put_nogrow_ok ty hmg itsg v k l Hokg)
      as (hm7 & its7 & Hput & Hok7 & Hcap7 & _ & _ & _ & Hchain); [lia | done |].
    destruct (Hchain Hchg (or_intror Hfresh)) as (Hch7 & Hh7 & _ & Hnew).
    exists hm6, hmg, hm7.
    split; [done |]. split; [done |]. split; [lia |]. split; [lia |].
    split.
    { unfold hashmap_contains. rewrite (u32_small l) by done.
      by rewrite (lookup_not_held hmg itsg k l Hokg Hfresh). }
    split; [done |].
    split.
    { rewrite run_snoc, Hrun. simpl. unfold hashmap_put.
      rewrite Hcap, Hcnt. simpl. by rewrite Hgrow. }
    split; [lia |]. split; [rewrite (Hnew Hfresh); lia |].
    intros i v' k' l' Hi.
    pose proof (last_put_distinct _ Hd i v' k' l' Hi) as Hlast.
    rewrite last_put_snoc in Hlast.
    assert (Hl' : 0 <= l' < 2 ^ 32).
    { pose proof (proj1 (Forall_lookup _ _) Hall i _ Hi) as [Hr _]. done. }
    apply (contains_get_holds hm7 its7 k' l' v' Hok7); [by rewrite Hcap7 | done |].
    apply Hh7. destruct (keq k l k' l'); [congruence |]. by apply Hhg, Hh.
Qed.

(** [hashmap_grow] re-inserts every used entry: on a table built by puts
    alone, of keys that are plain for the caller's pointer type, it returns
    a table of twice the capacity with the same [count], in which every key
    that was retrievable is retrievable with the same value. *)
Lemma grow_complete ty ops hm :
  Forall (fun o => op_ok o /\ is_put o) ops -> Forall (op_plain ty) ops ->
  Z.of_nat (length ops) <= 2 ^ 28 ->
  run M T0 ty init ops = Ret hm ->
  exists hm',
    hashmap_grow M T0 hm = Ret hm' /\ capacity hm' = 2 * capacity hm /\
    count hm' = count hm /\
    forall kbuf klen v hm1, 0 <= klen < 2 ^ 32 ->
      hashmap_get M hm kbuf klen = Ret (hm1, v) ->
      exists j, hashmap_contains M hm' kbuf klen = Ret (set_index hm' j, true) /\
                hashmap_get M hm' kbuf klen = Ret (set_index hm' j, v).
Proof.
  intros Hops Hpl Hlen Hrun.
  destruct (run_puts_ok ty ops Hops Hpl Hlen)
    as (hm0 & its & Hrun0 & Hok & Hch & Hsz & _).
  assert (hm0 = hm) by congruence. subst hm0.
  destruct (grow_ok hm its Hok)
    as (hm' & its' & Hgrow & Hok' & Hch' & Hcap' & _ & _ & Hsame).
  { destruct Hsz as (_ & ? & _). lia. }
  destruct (Hsame Hch) as [Hcnt Hh].
  exists hm'. split; [done |]. split; [done |]. split; [done |].
  intros kbuf klen v hm1 Hklen Hget.
  apply (contains_get_holds hm' its' kbuf klen v Hok' Hch' Hklen).
  apply Hh. unfold hashmap_get in Hget. rewrite (u32_small klen) in Hget by done.
  destruct (ok_cap _ _ Hok) as (k & Hk & Hcap).
  pose proof (pow2_bounds k Hk) as Hp.
  pose proof (ok_len _ _ Hok) as Hl. pose proof (ok_maxcol _ _ Hok) as Hmax.
  rewrite (ok_items _ _ Hok), Hcap in Hget.
  destruct (lookup_cases k its (maxcol hm) kbuf klen Hk)
    as [(d & it & Hd & Hpd & Hhit & _ & Hlook) | [_ Hlook]]; [lia | lia | |];
    rewrite Hlook in Hget; simpl in Hget;
    unfold hashmap_at, item_at in Hget; simpl in Hget;
    rewrite (ok_items _ _ Hok) in Hget.
  - pose proof (Z.mod_pos_bound (hashmap_hash M kbuf klen mod 2 ^ k + d) (2 ^ k)) as Hm.
    assert (Har : aread its ((hashmap_hash M kbuf klen mod 2 ^ k + d) mod 2 ^ k) = Ret it)
      by (apply aread_Ret; split; [lia | done]).
    rewrite Har in Hget. simpl in Hget. injection Hget as _ <-.
    unfold probe in Hpd. by eexists _, it.
  - done.
Qed.

(** ** Further properties of the interface *)

Lemma hash_loop_S (n : nat) : forall str h,
  hash_loop M (S n) str h
  = Z.lxor (u64 (hash_loop M n str h * 0x100000001b3)) (load8 M (str + Z.of_nat n)).
Proof.
  induction n as [| n IH]; intros str h.
  - cbn [hash_loop]. by rewrite Z.add_0_r.
  - change (hash_loop M (S (S n)) str h)
      with (hash_loop M (S n) (str + 1)
              (Z.lxor (u64 (h * 0x100000001b3)) (load8 M str))).
    rewrite IH. cbn [hash_loop].
    replace (str + 1 + Z.of_nat n) with (str + Z.of_nat (S n)) by lia. done.
Qed.

Lemma lxor_range a b :
  0 <= a < 2 ^ 64 -> 0 <= b < 2 ^ 64 -> 0 <= Z.lxor a b < 2 ^ 64.
Proof.
  intros Ha Hb.
  assert (Hn : 0 <= Z.lxor a b) by (apply Z.lxor_nonneg; lia).
  split; [done |].
  destruct (Z.eq_dec (Z.lxor a b) 0) as [-> | Hne]; [lia |].
  apply Z.log2_lt_pow2; [lia |].
  pose proof (Z.log2_lxor a b (proj1 Ha) (proj1 Hb)) as Hl.
  assert (Z.log2 a < 64).
  { destruct (Z.eq_dec a 0) as [-> | ?]; [done |]. apply Z.log2_lt_pow2; lia. }
  assert (Z.log2 b < 64).
  { destruct (Z.eq_dec b 0) as [-> | ?]; [done |]. apply Z.log2_lt_pow2; lia. }
  lia.
Qed.

Lemma load8_range p : 0 <= load8 M p < 2 ^ 64.
Proof.
  unfold load8. pose proof (Byte.to_N_bounded (M p)). lia.
Qed.

Lemma hash_loop_range (n : nat) : forall str h,
  0 <= h < 2 ^ 64 -> 0 <= hash_loop M n str h < 2 ^ 64.
Proof.
  induction n as [| n IH]; intros str h Hh; [done |].
  cbn [hash_loop]. apply IH. apply lxor_range; [| apply load8_range].
  unfold u64. apply Z.mod_pos_bound. lia.
Qed.

Lemma memcmp_eq_bytes (n : nat) : forall p q,
  memcmp_eq M n p q = true <->
  forall j, 0 <= j < Z.of_nat n -> M (p + j) = M (q + j).
Proof.
  induction n as [| n IH]; intros p q.
  - split; [intros _ j Hj; lia | done].
  - cbn [memcmp_eq]. rewrite andb_true_iff, byte_eqb_eq, IH. split.
    + intros [H0 Hrest] j Hj.
      destruct (Z.eq_dec j 0) as [-> | Hne]; [by rewrite !Z.add_0_r |].
      specialize (Hrest (j - 1)).
      replace (p + 1 + (j - 1)) with (p + j) in Hrest by lia.
      replace (q + 1 + (j - 1)) with (q + j) in Hrest by lia.
      apply Hrest. lia.
    + intros H. split.
      * specialize (H 0). rewrite !Z.add_0_r in H. apply H. lia.
      * intros j Hj. specialize (H (j + 1)).
        replace (p + (j + 1)) with (p + 1 + j) in H by lia.
        replace (q + (j + 1)) with (q + 1 + j) in H by lia.
        apply H. lia.
Qed.

(** X1: [hashmap_hash] is the 64-bit FNV-1 hash.  The hash of the empty key
    is the offset basis; one more byte multiplies the hash by the FNV prime
    modulo [2^64] and then xors the byte in; the result fits a [size_t]; and
    two keys of the same length with the same bytes have the same hash. *)
Theorem hash_fnv1 str n :
  0 <= n ->
  hashmap_hash M str 0 = 0xcbf29ce484222325 /\
  hashmap_hash M str (n + 1)
  = Z.lxor (u64 (hashmap_hash M str n * 0x100000001b3)) (load8 M (str + n)) /\
  0 <= hashmap_hash M str n < 2 ^ 64 /\
  forall str', (forall j, 0 <= j < n -> M (str + j) = M (str' + j)) ->
               hashmap_hash M str n = hashmap_hash M str' n.
Proof.
  intros Hn. split; [done |]. split; [| split].
  - unfold hashmap_hash.
    replace (Z.to_nat (n + 1)) with (S (Z.to_nat n)) by lia.
    rewrite hash_loop_S. by rewrite Z2Nat.id by lia.
  - apply hash_loop_range. lia.
  - intros str' Hb. unfold hashmap_hash. apply memcmp_hash.
    apply memcmp_eq_bytes. intros j Hj. apply Hb. lia.
Qed.

(** [hashmap_match_item] accepts a slot exactly when the key is plain for
    the caller's pointer type, the stored length is the length of the key,
    the first bytes behind the two pointers are equal, and the key bytes
    are equal.  The first byte is compared also for a key of length 0,
    where it lies outside the key. *)
Lemma match_item_bytes ty it kbuf klen :
  0 <= klen ->
  hashmap_match_item M ty it kbuf klen = true <->
  plain ty kbuf = true /\
  klen = len (meta it) /\ M kbuf = M (key (meta it)) /\
  forall j, 0 <= j < klen -> M (kbuf + j) = M (key (meta it) + j).
Proof.
  intros Hk. destruct (plain ty kbuf) eqn:Hp.
  - rewrite (match_item_plain ty it kbuf klen Hp), match_item_keq.
    unfold Hashmap.keq.
    rewrite !andb_true_iff, byte_eqb_eq, Z.eqb_eq, memcmp_eq_bytes.
    rewrite Z2Nat.id by lia. tauto.
  - rewrite (match_item_signed ty it kbuf klen Hp). split; [done | by intros [? _]].
Qed.

Lemma absent_not_held its kbuf klen :
  absent M its kbuf klen = true <-> ~ held its kbuf klen.
Proof.
  unfold absent. rewrite forallb_forall. split.
  - intros H (i & it & Hi & Hx).
    specialize (H it). rewrite Hx in H. simpl in H.
    assert (false = true); [| done].
    apply H. apply list_elem_of_In, list_elem_of_lookup. by exists i.
  - intros H it Hin. apply list_elem_of_In, list_elem_of_lookup in Hin as [i Hi].
    destruct (hit kbuf klen it) eqn:E; [| done].
    exfalso. apply H. by exists i, it.
Qed.

Lemma absent_false_held its kbuf klen :
  absent M its kbuf klen = false -> held its kbuf klen.
Proof.
  unfold absent. induction its as [| it its IH]; simpl; [done |].
  destruct (hit kbuf klen it) eqn:E; simpl.
  - intros _. by exists 0%nat, it.
  - intros H. destruct (IH H) as (i & x & Hi & Hx). by exists (S i), x.
Qed.

(** Every table reached from [init] is sound, with a capacity of at least
    8 and at most three quarters of its slots used. *)
Lemma run_load ty ops :
  Forall op_ok ops -> Z.of_nat (length ops) <= 2 ^ 28 ->
  exists hm its, run M T0 ty init ops = Ret hm /\ table_ok hm its /\
                 size_ok (Z.of_nat (length ops)) hm /\
                 4 * count hm <= 3 * capacity hm.
Proof.
  induction ops as [| o ops IH] using rev_ind; intros Hops Hlen.
  - destruct init_ok as (its & Hok & _ & Hsz & _). exists init, its.
    split; [done |]. split; [done |]. split; [done |].
    unfold Hashmap.init. simpl. unfold HASHMAP_CAP_DEFAULT. lia.
  - destruct (run_ok ty (ops ++ [o]) Hops Hlen) as (hm' & its' & Hrun' & Hok' & Hsz').
    exists hm', its'. split; [done |]. split; [done |]. split; [done |].
    rewrite length_app in *. simpl in *.
    apply Forall_app in Hops as [Hops Ho]. apply Forall_inv in Ho.
    destruct IH as (hm & its & Hrun & Hok & Hsz & Hld); [done | lia |].
    rewrite run_snoc, Hrun in Hrun'. simpl in Hrun'.
    destruct o as [v k l | k l | k l]; simpl in *.
    + destruct (put_ok ty hm its v k l Hok)
        as (hm2 & its2 & Hput & Hok2 & Hcap2 & _ & _ & Hbound & _);
        [apply (size_ok_bound _ _ Hsz); lia | done |].
      assert (hm2 = hm') by congruence. subst hm2.
      destruct Hsz' as (H8' & _ & _).
      destruct (ok_cap _ _ Hok') as (k0 & Hk0 & Hcapk).
      destruct (Z.le_gt_cases 5 k0) as [H5 | H5].
      * assert (2 ^ 5 <= 2 ^ k0) by (apply Z.pow_le_mono_r; lia). lia.
      * destruct (Z.le_gt_cases k0 2) as [H2 | H2].
        -- assert (2 ^ k0 <= 2 ^ 2) by (apply Z.pow_le_mono_r; lia). lia.
        -- assert (k0 = 3 \/ k0 = 4) as [-> | ->] by lia; lia.
    + destruct (remove_ok hm its k l Hok Ho)
        as (hm2 & its2 & Hrem & _ & Hcap2 & _ & Hcnt2).
      assert (hm2 = hm') by congruence. subst hm2. lia.
    + destruct (contains_ok hm its k l Hok Ho) as (i & b & Hc & _).
      rewrite Hc in Hrun'. simpl in Hrun'. injection Hrun' as <-. simpl. lia.
Qed.

(** X3: as long as [calloc] returns a block whenever a table is set up
    or grown ([hashmap_init_cap] is modelled on that path; it aborts
    otherwise), every sequence of at most [2^28] calls of [hashmap_put],
    [hashmap_remove] and [hashmap_contains] on a table set up by
    [hashmap_init] returns: no call finds the table full and aborts, reads
    outside the array or loops for ever, whatever the type of the key
    pointers.  The table it leaves has a power of two of at least 8
    slots, [count] is the number of its used slots, [maxcol] is below the
    capacity, at most three quarters of the slots are used, and
    [hashmap_avail] is at least a quarter of the capacity.  After [n]
    calls the capacity is at most [8 + 20 n / 7]. *)
Theorem run_safe ty ops :
  Forall op_ok ops -> Z.of_nat (length ops) <= 2 ^ 28 ->
  exists hm its k,
    run M T0 ty init ops = Ret hm /\ items hm = Some its /\
    3 <= k <= 31 /\ capacity hm = 2 ^ k /\
    Z.of_nat (length its) = capacity hm /\
    count hm = used_count (meta <$> its) /\
    0 <= maxcol hm < capacity hm /\
    4 * count hm <= 3 * capacity hm /\
    hashmap_avail hm = capacity hm - count hm /\
    capacity hm <= 4 * hashmap_avail hm /\
    7 * capacity hm <= 56 + 20 * Z.of_nat (length ops).
Proof.
  intros Hops Hlen.
  destruct (run_load ty ops Hops Hlen) as (hm & its & Hrun & Hok & Hsz & Hld).
  destruct (ok_cap _ _ Hok) as (k & Hk & Hcap).
  pose proof (pow2_bounds k Hk) as Hp.
  pose proof (table_count_bounds hm its Hok) as Hcb.
  exists hm, its, k. split; [done |]. split; [apply (ok_items _ _ Hok) |].
  split.
  { split; [| lia]. destruct Hsz as (H8 & _).
    destruct (Z.le_gt_cases 3 k) as [| Hlt]; [done |].
    assert (2 ^ k <= 2 ^ 2) by (apply Z.pow_le_mono_r; lia). lia. }
  split; [done |]. split; [apply (ok_len _ _ Hok) |].
  split; [apply (ok_count _ _ Hok) |]. split; [apply (ok_maxcol _ _ Hok) |].
  split; [done |].
  assert (Hav : hashmap_avail hm = capacity hm - count hm).
  { unfold hashmap_avail. apply u64_small. lia. }
  rewrite Hav. split; [done |]. split; [lia |].
  by destruct Hsz as (_ & ? & _).
Qed.

(** X4: a key that no used slot holds, looked up in a table reached from
    [init]: [hashmap_index] yields -1, [hashmap_contains] yields false, both
    leaving -1 in [index]; [hashmap_remove] changes nothing; and
    [hashmap_get] reads [items[-1]], outside the array. *)
Theorem missing_key ty ops hm its kbuf klen :
  Forall op_ok ops -> Z.of_nat (length ops) <= 2 ^ 28 ->
  run M T0 ty init ops = Ret hm -> items hm = Some its -> 0 <= klen < 2 ^ 32 ->
  absent M its kbuf klen = true ->
  hashmap_index M hm kbuf klen = Ret (set_index hm (-1), -1) /\
  hashmap_contains M hm kbuf klen = Ret (set_index hm (-1), false) /\
  hashmap_remove M hm kbuf klen = Ret hm /\
  hashmap_get M hm kbuf klen = Undef.
Proof.
  intros Hops Hlen Hrun Hits Hklen Habs.
  destruct (run_ok ty ops Hops Hlen) as (hm0 & its0 & Hrun0 & Hok & _).
  assert (hm0 = hm) by congruence. subst hm0.
  assert (its0 = its) by (pose proof (ok_items _ _ Hok); congruence). subst its0.
  apply absent_not_held in Habs.
  pose proof (lookup_not_held hm its kbuf klen Hok Habs) as Hlook.
  unfold hashmap_index, hashmap_contains, hashmap_remove, hashmap_index_var,
    hashmap_get.
  rewrite (u32_small klen), Hlook by done. simpl.
  split; [done |]. split; [done |]. split; [done |].
  unfold hashmap_at, item_at. simpl. by rewrite Hits.
Qed.

(** X5: a table after [hashmap_deinit], and a variable that was only
    zero-initialised: [hashmap_contains] is false for every key and
    [hashmap_remove] changes nothing ([hashmap_lookup] returns -1 on the
    NULL array), [hashmap_get] reads through NULL, and [hashmap_put]
    aborts: the load-factor test 0/0 does not call for a grow, and
    [hashmap_put_nogrow] finds [count >= capacity]. *)
Theorem deinit_use ty hm v kbuf klen :
  let hm' := hashmap_deinit hm in
  items hm' = None /\ count hm' = 0 /\ capacity hm' = 0 /\
  hashmap_contains M hm' kbuf klen = Ret (set_index hm' (-1), false) /\
  hashmap_remove M hm' kbuf klen = Ret hm' /\
  hashmap_get M hm' kbuf klen = Undef /\
  hashmap_put M T0 ty hm' v kbuf klen = Abort /\
  hashmap_put M T0 ty hashmap_zero v kbuf klen = Abort.
Proof. repeat split. Qed.

(** X6: [hashmap_init_cap] with a power of two up to [2^31] gives an empty
    table whatever the variable held before: [count] and [maxcol] are 0,
    every slot is available, no key is contained and [hashmap_remove]
    changes nothing.  [hashmap_init] is the case of capacity 8. *)
Theorem init_cap_empty hm0 k kbuf klen :
  0 <= k <= 31 ->
  let hm := hashmap_init_cap T0 hm0 (2 ^ k) in
  hashmap_init T0 hm0 = hashmap_init_cap T0 hm0 (2 ^ 3) /\
  count hm = 0 /\ capacity hm = 2 ^ k /\ maxcol hm = 0 /\
  hashmap_avail hm = 2 ^ k /\
  hashmap_contains M hm kbuf klen = Ret (set_index hm (-1), false) /\
  hashmap_remove M hm kbuf klen = Ret hm.
Proof.
  intros Hk hm. pose proof (pow2_bounds k Hk) as Hp.
  destruct (init_cap_ok hm0 k Hk) as (Hok & _ & Hempty).
  pose proof (lookup_not_held _ _ kbuf (u32 klen) Hok (Hempty kbuf (u32 klen)))
    as Hlook.
  split; [done |]. split; [done |]. split; [done |]. split; [done |].
  split.
  { unfold hashmap_avail, hm. simpl. rewrite Z.sub_0_r. apply u64_small. lia. }
  unfold hashmap_contains, hashmap_remove, hashmap_index_var. fold hm in Hlook.
  rewrite Hlook. simpl. by split.
Qed.




Lemma probe_insert_ne its cap h j d x :
  0 < cap -> 0 <= j < cap -> 0 <= d < cap -> j <> d ->
  probe (<[Z.to_nat ((h + d) mod cap) := x]> its) cap h j = probe its cap h j.
Proof.
  intros Hc Hj Hd Hne. unfold probe. apply list_lookup_insert_ne.
  intros Heq.
  pose proof (Z.mod_pos_bound (h + d) cap Hc).
  pose proof (Z.mod_pos_bound (h + j) cap Hc).
  assert (E : (h + d) mod cap = (h + j) mod cap) by lia.
  pose proof (disp_of_probe cap h d Hc Hd) as E1.
  pose proof (disp_of_probe cap h j Hc Hj) as E2.
  rewrite E in E1. lia.
Qed.

(** The slot that [hashmap_put_nogrow] writes is the slot that
    [hashmap_lookup] finds afterwards, on every sound table: both walk the
    same slots, and the first slot on which the insertion stops is the
    first slot that holds the key once it is written. *)
Lemma put_nogrow_found ty hm its v kbuf klen :
  table_ok hm its -> count hm < capacity hm -> 0 <= klen < 2 ^ 32 ->
  plain ty kbuf = true ->
  exists hm' its' (i : nat) it',
    hashmap_put_nogrow M ty hm v kbuf klen = Ret hm' /\ table_ok hm' its' /\
    hashmap_lookup M (items hm') (capacity hm') (maxcol hm') kbuf klen
    = Ret (Z.of_nat i) /\
    its' !! i = Some it' /\ data it' = v /\ hit kbuf klen it' = true.
Proof.
  intros Hok Hroom Hklen Hpl.
  destruct (put_nogrow_cases ty hm its v kbuf klen Hok Hroom Hklen)
    as (d & i & it & Hd & Hidx & Hi & Hrun & Hstop & Hput).
  rewrite (stop_at_plain ty it kbuf klen Hpl) in Hstop.
  assert (Hrun0 : forall j, 0 <= j < d ->
            exists it', probe its (capacity hm) (hashmap_hash M kbuf klen mod capacity hm) j
                        = Some it' /\ stop_put kbuf klen it' = false).
  { intros j Hj. destruct (Hrun j Hj) as (it' & Hp' & Hs'). exists it'.
    by rewrite <- (stop_at_plain ty it' kbuf klen Hpl). }
  clear Hrun. rename Hrun0 into Hrun.
  destruct (ok_cap _ _ Hok) as (k & Hk & Hcap).
  pose proof (pow2_bounds k Hk) as Hp.
  pose proof (ok_len _ _ Hok) as Hlen.
  set (x := if used (meta it) then set_data it v else new_slot v kbuf klen).
  assert (Hx : exists hm',
    hashmap_put_nogrow M ty hm v kbuf klen = Ret hm' /\
    table_ok hm' (<[i := x]> its) /\ capacity hm' = capacity hm /\
    hit kbuf klen x = true /\ data x = v).
  { unfold x. destruct (used (meta it)) eqn:Hu.
    - assert (Hhit : hit kbuf klen it = true).
      { unfold Hashmap.stop_put in Hstop. rewrite Hu in Hstop. simpl in Hstop.
        apply hit_keq. by split. }
      destruct (overwrite_ok hm its i it v kbuf klen Hok Hi Hhit) as (Hok' & _ & _).
      eexists. split; [exact Hput |]. split; [exact Hok' |].
      split; [done |]. split; [| done].
      by rewrite (hit_meta kbuf klen (set_data it v) it).
    - destruct (fill_ok hm its i it v kbuf klen d Hok Hroom Hklen Hd Hidx Hi Hu)
        as (Hok' & _ & _).
      eexists. split; [exact Hput |]. split; [exact Hok' |].
      split; [done |]. split; [| done].
      unfold Hashmap.hit. simpl. apply keq_refl. }
  destruct Hx as (hm' & Hput' & Hok' & Hcap' & Hhit & Hdata).
  apply lookup_lt_Some in Hi as Hlt.
  assert (Hi' : <[i := x]> its !! i = Some x) by (by apply list_lookup_insert_eq).
  exists hm', (<[i := x]> its), i, x.
  split; [done |]. split; [done |]. split; [| by split].
  assert (Hc : 0 < capacity hm) by lia.
  pose proof (lookup_held hm' _ kbuf klen Hok') as Hfound.
  pose proof (ok_maxcol _ _ Hok') as Hmax.
  rewrite (ok_items _ _ Hok'), Hcap', Hcap in *.
  destruct (lookup_cases k (<[i := x]> its) (maxcol hm') kbuf klen Hk)
    as [(d' & it' & Hd' & Hpd' & Hhit' & Hrun' & Hlook) | [_ Hlook]];
    [rewrite length_insert; lia | lia | |].
  - rewrite Hlook. f_equal.
    set (h := hashmap_hash M kbuf klen mod 2 ^ k) in *.
    pose proof (Z.mod_pos_bound (h + d) (2 ^ k)).
    destruct (Z.lt_trichotomy d' d) as [Hl | [-> | Hg]].
    + exfalso. destruct (Hrun d') as (y & Hy & Hsy); [lia |].
      rewrite Hidx, probe_insert_ne in Hpd' by lia.
      assert (y = it') by congruence. subst y.
      apply stop_put_false in Hsy as [_ Hsy].
      apply hit_keq in Hhit' as [_ Hhit']. congruence.
    + lia.
    + exfalso. destruct (Hrun' d) as (y & Hy & Hsy); [lia |].
      unfold Hashmap.probe in Hy. rewrite <- Hidx, Hi' in Hy.
      assert (y = x) by congruence. subst y. congruence.
  - exfalso. destruct Hfound as (j & y & Hl & _); [by exists i, x |].
    rewrite Hlook in Hl. injection Hl as Hl. lia.
Qed.

Lemma put_found ty hm its v kbuf klen :
  table_ok hm its -> capacity hm <= 2 ^ 30 -> 0 <= klen < 2 ^ 32 ->
  plain ty kbuf = true ->
  exists hm' its' (i : nat) it',
    hashmap_put M T0 ty hm v kbuf klen = Ret hm' /\ table_ok hm' its' /\
    hashmap_lookup M (items hm') (capacity hm') (maxcol hm') kbuf klen
    = Ret (Z.of_nat i) /\
    its' !! i = Some it' /\ data it' = v /\ hit kbuf klen it' = true.
Proof.
  intros Hok Hbound Hklen Hpl.
  pose proof (table_count_bounds hm its Hok) as Hcb.
  destruct (ok_cap _ _ Hok) as (k & Hk & Hcap).
  pose proof (pow2_bounds k Hk) as Hp.
  unfold hashmap_put.
  destruct (load_factor_ge_0_7 (count hm) (capacity hm)) eqn:Hload.
  - destruct (grow_ok hm its Hok Hbound)
      as (hm1 & its1 & Hgrow & Hok1 & _ & Hcap1 & _ & Hcnt1 & _).
    rewrite Hgrow. simpl.
    apply (put_nogrow_found ty hm1 its1 v kbuf klen Hok1); [lia | done | done].
  - assert (Hlt : 10 * count hm < 7 * capacity hm).
    { destruct (Z.le_gt_cases (7 * capacity hm) (10 * count hm)) as [Hle |]; [| lia].
      apply load_factor_spec in Hle; [congruence | lia | lia]. }
    simpl. apply (put_nogrow_found ty hm its v kbuf klen Hok); [lia | done | done].
Qed.

Lemma contains_get_at hm its (i : nat) it kbuf klen :
  items hm = Some its -> 0 <= klen < 2 ^ 32 ->
  hashmap_lookup M (items hm) (capacity hm) (maxcol hm) kbuf klen = Ret (Z.of_nat i) ->
  its !! i = Some it ->
  hashmap_index M hm kbuf klen = Ret (set_index hm (Z.of_nat i), Z.of_nat i) /\
  hashmap_contains M hm kbuf klen = Ret (set_index hm (Z.of_nat i), true) /\
  hashmap_at (set_index hm (Z.of_nat i)) (Z.of_nat i) = Ret (data it) /\
  hashmap_get M hm kbuf klen = Ret (set_index hm (Z.of_nat i), data it).
Proof.
  intros Hits Hklen Hlook Hi.
  unfold hashmap_index, hashmap_contains, hashmap_get.
  rewrite (u32_small klen), Hlook by done. simpl.
  assert (Hat : hashmap_at (set_index hm (Z.of_nat i)) (Z.of_nat i) = Ret (data it)).
  { unfold hashmap_at, item_at. simpl. rewrite Hits.
    by rewrite (aread_nat its i it Hi). }
  rewrite Hat. simpl.
  split; [done |]. split; [| done].
  destruct (Z.leb_spec 0 (Z.of_nat i)); [done | lia].
Qed.

(** X8: read your own write, on every table reached from [init] by puts,
    removes and lookups, for a key handed over through a pointer to
    unsigned characters or starting with a byte below 0x80: [hashmap_put]
    returns, and right after it [hashmap_contains] on the key is true and
    [hashmap_get] returns the value just put, whatever gaps earlier
    removals have left and whatever keys the earlier calls were given. *)
Theorem put_then_get ty ops hm v kbuf klen :
  Forall op_ok ops -> Z.of_nat (length ops) < 2 ^ 28 ->
  run M T0 ty init ops = Ret hm -> 0 <= klen < 2 ^ 32 ->
  plain ty kbuf = true ->
  exists hm' i,
    hashmap_put M T0 ty hm v kbuf klen = Ret hm' /\
    hashmap_contains M hm' kbuf klen = Ret (set_index hm' i, true) /\
    hashmap_get M hm' kbuf klen = Ret (set_index hm' i, v).
Proof.
  intros Hops Hlen Hrun Hklen Hpl.
  destruct (run_ok ty ops Hops) as (hm0 & its & Hrun0 & Hok & Hsz); [lia |].
  assert (hm0 = hm) by congruence. subst hm0.
  destruct (put_found ty hm its v kbuf klen Hok)
    as (hm' & its' & i & it' & Hput & Hok' & Hlook & Hi & Hv & _);
    [apply (size_ok_bound _ _ Hsz); lia | done | done |].
  destruct (contains_get_at hm' its' i it' kbuf klen (ok_items _ _ Hok') Hklen Hlook Hi)
    as (_ & Hc & _ & Hg).
  exists hm', (Z.of_nat i). rewrite Hv in Hg. by split.
Qed.

(** X9: a key that some used slot holds, looked up in a table reached from
    [init] by puts, removes and lookups, is found, whatever unused slots
    lie between its home slot and its slot: [hashmap_index] and
    [hashmap_contains] leave in [index] a slot that is used and matches the
    key, [hashmap_at] on that index reads its value, and [hashmap_get]
    returns the same value. *)
Theorem stored_key_found ty ops hm its kbuf klen :
  Forall op_ok ops -> Z.of_nat (length ops) <= 2 ^ 28 ->
  run M T0 ty init ops = Ret hm -> items hm = Some its -> 0 <= klen < 2 ^ 32 ->
  absent M its kbuf klen = false ->
  exists (i : nat) it,
    its !! i = Some it /\ used (meta it) = true /\
    hashmap_match_item M UChar it kbuf klen = true /\
    hashmap_index M hm kbuf klen = Ret (set_index hm (Z.of_nat i), Z.of_nat i) /\
    hashmap_contains M hm kbuf klen = Ret (set_index hm (Z.of_nat i), true) /\
    hashmap_at (set_index hm (Z.of_nat i)) (index (set_index hm (Z.of_nat i)))
    = Ret (data it) /\
    hashmap_get M hm kbuf klen = Ret (set_index hm (Z.of_nat i), data it).
Proof.
  intros Hops Hlen Hrun Hits Hklen Habs.
  destruct (run_ok ty ops Hops Hlen) as (hm0 & its0 & Hrun0 & Hok & _).
  assert (hm0 = hm) by congruence. subst hm0.
  assert (its0 = its) by (pose proof (ok_items _ _ Hok); congruence). subst its0.
  pose proof (absent_false_held its kbuf klen Habs) as Hheld.
  destruct (lookup_held hm its kbuf klen Hok Hheld) as (i & it & Hlook & Hi & Hhit).
  apply hit_keq in Hhit as [Hu Hkey].
  exists i, it. split; [done |]. split; [done |].
  split; [by rewrite match_item_keq |].
  cbn [index set_index]. by apply (contains_get_at hm its i it).
Qed.






Lemma held_snoc its it kbuf klen :
  held (its ++ [it]) kbuf klen <-> held its kbuf klen \/ hit kbuf klen it = true.
Proof.
  split.
  - intros (j & x & Hj & Hx).
    apply lookup_snoc_Some in Hj as [[_ Hj] | [_ <-]].
    + left. by exists j, x.
    + by right.
  - intros [(j & x & Hj & Hx) | Hx].
    + exists j, x. split; [| done]. by apply lookup_app_l_Some.
    + exists (length its), it. split; [| done].
      apply lookup_snoc_Some. by right.
Qed.

Lemma held_take its (n : nat) kbuf klen :
  held (take n its) kbuf klen -> held its kbuf klen.
Proof.
  intros (j & x & Hj & Hx). apply lookup_take_Some in Hj as [Hj _]. by exists j, x.
Qed.

(** One step of a rebuild loop on a sound table that may have gaps and
    stale copies of a key. *)
Lemma rebuild_keys_step newcap hm its (i : nat) t it :
  table_ok hm its -> Z.of_nat i < newcap ->
  rebuild_keys M newcap its i t -> its !! i = Some it ->
  if used (meta it)
  then exists t', hashmap_put_nogrow M UChar t (data it) (key (meta it))
                    (len (meta it))
                  = Ret t' /\ rebuild_keys M newcap its (S i) t'
  else rebuild_keys M newcap its (S i) t.
Proof.
  intros Hok Hi (tits & Htok & Htch & Htcap & Htcnt & Hkeys) Hit.
  pose proof (used_count_bounds (meta <$> take i its)) as Hb.
  rewrite length_fmap, length_take in Hb.
  destruct (used (meta it)) eqn:Hu.
  - destruct (put_nogrow_ok UChar t tits (data it) (key (meta it)) (len (meta it)))
      as (t' & tits' & Hput & Hok' & Hcap' & _ & Hcnt' & _ & Hchain);
      [done | lia | by eapply (ok_klen _ _ Hok) |].
    rewrite Htcap in Hchain.
    destruct (Hchain Htch (or_introl eq_refl)) as (Hc1 & Hh1 & _ & _).
    exists t'. split; [done |]. exists tits'.
    rewrite (take_S_r _ _ _ Hit), fmap_app, used_count_app. simpl. rewrite Hu.
    split; [done |]. split; [done |]. split; [lia |]. split; [lia |].
    intros k' l'. rewrite held_snoc, <- Hkeys, !held_holds.
    destruct (keq (key (meta it)) (len (meta it)) k' l') eqn:E.
    + split.
      * intros _. right. apply hit_keq. split; [done |]. by apply keq_sym.
      * intros _. exists (data it). apply Hh1. by rewrite E.
    + split.
      * intros [v' Hv']. left. exists v'. apply Hh1 in Hv'. by rewrite E in Hv'.
      * intros [[v' Hv'] | Hx].
        -- exists v'. apply Hh1. by rewrite E.
        -- apply hit_keq in Hx as [_ Hx]. apply keq_sym in Hx. congruence.
  - exists tits.
    rewrite (take_S_r _ _ _ Hit), fmap_app, used_count_app. simpl. rewrite Hu.
    split; [done |]. split; [done |]. split; [done |]. split; [lia |].
    intros k' l'. rewrite held_snoc, <- Hkeys.
    split; [by left |]. intros [Hold | Hx]; [done |].
    apply hit_keq in Hx as [Hx _]. congruence.
Qed.

Lemma rebuild_keys_init k its :
  0 <= k <= 31 ->
  rebuild_keys M (2 ^ k) its 0 (hashmap_init_cap T0 hashmap_zero (2 ^ k)).
Proof.
  intros Hk. destruct (init_cap_ok hashmap_zero k Hk) as (Hok0 & Hch0 & Hempty0).
  eexists. split; [exact Hok0 |]. split; [done |]. split; [done |].
  simpl. split; [lia |]. intros kbuf klen. split.
  - intros Hx. exfalso. by apply (Hempty0 kbuf klen).
  - intros (j & x & Hj & _). done.
Qed.

(** [hashmap_grow] on every sound table: the new table has twice the
    capacity, no gaps and no key twice, and the keys of the old one. *)
Lemma grow_keys hm its :
  table_ok hm its -> capacity hm <= 2 ^ 30 ->
  exists hm' its',
    hashmap_grow M T0 hm = Ret hm' /\ table_ok hm' its' /\
    chain_ok (capacity hm') its' /\ capacity hm' = 2 * capacity hm /\
    index hm' = index hm /\ count hm' <= count hm /\
    forall kbuf klen, held its' kbuf klen <-> held its kbuf klen.
Proof.
  intros Hok Hbound.
  pose proof (ok_len _ _ Hok) as Hlen. pose proof (ok_items _ _ Hok) as Hits.
  destruct (ok_cap _ _ Hok) as (k & Hk & Hcap).
  pose proof (pow2_bounds k Hk) as Hp.
  assert (Hk' : 0 <= k + 1 <= 31).
  { split; [lia |]. destruct (Z.le_gt_cases (k + 1) 31) as [| Hgt]; [done |].
    assert (2 ^ 31 <= 2 ^ k) by (apply Z.pow_le_mono_r; lia). lia. }
  assert (Hdbl : u64 (Z.shiftl (capacity hm) 1) = 2 ^ (k + 1)).
  { rewrite Z.shiftl_mul_pow2 by lia. rewrite Z.pow_add_r by lia.
    rewrite u64_small; lia. }
  assert (H2 : 2 ^ (k + 1) = 2 * capacity hm).
  { rewrite Z.pow_add_r by lia. lia. }
  unfold hashmap_grow. rewrite Hdbl, Hits.
  destruct (reinsert_inv (rebuild_keys M (2 ^ (k + 1)) its) its (length its)
              (hashmap_init_cap T0 hashmap_zero (2 ^ (k + 1))))
    as (t & Ht & (tits & Htok & Htch & Htcap & Htcnt & Hkeys)); [lia | |  |].
  - by apply rebuild_keys_init.
  - intros i t it Hi HP Hit. apply (rebuild_keys_step _ hm its i t it); try done. lia.
  - rewrite Hlen in Ht. rewrite Ht. simpl.
    rewrite take_ge in Htcnt, Hkeys by lia.
    exists (take_over hm t), tits.
    split; [done |].
    split; [apply (table_ok_metas t _ tits tits); try done;
            simpl; apply (ok_items _ _ Htok) |].
    unfold take_over. simpl. rewrite Htcap.
    split; [done |]. split; [lia |]. split; [done |].
    rewrite (ok_count _ _ Hok). split; [done |]. done.
Qed.

(** [hashmap_shrink] on every sound table with [count <= capacity / 4]:
    the new table has half the capacity and the keys of the first [count]
    slots of the old array. *)
Lemma shrink_keys hm its :
  table_ok hm its -> 2 <= capacity hm -> count hm <= capacity hm / 4 ->
  exists hm' its',
    hashmap_shrink M T0 hm = Ret hm' /\ table_ok hm' its' /\
    capacity hm' = capacity hm / 2 /\ index hm' = index hm /\
    count hm' <= count hm /\
    forall kbuf klen,
      held its' kbuf klen <-> held (take (Z.to_nat (count hm)) its) kbuf klen.
Proof.
  intros Hok H2 Hquarter.
  pose proof (ok_len _ _ Hok) as Hlen. pose proof (ok_items _ _ Hok) as Hits.
  destruct (ok_cap _ _ Hok) as (k & Hk & Hcap).
  pose proof (pow2_bounds k Hk) as Hp.
  assert (Hk1 : 1 <= k).
  { destruct (Z.le_gt_cases 1 k) as [| Hlt]; [done |].
    assert (k = 0) by lia. subst k. change (2 ^ 0) with 1 in Hcap. lia. }
  assert (Hhalf : capacity hm = 2 * 2 ^ (k - 1)).
  { rewrite Hcap. replace k with (k - 1 + 1) at 1 by lia.
    rewrite Z.pow_add_r by lia. lia. }
  assert (Hk' : 0 <= k - 1 <= 31) by lia.
  pose proof (pow2_bounds (k - 1) Hk') as Hp'.
  assert (Hshift : Z.shiftr (capacity hm) 1 = 2 ^ (k - 1)).
  { rewrite Z.shiftr_div_pow2 by lia. change (2 ^ 1) with 2.
    rewrite Hhalf, Z.mul_comm. apply Z.div_mul. lia. }
  pose proof (table_count_bounds hm its Hok) as Hb.
  assert (Hq : capacity hm / 4 <= 2 ^ (k - 1))
    by (apply Z.div_le_upper_bound; lia).
  unfold hashmap_shrink.
  destruct (Z.ltb_spec (capacity hm / 4) (count hm)); [lia |].
  rewrite Hshift, Hits.
  destruct (reinsert_inv (rebuild_keys M (2 ^ (k - 1)) its) its
              (Z.to_nat (count hm))
              (hashmap_init_cap T0 hashmap_zero (2 ^ (k - 1))))
    as (t & Ht & (tits & Htok & Htch & Htcap & Htcnt & Hkeys)); [lia | |  |].
  - by apply rebuild_keys_init.
  - intros i t it Hi HP Hit. apply (rebuild_keys_step _ hm its i t it); try done. lia.
  - rewrite Z2Nat.id in Ht by lia. rewrite Ht. simpl.
    exists (take_over hm t), tits.
    split; [done |].
    split; [apply (table_ok_metas t _ tits tits); try done;
            simpl; apply (ok_items _ _ Htok) |].
    assert (Hdiv : capacity hm / 2 = 2 ^ (k - 1))
      by (rewrite Hhalf, Z.mul_comm; apply Z.div_mul; lia).
    unfold take_over. cbn [capacity count index]. rewrite Htcap, Hdiv.
    split; [done |]. split; [done |]. split; [| done].
    pose proof (used_count_bounds (meta <$> take (Z.to_nat (count hm)) its)) as Hub.
    rewrite length_fmap, length_take in Hub. lia.
Qed.

Lemma contains_bool hm its kbuf klen :
  table_ok hm its -> 0 <= klen < 2 ^ 32 ->
  exists i, hashmap_contains M hm kbuf klen
            = Ret (set_index hm i, negb (absent M its kbuf klen)).
Proof.
  intros Hok Hklen. unfold hashmap_contains. rewrite (u32_small klen) by done.
  destruct (absent M its kbuf klen) eqn:E.
  - apply absent_not_held in E.
    rewrite (lookup_not_held hm its kbuf klen Hok E). by exists (-1).
  - apply absent_false_held in E.
    destruct (lookup_held hm its kbuf klen Hok E) as (i & it & -> & _).
    exists (Z.of_nat i). simpl. destruct (Z.leb_spec 0 (Z.of_nat i)); [done | lia].
Qed.

Lemma absent_ext its its' kbuf klen :
  (held its' kbuf klen <-> held its kbuf klen) ->
  absent M its' kbuf klen = absent M its kbuf klen.
Proof.
  intros H. destruct (absent M its kbuf klen) eqn:E.
  - apply absent_not_held. apply absent_not_held in E. tauto.
  - apply absent_false_held in E. apply H in E.
    destruct (absent M its' kbuf klen) eqn:E'; [| done].
    apply absent_not_held in E'. done.
Qed.

(** X12: [hashmap_grow] keeps the keys of every table reached from [init]
    by puts, removes and lookups: it returns a table of twice the capacity,
    [count] does not go up (it goes down when a removal had left a stale
    copy of a key behind), [index] is kept, and [hashmap_contains] gives
    for every key the answer it gave before. *)
Theorem grow_keeps_keys ty ops hm kbuf klen :
  Forall op_ok ops -> Z.of_nat (length ops) <= 2 ^ 28 ->
  run M T0 ty init ops = Ret hm -> 0 <= klen < 2 ^ 32 ->
  exists hm' i i' b,
    hashmap_grow M T0 hm = Ret hm' /\
    capacity hm' = 2 * capacity hm /\ count hm' <= count hm /\
    index hm' = index hm /\
    hashmap_contains M hm kbuf klen = Ret (set_index hm i, b) /\
    hashmap_contains M hm' kbuf klen = Ret (set_index hm' i', b).
Proof.
  intros Hops Hlen Hrun Hklen.
  destruct (run_ok ty ops Hops Hlen) as (hm0 & its & Hrun0 & Hok & Hsz).
  assert (hm0 = hm) by congruence. subst hm0.
  destruct (grow_keys hm its Hok)
    as (hm' & its' & Hgrow & Hok' & _ & Hcap' & Hidx' & Hcnt' & Hkeys).
  { destruct Hsz as (_ & ? & _). lia. }
  destruct (contains_bool hm its kbuf klen Hok Hklen) as (i & Hc).
  destruct (contains_bool hm' its' kbuf klen Hok' Hklen) as (i' & Hc').
  rewrite (absent_ext its its' kbuf klen (Hkeys kbuf klen)) in Hc'.
  exists hm', i, i', (negb (absent M its kbuf klen)). by repeat split.
Qed.


(** X14: [hashmap_shrink] on a table reached from [init] by puts, removes
    and lookups.  With [count > capacity / 4] it leaves the table as it is.
    Otherwise it returns a table of half the capacity whose keys are the
    keys stored in the slots of index below [count] of the old array:
    [hashmap_contains] is true for exactly these, and a key stored in a
    slot of higher index only is no longer contained. *)
Theorem shrink_result ty ops hm its kbuf klen :
  Forall op_ok ops -> Z.of_nat (length ops) <= 2 ^ 28 ->
  run M T0 ty init ops = Ret hm -> items hm = Some its -> 0 <= klen < 2 ^ 32 ->
  (capacity hm / 4 < count hm -> hashmap_shrink M T0 hm = Ret hm) /\
  (count hm <= capacity hm / 4 ->
   exists hm' i,
     hashmap_shrink M T0 hm = Ret hm' /\
     capacity hm' = capacity hm / 2 /\ count hm' <= count hm /\
     index hm' = index hm /\
     hashmap_contains M hm' kbuf klen
     = Ret (set_index hm' i,
            negb (absent M (take (Z.to_nat (count hm)) its) kbuf klen))).
Proof.
  intros Hops Hlen Hrun Hits Hklen.
  destruct (run_ok ty ops Hops Hlen) as (hm0 & its0 & Hrun0 & Hok & Hsz).
  assert (hm0 = hm) by congruence. subst hm0.
  assert (its0 = its) by (pose proof (ok_items _ _ Hok); congruence). subst its0.
  split.
  - intros Hgt. unfold hashmap_shrink.
    destruct (Z.ltb_spec (capacity hm / 4) (count hm)); [done | lia].
  - intros Hle.
    destruct (shrink_keys hm its Hok)
      as (hm' & its' & Hshrink & Hok' & Hcap' & Hidx' & Hcnt' & Hkeys).
    { destruct Hsz as (? & _). lia. }
    { done. }
    destruct (contains_bool hm' its' kbuf klen Hok' Hklen) as (i & Hc).
    rewrite (absent_ext _ its' kbuf klen (Hkeys kbuf klen)) in Hc.
    exists hm', i. by repeat split.
Qed.

Lemma land_succ_even (a b : Z) : Z.land (2 * a + 1) (2 * b) = Z.land (2 * a) (2 * b).
Proof.
  apply Z.bits_inj'. intros n Hn. rewrite !Z.land_spec.
  destruct (Z.eq_dec n 0) as [-> | Hne].
  - rewrite Z.testbit_even_0. by rewrite !andb_false_r.
  - replace n with (Z.succ (n - 1)) by lia.
    by rewrite Z.testbit_odd_succ, !Z.testbit_even_succ by lia.
Qed.

(** With an odd capacity the mask is even, and the step
    [(index + 1) & mask] leaves every masked index where it is. *)
Lemma next_index_odd (cap z : Z) :
  1 < cap < 2 ^ 64 -> Z.odd cap = true ->
  let h := Z.land z (cap_mask cap) in
  0 <= h /\ next_index (cap_mask cap) h = h.
Proof.
  intros Hcap Hodd. unfold cap_mask. rewrite (u64_small (cap - 1)) by lia.
  set (h := Z.land z (cap - 1)).
  assert (Hmask : exists k, cap - 1 = 2 * k).
  { apply Z.even_spec. rewrite Z.even_sub, <- Z.negb_odd, Hodd. done. }
  destruct Hmask as [k Hk].
  assert (Hh : exists a : Z, h = 2 * a).
  { apply Z.even_spec. rewrite <- Z.negb_odd, <- Z.bit0_odd. unfold h.
    rewrite Z.land_spec, Hk, Z.testbit_even_0. by rewrite andb_false_r. }
  destruct Hh as [a Hm].
  split; [apply Z.land_nonneg; lia |].
  unfold next_index, u64. rewrite <- (Z.land_ones (h + 1) 64) by lia.
  rewrite <- Z.land_assoc, (Z.land_comm (Z.ones 64)), (Z.land_ones (cap - 1) 64) by lia.
  rewrite (Z.mod_small (cap - 1)) by lia.
  rewrite Hm, Hk, land_succ_even, <- Hm, <- Hk. unfold h.
  by rewrite <- Z.land_assoc, Z.land_diag.
Qed.

Lemma put_probe_stuck ty (its : list (item T)) mask kbuf klen h it :
  aread its h = Ret it -> used (meta it) = true ->
  hashmap_match_item M ty it kbuf klen = false -> next_index mask h = h ->
  forall (fuel : nat) c, put_probe M ty fuel its mask kbuf klen h c = Diverge.
Proof.
  intros Har Hu Hm Hn fuel. induction fuel as [| fuel IH]; intros c; [done |].
  cbn [put_probe]. rewrite Har. cbn [obind]. rewrite Hu, Hm, Hn. apply IH.
Qed.

(** X2: [hashmap_init_cap] takes any capacity, but with an odd one the
    probe never leaves the home slot: [(index + 1) & (capacity - 1)] is the
    index again.  When the home slot of a key is used by another key,
    [hashmap_put_nogrow] loops for ever, although the table has unused
    slots, and so does [hashmap_put] when the load factor is below 0.7. *)
Theorem odd_capacity_diverges ty hm its v kbuf klen it :
  items hm = Some its -> count hm < capacity hm ->
  1 < capacity hm < 2 ^ 64 -> Z.odd (capacity hm) = true ->
  let h := Z.land (hashmap_hash M kbuf (u32 klen)) (HASHMAP_CAP_MASK hm) in
  its !! Z.to_nat h = Some it -> used (meta it) = true ->
  hashmap_match_item M ty it kbuf klen = false ->
  next_index (HASHMAP_CAP_MASK hm) h = h /\
  hashmap_put_nogrow M ty hm v kbuf klen = Diverge /\
  (load_factor_ge_0_7 (count hm) (capacity hm) = false ->
   hashmap_put M T0 ty hm v kbuf klen = Diverge).
Proof.
  intros Hits Hroom Hcap Hodd h Hi Hu Hm.
  destruct (next_index_odd (capacity hm) (hashmap_hash M kbuf (u32 klen)) Hcap Hodd)
    as [Hh Hnext].
  fold (HASHMAP_CAP_MASK hm) in Hh, Hnext. fold h in Hh, Hnext.
  assert (Hput : hashmap_put_nogrow M ty hm v kbuf klen = Diverge).
  { unfold hashmap_put_nogrow.
    destruct (Z.leb_spec (capacity hm) (count hm)); [lia |].
    rewrite Hits. fold h.
    rewrite (put_probe_stuck ty its _ kbuf klen h it); try done.
    apply aread_Ret. by split. }
  split; [done |]. split; [done |].
  intros Hload. unfold hashmap_put. by rewrite Hload.
Qed.

(** ** Every table a caller reaches *)

Lemma table_ok_set_index hm its i : table_ok hm its -> table_ok (set_index hm i) its.
Proof.
  intros Hok. apply (table_ok_metas hm _ its its Hok); try done.
  apply (ok_items _ _ Hok).
Qed.

Lemma aread_nil (i : Z) : aread (@nil (item T)) i = Undef.
Proof. unfold aread. by destruct (i <? 0). Qed.

(** A table without slots: [hashmap_put] and [hashmap_put_nogrow] abort,
    the rebuilds leave it without slots, and [hashmap_remove] changes
    nothing if it returns. *)
Lemma empty_put ty hm v kbuf klen :
  capacity hm = 0 -> count hm = 0 ->
  hashmap_put_nogrow M ty hm v kbuf klen = Abort /\
  hashmap_put M T0 ty hm v kbuf klen = Abort.
Proof.
  intros Hcap Hcnt. unfold hashmap_put, hashmap_put_nogrow, load_factor_ge_0_7.
  rewrite Hcap, Hcnt. simpl. by rewrite Hcap, Hcnt.
Qed.

Lemma empty_rebuild hm :
  capacity hm = 0 -> count hm = 0 ->
  exists hm', hashmap_grow M T0 hm = Ret hm' /\ hashmap_shrink M T0 hm = Ret hm' /\
              capacity hm' = 0 /\ count hm' = 0 /\ items hm' = Some [].
Proof.
  intros Hcap Hcnt. unfold hashmap_grow, hashmap_shrink. rewrite Hcap, Hcnt.
  eexists. split; [reflexivity |]. split; [reflexivity |]. done.
Qed.

Lemma empty_remove hm kbuf klen hm' :
  items hm = None \/ items hm = Some [] ->
  hashmap_remove M hm kbuf klen = Ret hm' -> hm' = hm.
Proof.
  unfold hashmap_remove, hashmap_index_var, hashmap_lookup.
  intros [-> | ->]; simpl; [congruence |].
  destruct (Z.to_nat (maxcol hm + capacity hm + 2)) as [| fuel]; simpl; [done |].
  destruct (0 <=? maxcol hm); [by rewrite aread_nil | simpl; congruence].
Qed.

(** Every reachable table is sound or has no slot. *)
Lemma reachable_sound ty hm : Hashmap.reachable M T0 ty hm -> Hashmap.sound M hm.
Proof.
  induction 1 as [hm0 k Hk | hm v kbuf klen hm' _ IH Hklen Hcap Hput
                  | hm v kbuf klen hm' _ IH Hklen Hput
                  | hm kbuf klen hm' _ IH Hklen Hrem
                  | hm kbuf klen i _ IH Hklen Hlook
                  | hm hm' _ IH Hcap Hgrow | hm hm' _ IH Hshr | hm _ IH].
  - left. eexists. apply (init_cap_ok hm0 k). lia.
  - destruct IH as [[its Hok] | (Hc & Hn & _)].
    + destruct (put_ok ty hm its v kbuf klen Hok Hcap Hklen)
        as (hm2 & its2 & Hput2 & Hok2 & _).
      left. exists its2. congruence.
    + destruct (empty_put ty hm v kbuf klen Hc Hn) as [_ Hab]. congruence.
  - destruct IH as [[its Hok] | (Hc & Hn & _)].
    + pose proof (table_count_bounds hm its Hok) as Hb.
      destruct (Z.lt_ge_cases (count hm) (capacity hm)) as [Hroom | Hfull].
      * destruct (put_nogrow_ok ty hm its v kbuf klen Hok Hroom Hklen)
          as (hm2 & its2 & Hput2 & Hok2 & _).
        left. exists its2. congruence.
      * unfold hashmap_put_nogrow in Hput.
        destruct (Z.leb_spec (capacity hm) (count hm)); [done | lia].
    + destruct (empty_put ty hm v kbuf klen Hc Hn) as [Hab _]. congruence.
  - destruct IH as [[its Hok] | (Hc & Hn & Hi)].
    + destruct (remove_ok hm its kbuf klen Hok Hklen)
        as (hm2 & its2 & Hrem2 & Hok2 & _).
      left. exists its2. congruence.
    + right. by rewrite (empty_remove hm kbuf klen hm' Hi Hrem).
  - destruct IH as [[its Hok] | Hempty].
    + left. exists its. by apply table_ok_set_index.
    + by right.
  - destruct IH as [[its Hok] | (Hc & Hn & _)].
    + destruct (grow_ok hm its Hok Hcap) as (hm2 & its2 & Hgrow2 & Hok2 & _).
      left. exists its2. congruence.
    + destruct (empty_rebuild hm Hc Hn) as (hm2 & Hg & _ & Hc2 & Hn2 & Hi2).
      right. assert (hm2 = hm') by congruence. subst hm2. split; [done |]. split; [done |]. by right.
  - destruct IH as [[its Hok] | (Hc & Hn & _)].
    + pose proof (table_count_bounds hm its Hok) as Hb.
      destruct (Z.lt_ge_cases (capacity hm / 4) (count hm)) as [Hbig | Hsmall].
      { unfold hashmap_shrink in Hshr.
        destruct (Z.ltb_spec (capacity hm / 4) (count hm)); [| lia].
        left. exists its. congruence. }
      destruct (Z.le_gt_cases 2 (capacity hm)) as [H2 | H1].
      * destruct (shrink_keys hm its Hok H2) as (hm2 & its2 & Hshr2 & Hok2 & _);
          [lia |].
        left. exists its2. congruence.
      * destruct (ok_cap _ _ Hok) as (k & Hk & Hcapk).
        pose proof (pow2_bounds k Hk) as Hp.
        assert (Hc1 : capacity hm = 1) by lia.
        rewrite Hc1 in Hsmall. change (1 / 4) with 0 in Hsmall.
        assert (Hn0 : count hm = 0) by lia.
        unfold hashmap_shrink in Hshr. rewrite Hc1, Hn0 in Hshr.
        simpl in Hshr. injection Hshr as <-. right. simpl. split; [done |]. split; [done |]. by right.
    + destruct (empty_rebuild hm Hc Hn) as (hm2 & _ & Hs & Hc2 & Hn2 & Hi2).
      right. assert (hm2 = hm') by congruence. subst hm2. split; [done |]. split; [done |]. by right.
  - right. simpl. split; [done |]. split; [done |]. by left.
Qed.

(** A returning [hashmap_put_nogrow] found [count] below the capacity and
    has raised it by one at most, whatever the table. *)
Lemma put_nogrow_count ty hm v kbuf klen hm' :
  0 <= count hm -> capacity hm < 2 ^ 64 ->
  hashmap_put_nogrow M ty hm v kbuf klen = Ret hm' ->
  capacity hm' = capacity hm /\ count hm < capacity hm /\
  count hm <= count hm' <= count hm + 1.
Proof.
  intros Hn Hcap. unfold hashmap_put_nogrow.
  destruct (Z.leb_spec (capacity hm) (count hm)); [done |].
  destruct (items hm) as [its |]; [| done].
  destruct (put_probe _ _ _ _ _ _ _ _ _) as [[i cnt] | | |]; try done. simpl.
  destruct (aread its i) as [it | | |]; try done. simpl.
  destruct (used (meta it)); intros [= <-]; simpl; [lia |].
  rewrite u64_small by lia. lia.
Qed.

(** The loop of a rebuild puts one entry per index at most. *)
Lemma reinsert_count src (n : nat) tmp : forall tmp',
  0 <= count tmp -> capacity tmp < 2 ^ 64 ->
  reinsert M src (Z.of_nat n) tmp = Ret tmp' ->
  capacity tmp' = capacity tmp /\
  count tmp <= count tmp' <= count tmp + Z.of_nat n.
Proof.
  induction n as [| n IH]; intros tmp' Hn Hcap Hre.
  - unfold reinsert in Hre. simpl in Hre. injection Hre as <-. lia.
  - rewrite reinsert_S in Hre.
    destruct (reinsert M src (Z.of_nat n) tmp) as [t | | |]; try done.
    destruct (IH t Hn Hcap eq_refl) as [Hc Hb].
    unfold reinsert_step in Hre. simpl in Hre.
    destruct src as [its |]; [| done].
    destruct (aread its (Z.of_nat n)) as [it | | |]; try done. simpl in Hre.
    destruct (used (meta it)).
    + apply put_nogrow_count in Hre as (Hc' & _ & Hb'); lia.
    + injection Hre as <-. lia.
Qed.

(** The bound that the load-factor test leaves, on any table at all: a
    returning put has found [count / capacity] below 0.7, or has doubled
    the capacity and put back one entry per old slot at most, and has
    then raised [count] by one at most. *)
Lemma put_bound ty hm v kbuf klen hm' :
  0 <= count hm -> 0 <= capacity hm <= 2 ^ 30 ->
  hashmap_put M T0 ty hm v kbuf klen = Ret hm' ->
  0 < capacity hm' /\ 10 * (count hm' - 1) < 7 * capacity hm'.
Proof.
  intros Hn Hcap. unfold hashmap_put.
  destruct (load_factor_ge_0_7 (count hm) (capacity hm)) eqn:Hload.
  - destruct (hashmap_grow M T0 hm) as [hm1 | | |] eqn:Hg; try done. simpl.
    unfold hashmap_grow in Hg.
    destruct (reinsert _ _ _ _) as [tmp' | | |] eqn:Hre; try done.
    simpl in Hg. injection Hg as <-.
    rewrite <- (Z2Nat.id (capacity hm)) in Hre at 1 by lia.
    rewrite Z.shiftl_mul_pow2, u64_small in Hre by lia.
    apply reinsert_count in Hre as [Hc Hb]; simpl; [| done | lia].
    simpl in Hc, Hb. rewrite Z2Nat.id in Hb by lia.
    intros Hput. apply put_nogrow_count in Hput as (Hc' & Hlt & Hb');
      simpl in *; lia.
  - intros Hput. apply put_nogrow_count in Hput as (Hc' & Hlt & Hb'); [| done | lia].
    assert (Hpos : 0 < capacity hm) by lia.
    destruct (Z.le_gt_cases (7 * capacity hm) (10 * count hm)) as [Hle | Hgt].
    + apply load_factor_spec in Hle; [congruence | lia | done].
    + lia.
Qed.

(** C6, as amended: immediately after any put has returned, on any table
    at all of at most [2^30] slots, [count - 1 < 0.7 * capacity]: the
    load-factor test bounds the table before the insertion, not after it.
    So [count / capacity < 0.75] on every table of 20 slots or more.  On
    the tables that a caller reaches through the macros of the header from
    a power of two of slots, a put returns unless the table has no slot,
    in which case it aborts, and leaves [count / capacity <= 0.75] on
    every table of four slots or more, while on one or two slots nothing
    keeps a put from filling the table. *)
Theorem load_factor_bound ty hm v kbuf klen :
  0 <= count hm -> 0 <= capacity hm <= 2 ^ 30 -> 0 <= klen < 2 ^ 32 ->
  (forall hm',
     hashmap_put M T0 ty hm v kbuf klen = Ret hm' ->
     0 < capacity hm' /\ 10 * (count hm' - 1) < 7 * capacity hm' /\
     (20 <= capacity hm' -> 4 * count hm' < 3 * capacity hm')) /\
  (Hashmap.reachable M T0 ty hm ->
   (capacity hm = 0 -> hashmap_put M T0 ty hm v kbuf klen = Abort) /\
   (capacity hm <> 0 ->
    exists hm',
      hashmap_put M T0 ty hm v kbuf klen = Ret hm' /\
      count hm' <= capacity hm' /\
      (4 <= capacity hm' -> 4 * count hm' <= 3 * capacity hm'))).
Proof.
  intros Hcnt [Hcap0 Hcap] Hklen. split.
  { intros hm' Hput.
    destruct (put_bound ty hm v kbuf klen hm' Hcnt (conj Hcap0 Hcap) Hput) as [Hpos Hb].
    split; [done |]. split; [done |]. lia. }
  intros Hreach.
  destruct (reachable_sound ty hm Hreach) as [[its Hok] | (Hc & Hn & _)].
  - destruct (ok_cap _ _ Hok) as (k0 & Hk0 & Hcapk0).
    pose proof (pow2_bounds k0 Hk0) as Hp0.
    split; [lia |]. intros _.
    destruct (put_ok ty hm its v kbuf klen Hok Hcap Hklen)
      as (hm' & its' & Hput & Hok' & _ & _ & _ & Hbound & _).
    exists hm'. split; [done |].
    split; [apply (table_count_bounds hm' its' Hok') |].
    intros H4. destruct (ok_cap _ _ Hok') as (k & Hk & Hcapk).
    destruct (Z.le_gt_cases 5 k) as [H5 | H5].
    + assert (2 ^ 5 <= 2 ^ k) by (apply Z.pow_le_mono_r; lia). lia.
    + destruct (Z.le_gt_cases k 1) as [H1 | H1].
      * assert (2 ^ k <= 2 ^ 1) by (apply Z.pow_le_mono_r; lia). lia.
      * assert (k = 2 \/ k = 3 \/ k = 4) as [-> | [-> | ->]] by lia; lia.
  - split; [| done]. intros _. by destruct (empty_put ty hm v kbuf klen Hc Hn).
Qed.

End Facts.

(** ** The claims on concrete tables *)

Lemma demo_puts_ok l :
  Forall (fun o => op_ok o /\ is_put o) (demo_puts l).
Proof.
  induction l as [| i l IH]; simpl; [constructor |].
  constructor; [| done]. simpl. split; [lia | done].
Qed.

Lemma demo_puts_op_ok l : Forall op_ok (demo_puts l).
Proof. eapply Forall_impl; [apply demo_puts_ok |]. by intros o [? _]. Qed.



(** The round trip fails when another key is removed in between: "i" is
    put with 8, "a" is removed, "i" is put again with 999, and after the
    grow [get] returns 8 for "i", which was never removed. *)
Lemma roundtrip_counterexample :
  last_put demo_mem demo_stale_ops (demo_key 8) 1 = Some 999 /\
  keq demo_mem (demo_key 0) 1 (demo_key 8) 1 = false /\
  exists hm hm',
    run demo_mem 0 SChar (init 0) demo_stale_ops = Ret hm /\
    hashmap_get demo_mem hm (demo_key 8) 1 = Ret (hm', 8).
Proof.
  split; [vm_compute; reflexivity |]. split; [vm_compute; reflexivity |].
  eexists _, _. split; [vm_compute; reflexivity |]. vm_compute. reflexivity.
Qed.

(** C2 at a concrete input: the keys "a" to "g". *)
Lemma rehash_timing_witness :
  exists hm7,
    run demo_mem 0 SChar (init 0) (demo_puts [0; 1; 2; 3; 4; 5] ++ [Put 6 (demo_key 6) 1])
    = Ret hm7 /\ capacity hm7 = 16 /\ count hm7 = 7.
Proof.
  destruct (rehash_timing demo_mem 0 SChar (demo_puts [0; 1; 2; 3; 4; 5]) 6 (demo_key 6) 1)
    as (_ & hm6 & hmg & hm7 & _ & _ & _ & _ & _ & _ & Hrun & Hcap & Hcnt & _).
  - apply (demo_puts_ok [0; 1; 2; 3; 4; 5; 6]).
  - intros i v k l Hi.
    do 7 (destruct i as [| i]; [injection Hi as <- <- <-; vm_compute; reflexivity |]).
    destruct i; discriminate.
  - reflexivity.
  - exists hm7. exact (conj Hrun (conj Hcap Hcnt)).
Defined.

(** C2 as stated fails: after the put of the sixth distinct key the
    capacity is still 8. *)
Lemma rehash_counterexample :
  exists hm5 hm6,
    run demo_mem 0 SChar (init 0) (demo_puts [0; 1; 2; 3; 4]) = Ret hm5 /\
    hashmap_put demo_mem 0 SChar hm5 5 (demo_key 5) 1 = Ret hm6 /\
    capacity hm5 = 8 /\ count hm5 = 5 /\ capacity hm6 = 8 /\ count hm6 = 6 /\
    capacity hm6 <> 16.
Proof.
  eexists _, _. split; [vm_compute; reflexivity |].
  split; [vm_compute; reflexivity |]. simpl. repeat split; try done.
Qed.

(** C6 at a concrete input: the second put on a table of 2 slots. *)
Lemma load_factor_bound_witness :
  exists hm',
    hashmap_put demo_mem 0 SChar demo_small 1 (demo_key 1) 1 = Ret hm' /\
    10 * (count hm' - 1) < 7 * capacity hm' /\
    count hm' <= capacity hm' /\
    (4 <= capacity hm' -> 4 * count hm' <= 3 * capacity hm').
Proof.
  destruct (load_factor_bound demo_mem 0 SChar demo_small 1 (demo_key 1) 1)
    as [Hany Hreach].
  - simpl. lia.
  - simpl. lia.
  - lia.
  - destruct Hreach as [_ Hput].
    + apply (reach_put demo_mem 0 SChar (hashmap_init_cap 0 hashmap_zero (2 ^ 1))
               0 (demo_key 0) 1).
      * apply reach_init_cap. lia.
      * lia.
      * simpl. lia.
      * vm_compute. reflexivity.
    + destruct Hput as (hm' & Hp & Hc & H4); [discriminate |].
      exists hm'. split; [exact Hp |].
      split; [exact (proj1 (proj2 (Hany hm' Hp))) |]. split; [exact Hc | exact H4].
Defined.

(** C6 as stated fails.  After the sixth put on a fresh table,
    [count / capacity] is 6/8, which is not below 0.75.  And on a table of
    2 slots, set up by [hashmap_init_cap] or left by two calls of
    [hashmap_shrink] on a fresh table, two puts return with both slots
    used: no bound below 1 holds there. *)
Lemma load_factor_counterexample :
  (exists hm hm',
     run demo_mem 0 SChar (init 0) (demo_puts [0; 1; 2; 3; 4]) = Ret hm /\
     hashmap_put demo_mem 0 SChar hm 5 (demo_key 5) 1 = Ret hm' /\
     ~ (4 * count hm' < 3 * capacity hm')) /\
  (exists hm',
     hashmap_put demo_mem 0 SChar (hashmap_init_cap 0 hashmap_zero 2) 0 (demo_key 0) 1
     = Ret demo_small /\
     hashmap_put demo_mem 0 SChar demo_small 1 (demo_key 1) 1 = Ret hm' /\
     count hm' = 2 /\ capacity hm' = 2 /\
     ~ (4 * count hm' <= 3 * capacity hm')) /\
  (exists hm4 hm2,
     hashmap_shrink demo_mem 0 (init 0) = Ret hm4 /\ capacity hm4 = 4 /\
     hashmap_shrink demo_mem 0 hm4 = Ret hm2 /\
     hm2 = hashmap_init_cap 0 (init 0) 2).
Proof.
  split; [| split].
  - eexists _, _. split; [vm_compute; reflexivity |].
    split; [vm_compute; reflexivity |]. simpl. lia.
  - eexists. split; [vm_compute; reflexivity |].
    split; [vm_compute; reflexivity |]. simpl. lia.
  - eexists _, _. split; [vm_compute; reflexivity |]. split; [reflexivity |].
    split; [vm_compute; reflexivity |]. vm_compute. reflexivity.
Qed.

(** C7 at a concrete input: the key "i" in the table with the gap. *)
Lemma lookup_algorithm_witness :
  hashmap_lookup demo_mem (Some demo_gap_items) (2 ^ 3) 1 (demo_key 8) 1 = Ret 7.
Proof.
  destruct (lookup_algorithm demo_mem 3 demo_gap_items 1 (demo_key 8) 1)
    as [_ [(d & it & _ & _ & _ & _ & _ & _ & _ & _) | [_ Hmiss]]];
    [lia | reflexivity | lia | vm_compute; reflexivity |].
  vm_compute in Hmiss. discriminate Hmiss.
Defined.

(** C7 as stated fails: the probe for "i" starts on slot 6, which is
    unused, and the lookup does not return "not found" there but goes on to
    slot 7 and returns it. *)
Lemma lookup_counterexample :
  exists it,
    Z.land (hashmap_hash demo_mem (demo_key 8) 1) (cap_mask (capacity demo_gap)) = 6 /\
    demo_gap_items !! 6%nat = Some it /\ used (meta it) = false /\
    hashmap_lookup demo_mem (items demo_gap) (capacity demo_gap) (maxcol demo_gap)
      (demo_key 8) 1 = Ret 7.
Proof.
  eexists. split; [vm_compute; reflexivity |]. split; [reflexivity |].
  split; [reflexivity |]. vm_compute. reflexivity.
Qed.

(** C8 at a concrete input: "a" in its home slot 6, "i" displaced to 7. *)
Lemma removal_gap_witness :
  exists hm' its',
    hashmap_remove demo_mem demo_two (demo_key 0) 1 = Ret hm' /\
    items hm' = Some its' /\ count hm' = count demo_two - 1 /\
    hashmap_contains demo_mem hm' (demo_key 8) 1 = Ret (set_index hm' 7, true).
Proof.
  destruct (removal_gap demo_mem 0 SChar (demo_puts [0; 8]) demo_two demo_two_items
              (demo_key 0) 1 (demo_key 8) 1
              {| meta := {| key := 0; len := 1; used := true |}; data := 0 |}
              {| meta := {| key := 128; len := 1; used := true |}; data := 8 |})
    as (hm' & its' & Hrem & Hits & Hcnt & _ & Hc).
  - apply demo_puts_op_ok.
  - simpl. lia.
  - vm_compute. reflexivity.
  - reflexivity.
  - lia.
  - lia.
  - vm_compute. reflexivity.
  - vm_compute. reflexivity.
  - vm_compute. reflexivity.
  - vm_compute. reflexivity.
  - vm_compute. reflexivity.
  - exists hm', its'. exact (conj Hrem (conj Hits (conj Hcnt Hc))).
Defined.

(** The frame of an overwriting put at a concrete input: a second put of
    "i", stored in slot 7 behind "a" in slot 6. *)
Lemma overwrite_frame_witness :
  exists hm' its',
    hashmap_put demo_mem 0 SChar demo_two 999 (demo_key 8) 1 = Ret hm' /\
    items hm' = Some its' /\ count hm' = count demo_two /\
    maxcol hm' = maxcol demo_two /\
    (forall j : nat, j <> 7%nat -> its' !! j = demo_two_items !! j).
Proof.
  destruct (overwrite_frame demo_mem 0 SChar demo_two demo_two_items 3 999 (demo_key 8) 1
              1 7%nat
              {| meta := {| key := 128; len := 1; used := true |}; data := 8 |})
    as (hm' & its' & Hput & Hits & Hcnt & Hmax & _ & _ & _ & _ & Hframe).
  - reflexivity.
  - lia.
  - reflexivity.
  - reflexivity.
  - simpl. lia.
  - vm_compute. reflexivity.
  - lia.
  - lia.
  - vm_compute. reflexivity.
  - reflexivity.
  - reflexivity.
  - vm_compute. reflexivity.
  - intros j Hj. assert (j = 0) as -> by lia.
    eexists. split; [vm_compute; reflexivity |].
    split; [vm_compute; reflexivity |]. vm_compute. reflexivity.
  - exists hm', its'. exact (conj Hput (conj Hits (conj Hcnt (conj Hmax Hframe)))).
Defined.

(** The frame of an overwriting put fails on a table with a gap: "i" is
    present in slot 7 ([contains] finds it) and no grow is triggered, yet
    the put of "i" fills the unused slot 6, [count] goes from 1 to 2, and
    slot 7 keeps its value. *)
Lemma overwrite_counterexample :
  exists hm1 hm' its' it6 it7,
    hashmap_contains demo_mem demo_gap (demo_key 8) 1 = Ret (hm1, true) /\
    load_factor_ge_0_7 (count demo_gap) (capacity demo_gap) = false /\
    hashmap_put demo_mem 0 SChar demo_gap 999 (demo_key 8) 1 = Ret hm' /\
    items hm' = Some its' /\
    count demo_gap = 1 /\ count hm' = 2 /\
    its' !! 6%nat = Some it6 /\ demo_gap_items !! 6%nat <> Some it6 /\
    its' !! 7%nat = Some it7 /\ data it7 = 8.
Proof.
  eexists _, _, _, _, _.
  split; [vm_compute; reflexivity |]. split; [vm_compute; reflexivity |].
  split; [vm_compute; reflexivity |]. split; [reflexivity |].
  split; [reflexivity |]. split; [reflexivity |]. split; [reflexivity |].
  split; [discriminate |]. split; reflexivity.
Qed.

(** C1 at its failing input: the one-byte key 0x80, handed over as
    [char *] where [char] is signed, is put with the value 1 and put again
    with the value 2.  [hashmap_match_item] compares [(kbuf)[0]], which is
    -128, with the stored [uint8_t] 128, so the second put does not find
    the key in its home slot 7: it walks on and stores a second copy in
    slot 0.  [count] is 2, and [hashmap_get], which compares unsigned
    bytes, finds slot 7 first and returns 1, not the value most recently
    put.  Handed over as [uint8_t *], the same two puts leave one slot and
    [hashmap_get] returns 2. *)
Theorem roundtrip_signed_key :
  load8 demo_mem demo_high = 128 /\
  exists hm hm1 hm' hm1',
    run demo_mem 0 SChar (init 0) [Put 1 demo_high 1; Put 2 demo_high 1] = Ret hm /\
    count hm = 2 /\
    hashmap_contains demo_mem hm demo_high 1 = Ret (hm1, true) /\
    hashmap_get demo_mem hm demo_high 1 = Ret (hm1, 1) /\
    run demo_mem 0 UChar (init 0) [Put 1 demo_high 1; Put 2 demo_high 1] = Ret hm' /\
    count hm' = 1 /\
    hashmap_get demo_mem hm' demo_high 1 = Ret (hm1', 2).
Proof.
  split; [vm_compute; reflexivity |].
  eexists _, _, _, _. split; [vm_compute; reflexivity |]. split; [reflexivity |].
  split; [vm_compute; reflexivity |]. split; [vm_compute; reflexivity |].
  split; [vm_compute; reflexivity |]. split; [reflexivity |].
  vm_compute. reflexivity.
Qed.

(** C10 at its failing input: the one-byte key 0x80 is in slot 7 of a
    table of 8 slots, its home slot, and the table holds nothing else, so
    the load-factor test triggers no grow.  A put of the same key with the
    value 2, handed over as [char *] where [char] is signed, leaves the
    [data] field of slot 7 as it was and fills slot 0: [count] goes from 1
    to 2 and [maxcol] from 0 to 1. *)
Theorem overwrite_signed_key :
  exists hm' its' it7 it0 it0',
    items demo_high_one = Some demo_high_items /\
    demo_high_items !! 7%nat = Some it7 /\ hit demo_mem demo_high 1 it7 = true /\
    data it7 = 1 /\
    Z.land (hashmap_hash demo_mem demo_high 1) (HASHMAP_CAP_MASK demo_high_one) = 7 /\
    load_factor_ge_0_7 (count demo_high_one) (capacity demo_high_one) = false /\
    hashmap_put demo_mem 0 SChar demo_high_one 2 demo_high 1 = Ret hm' /\
    items hm' = Some its' /\
    its' !! 7%nat = Some it7 /\
    demo_high_items !! 0%nat = Some it0 /\ used (meta it0) = false /\
    its' !! 0%nat = Some it0' /\ used (meta it0') = true /\ data it0' = 2 /\
    count demo_high_one = 1 /\ count hm' = 2 /\
    maxcol demo_high_one = 0 /\ maxcol hm' = 1.
Proof.
  eexists _, _, _, _, _. split; [reflexivity |]. split; [reflexivity |].
  split; [vm_compute; reflexivity |]. split; [reflexivity |].
  split; [vm_compute; reflexivity |]. split; [vm_compute; reflexivity |].
  split; [vm_compute; reflexivity |]. split; [reflexivity |].
  split; [reflexivity |]. split; [reflexivity |]. split; [reflexivity |].
  split; [reflexivity |]. split; [reflexivity |]. split; [reflexivity |].
  split; [reflexivity |]. split; [reflexivity |]. split; reflexivity.
Qed.

(** C4 at its failing input: the table holding "a" alone (slot 6, [count]
    1, capacity 8) is shrunk; the loop of [hashmap_shrink] reads slot 0
    only, and the new table of capacity 4 is empty.  The pointer type of
    the caller plays no part. *)
Theorem shrink_drops_entry ty :
  exists hm hm1 hm' hm2,
    run demo_mem 0 ty (init 0) (demo_puts [0]) = Ret hm /\
    count hm = 1 /\ capacity hm = 8 /\
    hashmap_contains demo_mem hm (demo_key 0) 1 = Ret (hm1, true) /\
    hashmap_shrink demo_mem 0 hm = Ret hm' /\
    count hm' = 0 /\ capacity hm' = 4 /\
    hashmap_contains demo_mem hm' (demo_key 0) 1 = Ret (hm2, false).
Proof.
  destruct ty;
    (eexists _, _, _, _; split; [vm_compute; reflexivity |];
     split; [reflexivity |]; split; [reflexivity |];
     split; [vm_compute; reflexivity |]; split; [vm_compute; reflexivity |];
     split; [reflexivity |]; split; [reflexivity |]; vm_compute; reflexivity).
Qed.

(** ** The further properties on concrete tables *)

(** X1 at a concrete input: the hash of the two bytes at address 0. *)
Lemma hash_fnv1_witness :
  hashmap_hash demo_mem 0 (1 + 1)
  = Z.lxor (u64 (hashmap_hash demo_mem 0 1 * 0x100000001b3)) (load8 demo_mem (0 + 1)) /\
  0 <= hashmap_hash demo_mem 0 1 < 2 ^ 64.
Proof.
  destruct (hash_fnv1 demo_mem 0 1) as (_ & Hstep & Hrange & _).
  - lia.
  - exact (conj Hstep Hrange).
Defined.

(** X3 at a concrete input: two puts, a remove and a lookup. *)
Lemma run_safe_witness :
  let ops := demo_puts [0; 8] ++ [Remove (demo_key 0) 1; Contains (demo_key 8) 1] in
  exists hm its k,
    run demo_mem 0 SChar (init 0) ops = Ret hm /\ items hm = Some its /\
    3 <= k <= 31 /\ capacity hm = 2 ^ k /\
    Z.of_nat (length its) = capacity hm /\
    count hm = used_count (meta <$> its) /\
    0 <= maxcol hm < capacity hm /\
    4 * count hm <= 3 * capacity hm /\
    hashmap_avail hm = capacity hm - count hm /\
    capacity hm <= 4 * hashmap_avail hm /\
    7 * capacity hm <= 56 + 20 * Z.of_nat (length ops).
Proof.
  intros ops. apply (run_safe demo_mem 0 SChar ops).
  - apply Forall_app. split; [apply demo_puts_op_ok |].
    constructor; [simpl; lia |]. constructor; [simpl; lia | constructor].
  - simpl. lia.
Defined.

(** X4 at a concrete input: "b" in the table that holds "a" and "i". *)
Lemma missing_key_witness :
  hashmap_index demo_mem demo_two (demo_key 1) 1 = Ret (set_index demo_two (-1), -1) /\
  hashmap_contains demo_mem demo_two (demo_key 1) 1
  = Ret (set_index demo_two (-1), false) /\
  hashmap_remove demo_mem demo_two (demo_key 1) 1 = Ret demo_two /\
  hashmap_get demo_mem demo_two (demo_key 1) 1 = Undef.
Proof.
  apply (missing_key demo_mem 0 SChar (demo_puts [0; 8]) demo_two demo_two_items).
  - apply demo_puts_op_ok.
  - simpl. lia.
  - vm_compute. reflexivity.
  - reflexivity.
  - lia.
  - vm_compute. reflexivity.
Defined.

(** X6 at a concrete input: [hashmap_init] on a variable that held the
    table of "a" and "i". *)
Lemma init_cap_empty_witness :
  let hm := hashmap_init_cap 0 demo_two (2 ^ 3) in
  hashmap_init 0 demo_two = hm /\ count hm = 0 /\ capacity hm = 2 ^ 3 /\
  maxcol hm = 0 /\ hashmap_avail hm = 2 ^ 3 /\
  hashmap_contains demo_mem hm (demo_key 0) 1 = Ret (set_index hm (-1), false) /\
  hashmap_remove demo_mem hm (demo_key 0) 1 = Ret hm.
Proof.
  intros hm. apply (init_cap_empty demo_mem 0 demo_two 3 (demo_key 0) 1). lia.
Defined.


(** X8 at a concrete input: "i" is put into the table in which the removal
    of "a" has left a gap before it. *)
Lemma put_then_get_witness :
  exists hm' i,
    hashmap_put demo_mem 0 SChar demo_gap 999 (demo_key 8) 1 = Ret hm' /\
    hashmap_contains demo_mem hm' (demo_key 8) 1 = Ret (set_index hm' i, true) /\
    hashmap_get demo_mem hm' (demo_key 8) 1 = Ret (set_index hm' i, 999).
Proof.
  apply (put_then_get demo_mem 0 SChar (demo_puts [0; 8] ++ [Remove (demo_key 0) 1])).
  - apply Forall_app. split; [apply demo_puts_op_ok |].
    constructor; [simpl; lia | constructor].
  - simpl. lia.
  - vm_compute. reflexivity.
  - lia.
  - vm_compute. reflexivity.
Defined.

(** X9 at a concrete input: "i" in slot 7, behind the gap in slot 6. *)
Lemma stored_key_found_witness :
  exists (i : nat) it,
    demo_gap_items !! i = Some it /\ used (meta it) = true /\
    hashmap_match_item demo_mem UChar it (demo_key 8) 1 = true /\
    hashmap_index demo_mem demo_gap (demo_key 8) 1
    = Ret (set_index demo_gap (Z.of_nat i), Z.of_nat i) /\
    hashmap_contains demo_mem demo_gap (demo_key 8) 1
    = Ret (set_index demo_gap (Z.of_nat i), true) /\
    hashmap_at (set_index demo_gap (Z.of_nat i))
      (index (set_index demo_gap (Z.of_nat i))) = Ret (data it) /\
    hashmap_get demo_mem demo_gap (demo_key 8) 1
    = Ret (set_index demo_gap (Z.of_nat i), data it).
Proof.
  apply (stored_key_found demo_mem 0 SChar (demo_puts [0; 8] ++ [Remove (demo_key 0) 1])).
  - apply Forall_app. split; [apply demo_puts_op_ok |].
    constructor; [simpl; lia | constructor].
  - simpl. lia.
  - vm_compute. reflexivity.
  - reflexivity.
  - lia.
  - vm_compute. reflexivity.
Defined.



(** X12 at a concrete input: the table with the gap, and the key "i". *)
Lemma grow_keeps_keys_witness :
  exists hm' i i' b,
    hashmap_grow demo_mem 0 demo_gap = Ret hm' /\
    capacity hm' = 2 * capacity demo_gap /\ count hm' <= count demo_gap /\
    index hm' = index demo_gap /\
    hashmap_contains demo_mem demo_gap (demo_key 8) 1 = Ret (set_index demo_gap i, b) /\
    hashmap_contains demo_mem hm' (demo_key 8) 1 = Ret (set_index hm' i', b).
Proof.
  apply (grow_keeps_keys demo_mem 0 SChar (demo_puts [0; 8] ++ [Remove (demo_key 0) 1])).
  - apply Forall_app. split; [apply demo_puts_op_ok |].
    constructor; [simpl; lia | constructor].
  - simpl. lia.
  - vm_compute. reflexivity.
  - lia.
Defined.


(** X14 at a concrete input: the table that holds "g" in slot 0; the key
    lies below [count = 1] and is kept by the shrink. *)
Lemma shrink_result_witness :
  exists hm' i,
    hashmap_shrink demo_mem 0 demo_one = Ret hm' /\
    capacity hm' = capacity demo_one / 2 /\ count hm' <= count demo_one /\
    index hm' = index demo_one /\
    hashmap_contains demo_mem hm' (demo_key 6) 1
    = Ret (set_index hm' i,
           negb (absent demo_mem (take (Z.to_nat (count demo_one)) demo_one_items)
                   (demo_key 6) 1)).
Proof.
  destruct (shrink_result demo_mem 0 SChar (demo_puts [6]) demo_one demo_one_items
              (demo_key 6) 1) as [_ Hshrink].
  - apply demo_puts_op_ok.
  - simpl. lia.
  - vm_compute. reflexivity.
  - reflexivity.
  - lia.
  - apply Hshrink. vm_compute. discriminate.
Defined.

(** X2 at a concrete input: "e" is put into the table of 3 slots that
    holds "a" in slot 2. *)
Lemma odd_capacity_diverges_witness :
  hashmap_put_nogrow demo_mem SChar demo_odd 4 (demo_key 4) 1 = Diverge /\
  hashmap_put demo_mem 0 SChar demo_odd 4 (demo_key 4) 1 = Diverge.
Proof.
  destruct (odd_capacity_diverges demo_mem 0 SChar demo_odd demo_odd_items 4 (demo_key 4) 1
              {| meta := {| key := 0; len := 1; used := true |}; data := 0 |})
    as (_ & Hnogrow & Hput).
  - reflexivity.
  - vm_compute. reflexivity.
  - vm_compute. split; reflexivity.
  - reflexivity.
  - vm_compute. reflexivity.
  - reflexivity.
  - vm_compute. reflexivity.
  - split; [exact Hnogrow |]. apply Hput. vm_compute. reflexivity.
Defined.

End HashmapFacts.

(** * Properties of the arena *)

Module ArenaFacts.
Import Arena.

(** ** Reads and writes of a [size_t] in memory *)

Lemma load_bytes_insert_out (n : nat) : forall a b x (m : gmap Z Z),
  b < a \/ a + Z.of_nat n <= b ->
  load_bytes n a (<[b := x]> m) = load_bytes n a m.
Proof.
  induction n as [| n IH]; intros a b x m Hout; simpl; [done |].
  rewrite lookup_insert_ne by lia. by rewrite IH by lia.
Qed.

Lemma load_store_bytes (n : nat) : forall a v (m : gmap Z Z),
  load_bytes n a (store_bytes n a v m) = Some (v mod 256 ^ Z.of_nat n).
Proof.
  induction n as [| n IH]; intros a v m.
  - simpl. by rewrite Z.mod_1_r.
  - cbn [store_bytes load_bytes].
    rewrite lookup_insert_eq, load_bytes_insert_out, IH by lia. f_equal.
    rewrite Nat2Z.inj_succ, Z.pow_succ_r by lia.
    symmetry. apply Z.rem_mul_r; lia.
Qed.

Lemma load_store_bytes_ne (n : nat) : forall (k : nat) a b v (m : gmap Z Z),
  a + Z.of_nat n <= b \/ b + Z.of_nat k <= a ->
  load_bytes k b (store_bytes n a v m) = load_bytes k b m.
Proof.
  induction n as [| n IH]; intros k a b v m Hout; [done |].
  cbn [store_bytes]. rewrite load_bytes_insert_out by lia. apply IH. lia.
Qed.

(** A [size_t] that was written is read back, and a write leaves the
    [size_t] at every address 8 bytes or more away as it was. *)
Lemma heap_lookup_insert (m : memory) a v :
  0 <= v < 2 ^ 64 -> <[a := v]> m !! a = Some v.
Proof.
  intros Hv. unfold lookup, memory_lookup, insert, memory_insert. cbn [bytes].
  rewrite load_store_bytes. f_equal. apply Z.mod_small.
  change (256 ^ Z.of_nat 8) with (2 ^ 64). lia.
Qed.

Lemma heap_lookup_insert_ne (m : memory) a b v :
  a + 8 <= b \/ b + 8 <= a -> <[a := v]> m !! b = m !! b.
Proof.
  intros Hab. unfold lookup, memory_lookup, insert, memory_insert. cbn [bytes].
  apply load_store_bytes_ne. lia.
Qed.

(** ** The claims on the arena *)

Lemma regions_ok_lookup rs (i : nat) r :
  regions_ok rs = true -> rs !! i = Some r ->
  offset_ok r = true /\ size r < 2 ^ 64.
Proof.
  revert i. induction rs as [| r0 rs IH]; intros [| i] Hok Hi; simpl in *; try done.
  - injection Hi as ->.
    apply andb_true_iff in Hok as [Hok _]. apply andb_true_iff in Hok as [Hok _].
    apply andb_true_iff in Hok as [Ho Hs]. split; [done |]. by apply Z.ltb_lt.
  - apply andb_true_iff in Hok as [_ Hok]. by apply (IH i).
Qed.

(** [_arena_find_region] finds the region on top of which the allocation
    lies: no other region of a sound arena contains the pointer. *)
Lemma find_owner_top rs : forall (i n : nat) r ptr hsize,
  regions_ok rs = true -> addressable rs ->
  rs !! i = Some r -> at_top r ptr hsize = true ->
  0 <= hsize ->
  find_owner ptr (u64 (ptr + hsize)) rs n = Some (n + i)%nat.
Proof.
  induction rs as [| r0 rs IH]; intros i n r ptr hsize Hok Had Hi Htop Hh; [done |].
  unfold at_top, sizeof_header in Htop.
  apply andb_true_iff in Htop as [Hlo Hend].
  apply Z.leb_le in Hlo. apply Z.eqb_eq in Hend.
  apply Forall_cons in Had as [[Hm0 Hs0] Had].
  destruct (regions_ok_lookup (r0 :: rs) i r Hok Hi) as [Hor _].
  unfold offset_ok in Hor. apply andb_true_iff in Hor as [Hor1 Hor2].
  apply Z.leb_le in Hor1, Hor2.
  assert (Hr : 0 <= mem r /\ mem r + size r < 2 ^ 64).
  { destruct i as [| i]; simpl in Hi.
    - by injection Hi as <-.
    - apply (proj1 (Forall_lookup _ _) Had i r Hi). }
  assert (He : u64 (ptr + hsize) = ptr + hsize) by (apply u64_small; lia).
  rewrite He.
  destruct i as [| i]; simpl in *.
  - injection Hi as ->.
    rewrite (u64_small (mem r + offset r)) by lia.
    destruct (Z.leb_spec (mem r) ptr); [| lia].
    destruct (Z.leb_spec (ptr + hsize) (mem r + offset r)); [| lia].
    simpl. f_equal. lia.
  - apply andb_true_iff in Hok as [Hok Hrs].
    apply andb_true_iff in Hok as [Hok Hap].
    apply andb_true_iff in Hok as [Ho0 _].
    unfold offset_ok in Ho0.
    apply andb_true_iff in Ho0 as [Ho00 Ho0]. apply Z.leb_le in Ho00, Ho0.
    assert (Hapart : apart r0 r = true).
    { rewrite forallb_forall in Hap. apply Hap.
      apply list_elem_of_In, list_elem_of_lookup. by exists i. }
    unfold apart in Hapart. apply orb_true_iff in Hapart.
    rewrite !Z.ltb_lt in Hapart.
    rewrite (u64_small (mem r0 + offset r0)) by lia.
    replace ((mem r0 <=? ptr) && (ptr + hsize <=? mem r0 + offset r0)) with false.
    + rewrite <- He. rewrite (IH i (S n) r ptr hsize); try done.
      * f_equal. lia.
      * unfold at_top, sizeof_header.
        apply andb_true_iff. split; [by apply Z.leb_le | by apply Z.eqb_eq].
    + symmetry. apply andb_false_iff.
      destruct (Z.leb_spec (mem r0) ptr); [| by left].
      right. apply Z.leb_gt. lia.
Qed.

(** What [arena_free] does to the allocation on top of its region: the
    offset goes back by [hsize - 8], computed on [size_t]. *)
Lemma free_top w ptr hsize (i : nat) r :
  ptr <> 0 -> heap w !! (ptr - sizeof_header) = Some hsize -> 0 <= hsize ->
  regions_ok (regions (arena w)) = true -> addressable (regions (arena w)) ->
  regions (arena w) !! i = Some r -> at_top r ptr hsize = true ->
  arena_free w ptr
  = Ret (set_regions w
           (<[i := set_offset r (u64 (offset r - u64 (hsize - sizeof_header)))]>
              (regions (arena w)))).
Proof.
  intros Hptr Hhdr Hh Hok Had Hi Htop.
  unfold arena_free. destruct (Z.eqb_spec ptr 0); [done |].
  unfold _arena_find_region, load_header. rewrite Hhdr. simpl.
  rewrite (find_owner_top _ i 0 r ptr hsize Hok Had Hi Htop) by lia. simpl.
  rewrite Hi.
  unfold at_top in Htop. apply andb_true_iff in Htop as [_ Hend].
  apply Z.eqb_eq in Hend. rewrite Hend. by rewrite Z.eqb_refl.
Qed.

(** For a payload of at least 8 bytes the new offset is 8 bytes past the
    address of the freed payload, relative to [mem]: 16 bytes more than the
    offset at which the freed allocation had been made. *)
Lemma free_top_offset_large r ptr hsize :
  offset_ok r = true -> size r < 2 ^ 64 -> at_top r ptr hsize = true ->
  8 <= hsize ->
  u64 (offset r - u64 (hsize - sizeof_header)) = ptr - mem r + 8.
Proof.
  unfold offset_ok, at_top, sizeof_header. intros Ho Hs Htop Hh.
  apply andb_true_iff in Ho as [Ho1 Ho2]. apply Z.leb_le in Ho1, Ho2.
  apply andb_true_iff in Htop as [Hlo Hend].
  apply Z.leb_le in Hlo. apply Z.eqb_eq in Hend.
  unfold u64. rewrite (Z.mod_small (hsize - 8)) by lia.
  rewrite Z.mod_small by lia. lia.
Qed.

(** For a payload below 8 bytes the offset grows. *)
Lemma free_top_offset_small r ptr hsize :
  offset_ok r = true -> size r + 8 < 2 ^ 64 -> at_top r ptr hsize = true ->
  0 <= hsize < 8 ->
  u64 (offset r - u64 (hsize - sizeof_header)) = offset r + (8 - hsize).
Proof.
  unfold offset_ok, at_top, sizeof_header. intros Ho Hs Htop Hh.
  apply andb_true_iff in Ho as [Ho1 Ho2]. apply Z.leb_le in Ho1, Ho2.
  unfold u64.
  replace ((hsize - 8) mod 2 ^ 64) with (hsize - 8 + 2 ^ 64).
  - replace (offset r - (hsize - 8 + 2 ^ 64))
      with (offset r + (8 - hsize) + (-1) * 2 ^ 64) by lia.
    rewrite Z.mod_add by lia. apply Z.mod_small. lia.
  - symmetry. replace (hsize - 8) with (hsize - 8 + 2 ^ 64 + (-1) * 2 ^ 64) at 1 by lia.
    rewrite Z.mod_add by lia. apply Z.mod_small. lia.
Qed.

(** [arena_alloc] and [arena_realloc] keep [0 <= offset <= size] in every
    region; the invariant is lost in [arena_free] alone. *)
Lemma find_fit_Some required rs : forall (n i : nat),
  find_fit required rs n = Some i ->
  exists r, rs !! (i - n)%nat = Some r /\ (n <= i)%nat /\
            required <= u64 (size r - offset r).
Proof.
  induction rs as [| r0 rs IH]; intros n i Hf; simpl in *; [done |].
  destruct (Z.leb_spec required (u64 (size r0 - offset r0))).
  - injection Hf as <-. exists r0. rewrite Nat.sub_diag. by repeat split.
  - destruct (IH (S n) i Hf) as (r & Hr & Hle & Hfit).
    exists r. replace (i - n)%nat with (S (i - S n)) by lia. by repeat split; try lia.
Qed.

Lemma bump_keeps w (i : nat) sz required p w' :
  sizes_ok (regions (arena w)) ->
  (forall r, regions (arena w) !! i = Some r -> 0 <= required <= size r - offset r) ->
  bump w i sz required = Ret (p, w') ->
  sizes_ok (regions (arena w')).
Proof.
  intros Hok Hfit Hb. unfold bump in Hb.
  destruct (regions (arena w) !! i) as [r |] eqn:Hr; [| done].
  injection Hb as _ <-. simpl.
  destruct (proj1 (Forall_lookup _ _) Hok i r Hr) as [Ho Hs].
  specialize (Hfit r eq_refl).
  apply Forall_insert; [done |]. simpl.
  unfold u64. rewrite Z.mod_small by lia. lia.
Qed.

Lemma append_region_regions w sz w' :
  _arena_append_region w sz = Ret w' ->
  regions (arena w')
  = regions (arena w) ++ [{| size := sz; offset := 0; mem := brk w + sizeof_region |}].
Proof.
  unfold _arena_append_region, backend_alloc.
  destruct (brk w + u64 (sizeof_region + sz) <? 2 ^ 64); [| done].
  by intros [= <-].
Qed.

Lemma alloc_keeps_sizes w sz p w' :
  sizes_ok (regions (arena w)) -> arena_alloc w sz = Ret (p, w') ->
  sizes_ok (regions (arena w')).
Proof.
  intros Hok Ha. unfold arena_alloc in Ha.
  assert (Hreq : 0 <= u64 (sizeof_header + sz) < 2 ^ 64)
    by (unfold u64; apply Z.mod_pos_bound; lia).
  set (required := u64 (sizeof_header + sz)) in *.
  assert (Hw1 : exists w1,
    (match regions (arena w) with [] => arena_init w | _ :: _ => Ret w end) = Ret w1
    /\ sizes_ok (regions (arena w1))).
  { destruct (regions (arena w)) as [| r0 rs] eqn:Hrs.
    - destruct (arena_init w) as [w1 | | |] eqn:Hinit; try done.
      exists w1. split; [done |]. unfold arena_init in Hinit.
      apply append_region_regions in Hinit. rewrite Hinit. simpl. rewrite Hrs.
      constructor; [| constructor]. simpl. unfold ARENA_DEFAULT_CAPACITY. lia.
    - exists w. split; [done | by rewrite Hrs]. }
  destruct Hw1 as (w1 & Hw1 & Hok1). rewrite Hw1 in Ha. simpl in Ha.
  destruct (find_fit required (regions (arena w1)) 0) as [i |] eqn:Hfit.
  - apply find_fit_Some in Hfit as (r & Hr & _ & Hle).
    rewrite Nat.sub_0_r in Hr.
    apply (bump_keeps w1 i sz required p w' Hok1); [| done].
    intros r' Hr'. assert (r' = r) by congruence. subst r'.
    destruct (proj1 (Forall_lookup _ _) Hok1 i r Hr) as [Ho Hs].
    unfold u64 in Hle. rewrite Z.mod_small in Hle by lia. lia.
  - set (sz' := if ARENA_DEFAULT_CAPACITY <? required
                then required else ARENA_DEFAULT_CAPACITY) in *.
    destruct (_arena_append_region w1 sz') as [w2 | | |] eqn:Happ; try done.
    simpl in Ha. apply append_region_regions in Happ.
    assert (Hsz' : required <= sz' < 2 ^ 64).
    { unfold sz', ARENA_DEFAULT_CAPACITY.
      destruct (Z.ltb_spec (2 * 4096) required); lia. }
    apply (bump_keeps w2 (Nat.pred (length (regions (arena w2)))) sz required p w');
      [| | exact Ha].
    + rewrite Happ. apply Forall_app. split; [done |].
      constructor; [| constructor]. simpl. lia.
    + intros r Hr. rewrite Happ, length_app in Hr. simpl in Hr.
      replace (Nat.pred (length (regions (arena w1)) + 1))
        with (length (regions (arena w1)) + 0)%nat in Hr by lia.
      rewrite lookup_app_r in Hr by lia.
      replace (length (regions (arena w1)) + 0 - length (regions (arena w1)))%nat
        with 0%nat in Hr by lia.
      injection Hr as <-. simpl. lia.
Qed.

Lemma realloc_keeps_sizes w ptr sz p w' :
  sizes_ok (regions (arena w)) -> arena_realloc w ptr sz = Ret (p, w') ->
  sizes_ok (regions (arena w')).
Proof.
  intros Hok Hr. unfold arena_realloc in Hr.
  destruct (ptr =? 0); [by eapply alloc_keeps_sizes |].
  destruct (load_header w (ptr - sizeof_header)) as [hsize | | |]; try done.
  simpl in Hr. destruct (Z.leb_spec sz hsize).
  { by injection Hr as _ <-. }
  destruct (_arena_find_region w ptr) as [i | | |]; try done. simpl in Hr.
  destruct (regions (arena w) !! i) as [r |] eqn:Hi; [| done].
  destruct ((u64 (ptr + hsize) =? u64 (mem r + offset r))
            && (u64 (sz - hsize) <=? u64 (size r - offset r))) eqn:Hc.
  - injection Hr as _ <-. simpl.
    apply andb_true_iff in Hc as [_ Hc]. apply Z.leb_le in Hc.
    destruct (proj1 (Forall_lookup _ _) Hok i r Hi) as [Ho Hs].
    assert (0 <= u64 (sz - hsize)) by (unfold u64; apply Z.mod_pos_bound; lia).
    assert (Hx : 0 <= size r - offset r < 2 ^ 64) by lia.
    unfold u64 in Hc at 2. rewrite (Z.mod_small _ _ Hx) in Hc.
    assert (Hy : 0 <= offset r + u64 (sz - hsize) < 2 ^ 64) by lia.
    apply Forall_insert; [done |]. unfold set_offset. cbn [offset size].
    rewrite (u64_small _ Hy). lia.
  - by eapply alloc_keeps_sizes.
Qed.

(** Growing in place on a sound arena.  Let the regions keep
    [0 <= offset <= size], not meet and lie in the address space, let
    [ptr] be the allocation on top of its region [r], of payload size
    [hsize], and let the region have at least [sz - hsize] bytes left.
    Then [arena_realloc(ptr, sz)] with [sz > hsize] writes [sz] into the
    header, advances the offset of [r] by [sz - hsize] in place, changes
    nothing else, and returns [ptr]. *)
Lemma realloc_in_place w ptr sz hsize (i : nat) r :
  ptr <> 0 ->
  heap w !! (ptr - sizeof_header) = Some hsize ->
  0 <= hsize < sz -> sz < 2 ^ 64 ->
  regions_ok (regions (arena w)) = true -> addressable (regions (arena w)) ->
  regions (arena w) !! i = Some r ->
  at_top r ptr hsize = true ->
  sz - hsize <= size r - offset r ->
  arena_realloc w ptr sz
  = Ret (ptr,
         {| arena := {| total := total (arena w);
                        regions := <[i := set_offset r (offset r + (sz - hsize))]>
                                     (regions (arena w)) |};
            heap := <[ptr - sizeof_header := sz]> (heap w);
            brk := brk w |}).
Proof.
  intros Hptr Hhdr Hsz Hmax Hok Had Hi Htop Hroom.
  destruct (regions_ok_lookup _ i r Hok Hi) as [Ho Hs].
  unfold offset_ok in Ho. apply andb_true_iff in Ho as [Ho1 Ho2].
  apply Z.leb_le in Ho1. apply Z.leb_le in Ho2.
  unfold arena_realloc.
  destruct (Z.eqb_spec ptr 0); [done |].
  unfold load_header at 1. rewrite Hhdr. simpl.
  destruct (Z.leb_spec sz hsize); [lia |].
  unfold _arena_find_region, load_header. rewrite Hhdr. simpl.
  rewrite (find_owner_top _ i 0 r ptr hsize Hok Had Hi Htop) by lia. simpl.
  rewrite Hi.
  unfold at_top in Htop. apply andb_true_iff in Htop as [_ Hend].
  apply Z.eqb_eq in Hend. rewrite Hend, Z.eqb_refl. simpl.
  assert (H1 : u64 (sz - hsize) = sz - hsize) by (unfold u64; apply Z.mod_small; lia).
  assert (H2 : u64 (size r - offset r) = size r - offset r)
    by (unfold u64; apply Z.mod_small; lia).
  rewrite H1, H2.
  destruct (Z.leb_spec (sz - hsize) (size r - offset r)); [| lia].
  assert (H3 : u64 (offset r + (sz - hsize)) = offset r + (sz - hsize))
    by (unfold u64; apply Z.mod_small; lia).
  rewrite H3. reflexivity.
Qed.

(** Growing in place at a concrete input: the second allocation of
    [demo_world] grows from 32 to 100 bytes. *)
Lemma realloc_in_place_witness :
  exists w', arena_realloc demo_world 4152 100 = Ret (4152, w') /\
             regions (arena w') = [{| size := 8192; offset := 132; mem := 4120 |}] /\
             heap w' !! 4144 = Some 100.
Proof.
  eexists. split.
  - apply (realloc_in_place demo_world 4152 100 32 0%nat
             {| size := 8192; offset := 64; mem := 4120 |}).
    + lia.
    + vm_compute. reflexivity.
    + lia.
    + lia.
    + reflexivity.
    + repeat constructor; simpl; lia.
    + reflexivity.
    + reflexivity.
    + simpl. lia.
  - split; [reflexivity |]. vm_compute. reflexivity.
Defined.

(** [demo_world] is what the two allocations leave. *)
Lemma demo_world_reached :
  (do r1 <- arena_alloc (fresh 4096) 16;
   do r2 <- arena_alloc (snd r1) 32;
   Ret (fst r1, fst r2, regions (arena (snd r2)),
        heap (snd r2) !! 4120, heap (snd r2) !! 4144, brk (snd r2)))
  = Ret (4128, 4152, regions (arena demo_world),
         heap demo_world !! 4120, heap demo_world !! 4144, brk demo_world).
Proof. vm_compute. reflexivity. Qed.

(** C3 at its failing input: A of 16 bytes and B of 32 bytes are allocated
    in one region, B is freed, and C of 32 bytes is allocated.  B was at
    4152; [arena_free] moved the offset back by [32 - 8] and not by
    [32 + 8], and C is at 4168. *)
Theorem free_top_not_reused :
  (do r1 <- arena_alloc (fresh 4096) 16;
   do r2 <- arena_alloc (snd r1) 32;
   do w3 <- arena_free (snd r2) (fst r2);
   do r4 <- arena_alloc w3 32;
   Ret (fst r1, fst r2, regions (arena w3), fst r4))
  = Ret (4128, 4152, [{| size := 8192; offset := 40; mem := 4120 |}], 4168).
Proof. vm_compute. reflexivity. Qed.

(** Freeing A instead, which is not on top of its region, changes no
    offset, and the next allocation lies after B. *)
Lemma free_below_top_noop :
  (do r1 <- arena_alloc (fresh 4096) 16;
   do r2 <- arena_alloc (snd r1) 32;
   do w3 <- arena_free (snd r2) (fst r1);
   do r4 <- arena_alloc w3 16;
   Ret (regions (arena (snd r2)), regions (arena w3), fst r4))
  = Ret ([{| size := 8192; offset := 64; mem := 4120 |}],
         [{| size := 8192; offset := 64; mem := 4120 |}], 4192).
Proof. vm_compute. reflexivity. Qed.

(** C5 at its failing input: 8176 bytes and then 0 bytes are allocated,
    which fills the region of 8192 bytes, and the empty allocation is
    freed.  [header->size - sizeof( *header)] wraps around to [2^64 - 8],
    the subtraction adds 8 to the offset, and the region has offset 8200
    and size 8192. *)
Theorem offset_invariant_broken :
  regions_of (do r1 <- arena_alloc (fresh 4096) 8176;
              do r2 <- arena_alloc (snd r1) 0;
              Ret (snd r2))
  = Ret [{| size := 8192; offset := 8192; mem := 4120 |}] /\
  regions_of (do r1 <- arena_alloc (fresh 4096) 8176;
              do r2 <- arena_alloc (snd r1) 0;
              arena_free (snd r2) (fst r2))
  = Ret [{| size := 8192; offset := 8200; mem := 4120 |}] /\
  offset_ok {| size := 8192; offset := 8200; mem := 4120 |} = false.
Proof. repeat split; vm_compute; reflexivity. Qed.


(** The end of an allocation is a sum of 64-bit pointers.  After
    allocations of 16, 32 and [2^64 - 1] bytes the offset of the region is
    71 and the third block is at 4192; its end wraps around to 4191, the
    offset of the region, so the region owns it and [arena_free] of it
    returns, with the offset at 80. *)
Lemma free_wrapped_end :
  exists ps w,
    calls (fresh 4096) [Alloc 16; Alloc 32; Alloc (2 ^ 64 - 1)] = Ret (ps, w) /\
    ps = [4128; 4152; 4192] /\
    regions (arena w) = [{| size := 8192; offset := 71; mem := 4120 |}] /\
    heap w !! 4184 = Some (2 ^ 64 - 1) /\
    foreign (regions (arena w)) 4192 (2 ^ 64 - 1) = false /\
    regions_of (arena_free w 4192)
    = Ret [{| size := 8192; offset := 80; mem := 4120 |}].
Proof.
  eexists _, _. split; [vm_compute; reflexivity |].
  repeat split; vm_compute; reflexivity.
Qed.

(** A header that is written less than 8 bytes after another one changes
    it.  On the arena above an allocation of 16 bytes has its header at
    4191, and the header at 4184 loses its last byte to it. *)
Lemma header_overlap :
  exists ps w p w',
    calls (fresh 4096) [Alloc 16; Alloc 32; Alloc (2 ^ 64 - 1)] = Ret (ps, w) /\
    heap w !! 4184 = Some (2 ^ 64 - 1) /\
    arena_alloc w 16 = Ret (p, w') /\ p - sizeof_header = 4191 /\
    heap w' = <[4191 := 16]> (heap w) /\
    heap w' !! 4191 = Some 16 /\
    heap w' !! 4184 = Some (16 * 2 ^ 56 + (2 ^ 56 - 1)).
Proof.
  eexists _, _, _, _. split; [vm_compute; reflexivity |].
  split; [vm_compute; reflexivity |].
  split; [vm_compute; reflexivity |].
  repeat split; vm_compute; reflexivity.
Qed.

(** ** Further properties of the allocator *)

Lemma tiled_le rs : forall a b, tiled a rs b -> a <= b.
Proof.
  induction rs as [| r rs IH]; intros a b H; simpl in H.
  - lia.
  - destruct H as (Hm & Hs & Hrest). apply IH in Hrest.
    unfold sizeof_region in *. lia.
Qed.

Lemma tiled_bounds rs : forall a b (i : nat) r,
  tiled a rs b -> rs !! i = Some r ->
  a + sizeof_region <= mem r /\ 0 <= size r /\ mem r + size r <= b.
Proof.
  induction rs as [| r0 rs IH]; intros a b i r H Hi; [done |].
  simpl in H. destruct H as (Hm & Hs & Hrest).
  destruct i as [| i]; simpl in Hi.
  - injection Hi as <-. apply tiled_le in Hrest. lia.
  - destruct (IH _ _ i r Hrest Hi) as (H1 & H2 & H3).
    unfold sizeof_region in *. lia.
Qed.

Lemma tiled_order rs : forall a b (i j : nat) r r',
  tiled a rs b -> (i < j)%nat -> rs !! i = Some r -> rs !! j = Some r' ->
  mem r + size r + sizeof_region <= mem r'.
Proof.
  induction rs as [| r0 rs IH]; intros a b i j r r' H Hij Hi Hj; [done |].
  simpl in H. destruct H as (Hm & Hs & Hrest).
  destruct j as [| j]; [lia |]. simpl in Hj.
  destruct i as [| i]; simpl in Hi.
  - injection Hi as <-. by destruct (tiled_bounds _ _ _ j r' Hrest Hj) as (? & _).
  - apply (IH _ _ i j r r' Hrest); [lia | done | done].
Qed.

Lemma tiled_snoc rs : forall a b r,
  tiled a rs b -> mem r = b + sizeof_region -> 0 <= size r ->
  tiled a (rs ++ [r]) (mem r + size r).
Proof.
  induction rs as [| r0 rs IH]; intros a b r H Hm Hs; simpl in *.
  - subst a. done.
  - destruct H as (Hm0 & Hs0 & Hrest). split; [done |]. split; [done |].
    by apply (IH _ b).
Qed.

Lemma tiled_set_offset rs : forall a b (i : nat) r o,
  tiled a rs b -> rs !! i = Some r -> tiled a (<[i := set_offset r o]> rs) b.
Proof.
  induction rs as [| r0 rs IH]; intros a b i r o H Hi; [done |].
  simpl in H. destruct H as (Hm & Hs & Hrest).
  destruct i as [| i]; simpl in *.
  - injection Hi as <-. done.
  - split; [done |]. split; [done |]. by apply IH.
Qed.

Lemma tiled_regions_ok rs : forall a b,
  tiled a rs b -> 0 <= a -> b < 2 ^ 64 ->
  Forall (fun r => 0 <= offset r <= size r) rs -> regions_ok rs = true.
Proof.
  induction rs as [| r rs IH]; intros a b H Ha Hb Hoff; [done |].
  simpl in H. destruct H as (Hm & Hs & Hrest).
  apply Forall_cons in Hoff as [Ho Hoff].
  pose proof (tiled_le _ _ _ Hrest) as Hle.
  simpl. rewrite !andb_true_iff. unfold sizeof_region in *.
  split; [split; [split |] |].
  - unfold offset_ok. apply andb_true_iff. split; apply Z.leb_le; lia.
  - apply Z.ltb_lt. lia.
  - apply forallb_forall. intros r' Hin.
    apply list_elem_of_In, list_elem_of_lookup in Hin as [j Hj].
    destruct (tiled_bounds _ _ _ j r' Hrest Hj) as (H1 & _).
    unfold apart. apply orb_true_iff. left. apply Z.ltb_lt.
    unfold sizeof_region in H1. lia.
  - apply (IH _ b Hrest); [lia | done | done].
Qed.

Lemma world_ok_regions_ok base w :
  world_ok base w -> regions_ok (regions (arena w)) = true.
Proof.
  intros (Hb & Hbrk & Ht & Ho & _). by apply (tiled_regions_ok _ base (brk w)).
Qed.

Lemma world_ok_region base w (i : nat) r :
  world_ok base w -> regions (arena w) !! i = Some r ->
  0 <= offset r <= size r /\ sizeof_region <= mem r /\ mem r + size r <= brk w.
Proof.
  intros (Hb & Hbrk & Ht & Ho & _) Hi.
  destruct (tiled_bounds _ _ _ i r Ht Hi) as (H1 & H2 & H3).
  split; [apply (proj1 (Forall_lookup _ _) Ho i r Hi) |]. lia.
Qed.

(** The first-fit scan. *)
Lemma find_fit_first required rs : forall (n i : nat) r,
  rs !! i = Some r -> required <= u64 (size r - offset r) ->
  (forall (j : nat) r', (j < i)%nat -> rs !! j = Some r' ->
     u64 (size r' - offset r') < required) ->
  find_fit required rs n = Some (n + i)%nat.
Proof.
  induction rs as [| r0 rs IH]; intros n i r Hi Hfit Hfirst; [done |].
  simpl. destruct i as [| i]; simpl in Hi.
  - injection Hi as ->. destruct (Z.leb_spec required (u64 (size r - offset r))); [| lia].
    f_equal. lia.
  - pose proof (Hfirst 0%nat r0 ltac:(lia) eq_refl) as H0.
    destruct (Z.leb_spec required (u64 (size r0 - offset r0))); [lia |].
    rewrite (IH (S n) i r Hi Hfit).
    + f_equal. lia.
    + intros j r' Hj Hr'. apply (Hfirst (S j) r'); [lia | done].
Qed.

Lemma find_fit_None required rs : forall (n : nat),
  find_fit required rs n = None <->
  Forall (fun r => u64 (size r - offset r) < required) rs.
Proof.
  induction rs as [| r0 rs IH]; intros n; simpl.
  - split; [constructor | done].
  - destruct (Z.leb_spec required (u64 (size r0 - offset r0))).
    + split; [done |]. intros H0. apply Forall_cons in H0 as [? _]. lia.
    + rewrite IH. split.
      * intros. by constructor.
      * intros H0. by apply Forall_cons in H0 as [_ ?].
Qed.

Lemma find_fit_least required rs : forall (n i : nat),
  find_fit required rs n = Some i ->
  forall (j : nat) r', (j < i - n)%nat -> rs !! j = Some r' ->
    u64 (size r' - offset r') < required.
Proof.
  induction rs as [| r0 rs IH]; intros n i Hf j r' Hj Hr'; simpl in *; [done |].
  destruct (Z.leb_spec required (u64 (size r0 - offset r0))).
  - injection Hf as <-. lia.
  - destruct j as [| j]; simpl in Hr'.
    + by injection Hr' as <-.
    + apply (IH (S n) i Hf j r'); [lia | done].
Qed.

Lemma alloc_skip_init w :
  regions (arena w) <> [] ->
  (match regions (arena w) with [] => arena_init w | _ :: _ => Ret w end) = Ret w.
Proof. by destruct (regions (arena w)). Qed.

(** What [arena_alloc] does on an arena that has regions, when region [i]
    is the one the scan stops on. *)
Lemma alloc_fit w sz (i : nat) r :
  regions (arena w) !! i = Some r ->
  find_fit (u64 (sizeof_header + sz)) (regions (arena w)) 0 = Some i ->
  arena_alloc w sz
  = Ret (mem r + offset r + sizeof_header,
         {| arena := {| total := total (arena w);
                        regions := <[i := set_offset r
                                             (u64 (offset r + u64 (sizeof_header + sz)))]>
                                     (regions (arena w)) |};
            heap := <[mem r + offset r := sz]> (heap w);
            brk := brk w |}).
Proof.
  intros Hi Hfit. unfold arena_alloc.
  rewrite alloc_skip_init by (intros E; by rewrite E in Hi).
  simpl obind. rewrite Hfit. unfold bump. rewrite Hi. done.
Qed.

(** What it does when the scan finds no region. *)
Lemma alloc_append w sz :
  regions (arena w) <> [] ->
  find_fit (u64 (sizeof_header + sz)) (regions (arena w)) 0 = None ->
  let required := u64 (sizeof_header + sz) in
  let rsz := if ARENA_DEFAULT_CAPACITY <? required
             then required else ARENA_DEFAULT_CAPACITY in
  brk w + u64 (sizeof_region + rsz) < 2 ^ 64 ->
  arena_alloc w sz
  = Ret (brk w + sizeof_region + sizeof_header,
         {| arena := {| total := u64 (total (arena w) + u64 (sizeof_region + rsz));
                        regions := regions (arena w)
                                   ++ [{| size := rsz; offset := u64 (0 + required);
                                          mem := brk w + sizeof_region |}] |};
            heap := <[brk w + sizeof_region := sz]> (heap w);
            brk := brk w + u64 (sizeof_region + rsz) |}).
Proof.
  intros Hne Hfit required rsz Hbrk. unfold arena_alloc.
  rewrite alloc_skip_init by done.
  simpl obind. rewrite Hfit. fold required. fold rsz.
  unfold _arena_append_region, backend_alloc.
  destruct (Z.ltb_spec (brk w + u64 (sizeof_region + rsz)) (2 ^ 64)); [| lia].
  simpl obind. unfold bump. cbn [regions arena set_arena].
  rewrite length_app. cbn [length].
  replace (Nat.pred (length (regions (arena w)) + 1))
    with (length (regions (arena w)) + 0)%nat by lia.
  rewrite lookup_app_r by lia.
  replace (length (regions (arena w)) + 0 - length (regions (arena w)))%nat
    with 0%nat by lia.
  cbn [lookup list_lookup]. unfold set_regions, set_arena, store_header.
  cbn [regions arena heap brk total mem offset size].
  rewrite insert_app_r. cbn [insert list_insert]. rewrite Z.add_0_r.
  done.
Qed.

(** The first allocation on a zero-initialised arena starts with
    [arena_init]. *)
Lemma alloc_init w sz :
  regions (arena w) = [] ->
  brk w + (sizeof_region + ARENA_DEFAULT_CAPACITY) < 2 ^ 64 ->
  arena_alloc w sz
  = arena_alloc
      {| arena := {| total := sizeof_region + ARENA_DEFAULT_CAPACITY;
                     regions := [{| size := ARENA_DEFAULT_CAPACITY; offset := 0;
                                    mem := brk w + sizeof_region |}] |};
         heap := heap w;
         brk := brk w + (sizeof_region + ARENA_DEFAULT_CAPACITY) |} sz.
Proof.
  intros Hrs Hbrk. unfold arena_alloc at 1. rewrite Hrs.
  unfold arena_init, _arena_append_region, backend_alloc.
  cbn [brk set_arena arena heap total regions]. rewrite Hrs.
  change (u64 (sizeof_region + ARENA_DEFAULT_CAPACITY))
    with (sizeof_region + ARENA_DEFAULT_CAPACITY).
  destruct (Z.ltb_spec (brk w + (sizeof_region + ARENA_DEFAULT_CAPACITY)) (2 ^ 64));
    [| lia].
  unfold arena_alloc at 1. reflexivity.
Qed.

Lemma alloc_nonempty base w sz :
  world_ok base w -> regions (arena w) <> [] -> 0 <= sz ->
  brk w + (sizeof_region + sizeof_header + sz + ARENA_DEFAULT_CAPACITY) < 2 ^ 64 ->
  exists p w' (i : nat) r,
    arena_alloc w sz = Ret (p, w') /\ world_ok base w' /\
    brk w <= brk w' <=
      brk w + (sizeof_region + sizeof_header + sz + ARENA_DEFAULT_CAPACITY) /\
    regions (arena w') !! i = Some r /\ at_top r p sz = true /\
    p + sz <= mem r + size r /\
    heap w' = <[p - sizeof_header := sz]> (heap w) /\
    (forall (j : nat) r', (j < i)%nat -> regions (arena w') !! j = Some r' ->
       size r' - offset r' < sizeof_header + sz) /\
    forall q hq, 0 <= hq -> block_in (regions (arena w)) q hq ->
      block_in (regions (arena w')) q hq /\ disjoint q hq p sz.
Proof.
  intros Hok Hne Hsz Hroom.
  pose proof Hok as (Hbase & Hbrk & Htiled & Hoff & Htotal).
  pose proof (tiled_le _ _ _ Htiled) as Hle.
  unfold sizeof_region, sizeof_header, ARENA_DEFAULT_CAPACITY in *.
  assert (Hreq : u64 (8 + sz) = 8 + sz) by (apply u64_small; lia).
  destruct (find_fit (u64 (sizeof_header + sz)) (regions (arena w)) 0) as [i |] eqn:Hfit.
  - destruct (find_fit_Some _ _ _ _ Hfit) as (r & Hi & _ & Hle').
    rewrite Nat.sub_0_r in Hi.
    destruct (world_ok_region base w i r Hok Hi) as (Ho & Hm & Hms).
    unfold sizeof_region, sizeof_header in *. rewrite Hreq in Hle'.
    rewrite (u64_small (size r - offset r)) in Hle' by lia.
    pose proof (alloc_fit w sz i r Hi Hfit) as Ha.
    unfold sizeof_header in Ha. rewrite Hreq in Ha.
    rewrite (u64_small (offset r + (8 + sz))) in Ha by lia.
    apply lookup_lt_Some in Hi as Hlt.
    eexists _, _, i, (set_offset r (offset r + (8 + sz))).
    split; [exact Ha |]. cbn [arena regions brk heap total].
    split.
    { split; [done |]. split; [done |]. cbn [arena regions brk heap total].
      split; [by apply tiled_set_offset |].
      split; [| done]. apply Forall_insert; [done |]. simpl. lia. }
    split; [lia |]. split; [by apply list_lookup_insert_eq |].
    split.
    { unfold at_top, sizeof_header. simpl. apply andb_true_iff.
      split; [apply Z.leb_le | apply Z.eqb_eq]; lia. }
    split; [simpl; lia |].
    split; [f_equal; lia |].
    split.
    { intros j r' Hj Hr'. rewrite list_lookup_insert_ne in Hr' by lia.
      pose proof (find_fit_least _ _ _ _ Hfit j r' ltac:(lia) Hr') as Hl.
      destruct (world_ok_region base w j r' Hok Hr') as (Ho' & Hm' & Hms').
      unfold sizeof_region, sizeof_header in *. rewrite Hreq in Hl.
      rewrite (u64_small (size r' - offset r')) in Hl by lia. lia. }
    intros q hq Hhq (j & rj & Hj & Hin1 & Hin2). unfold sizeof_header in *.
    destruct (Nat.eq_dec j i) as [-> | Hji].
    + assert (rj = r) by congruence. subst rj. split.
      * exists i, (set_offset r (offset r + (8 + sz))).
        split; [by apply list_lookup_insert_eq |].
        unfold inside, sizeof_header. simpl. lia.
      * left. unfold sizeof_header. lia.
    + split.
      * exists j, rj. split; [by rewrite list_lookup_insert_ne | done].
      * destruct (world_ok_region base w j rj Hok Hj) as (Hoj & Hmj & Hmsj).
        unfold disjoint, sizeof_header.
        destruct (Nat.lt_ge_cases j i) as [Hl | Hg].
        -- pose proof (tiled_order _ _ _ j i rj r Htiled Hl Hj Hi) as Hord.
           unfold sizeof_region in Hord. left. lia.
        -- pose proof (tiled_order _ _ _ i j r rj Htiled ltac:(lia) Hi Hj) as Hord.
           unfold sizeof_region in Hord. right. lia.
  - set (required := u64 (sizeof_header + sz)) in *.
    set (rsz := if ARENA_DEFAULT_CAPACITY <? required
                then required else ARENA_DEFAULT_CAPACITY).
    assert (Hrsz : 8 + sz <= rsz <= 8 + sz + 8192 /\ 8192 <= rsz).
    { unfold rsz, required, sizeof_header, ARENA_DEFAULT_CAPACITY. rewrite Hreq.
      destruct (Z.ltb_spec (2 * 4096) (8 + sz)); lia. }
    assert (Hblk : u64 (sizeof_region + rsz) = 24 + rsz)
      by (unfold sizeof_region; apply u64_small; lia).
    pose proof (alloc_append w sz Hne Hfit) as Ha. cbv zeta in Ha.
    fold required in Ha. fold rsz in Ha. rewrite Hblk in Ha.
    specialize (Ha ltac:(lia)).
    unfold sizeof_region, sizeof_header in Ha.
    rewrite (u64_small (total (arena w) + (24 + rsz))) in Ha by lia.
    assert (Hreq' : u64 (0 + required) = 8 + sz) by (unfold required, sizeof_header; by rewrite Z.add_0_l, Hreq, Hreq).
    rewrite Hreq' in Ha.
    eexists _, _, (length (regions (arena w))), _.
    split; [exact Ha |]. cbn [arena regions brk heap total].
    split.
    { split; [done |]. split; [cbn [brk]; lia |]. cbn [arena regions brk heap total].
      split.
      - replace (brk w + (24 + rsz)) with
          (mem {| size := rsz; offset := 8 + sz; mem := brk w + 24 |}
           + size {| size := rsz; offset := 8 + sz; mem := brk w + 24 |})
          by (simpl; lia).
        apply (tiled_snoc _ base (brk w)); [done | done | simpl; lia].
      - split; [| lia]. apply Forall_app. split; [done |].
        constructor; [simpl; lia | constructor]. }
    split; [lia |].
    split.
    { rewrite lookup_app_r by lia. by rewrite Nat.sub_diag. }
    split.
    { unfold at_top, sizeof_header. simpl. apply andb_true_iff.
      split; [apply Z.leb_le | apply Z.eqb_eq]; lia. }
    split; [simpl; lia |].
    split; [f_equal; lia |].
    split.
    { intros j r' Hj Hr'. rewrite lookup_app_l in Hr' by lia.
      apply find_fit_None in Hfit.
      pose proof (proj1 (Forall_lookup _ _) Hfit j r' Hr') as Hl. simpl in Hl.
      destruct (world_ok_region base w j r' Hok Hr') as (Ho' & Hm' & Hms').
      unfold required, sizeof_region, sizeof_header in *. rewrite Hreq in Hl.
      rewrite (u64_small (size r' - offset r')) in Hl by lia. lia. }
    intros q hq Hhq (j & rj & Hj & Hin1 & Hin2). unfold sizeof_header in *.
    destruct (world_ok_region base w j rj Hok Hj) as (Hoj & Hmj & Hmsj).
    split.
    + exists j, rj. split; [by apply lookup_app_l_Some | done].
    + left. unfold sizeof_header. lia.
Qed.

Lemma fresh_ok base : 0 <= base < 2 ^ 64 -> world_ok base (fresh base).
Proof.
  intros Hb. unfold world_ok, fresh. simpl.
  split; [lia |]. split; [lia |]. split; [done |]. split; [constructor | lia].
Qed.

Lemma alloc_block base w sz :
  world_ok base w -> 0 <= sz -> brk w + room [sz] < 2 ^ 64 ->
  exists p w' (i : nat) r,
    arena_alloc w sz = Ret (p, w') /\ world_ok base w' /\
    brk w <= brk w' <= brk w + room [sz] /\
    regions (arena w') !! i = Some r /\ at_top r p sz = true /\
    p + sz <= mem r + size r /\
    heap w' = <[p - sizeof_header := sz]> (heap w) /\
    (forall (j : nat) r', (j < i)%nat -> regions (arena w') !! j = Some r' ->
       size r' - offset r' < sizeof_header + sz) /\
    forall q hq, 0 <= hq -> block_in (regions (arena w)) q hq ->
      block_in (regions (arena w')) q hq /\ disjoint q hq p sz.
Proof.
  intros Hok Hsz Hroom.
  unfold room in Hroom. cbn [foldr] in Hroom.
  unfold sizeof_region, sizeof_header, ARENA_DEFAULT_CAPACITY in Hroom.
  destruct (regions (arena w)) as [| r0 rs] eqn:Hrs.
  - pose proof Hok as (Hbase & Hbrk & Htiled & Hoff & Htotal).
    rewrite Hrs in Htiled. simpl in Htiled.
    rewrite (alloc_init w sz Hrs)
      by (unfold sizeof_region, ARENA_DEFAULT_CAPACITY; lia).
    set (w1 := {| arena := _; heap := heap w; brk := _ |}).
    destruct (alloc_nonempty base w1 sz) as (p & w' & i & r & Ha & Hok' & Hb & Hrest).
    + unfold w1, world_ok, sizeof_region, ARENA_DEFAULT_CAPACITY. simpl.
      unfold sizeof_region.
      split; [lia |]. split; [lia |]. split; [lia |].
      split; [| lia]. constructor; [simpl; lia | constructor].
    + done.
    + done.
    + unfold w1, sizeof_region, sizeof_header, ARENA_DEFAULT_CAPACITY. simpl. lia.
    + exists p, w', i, r. split; [done |]. split; [done |].
      split.
      { unfold room. cbn [foldr].
        unfold w1, sizeof_region, sizeof_header, ARENA_DEFAULT_CAPACITY in *.
        simpl in Hb. lia. }
      destruct Hrest as (Hi & Htop & Hend & Hheap & Hleast & _).
      split; [done |]. split; [done |]. split; [done |]. split; [done |].
      split; [done |].
      intros q hq _ (j & rj & Hj & _). done.
  - destruct (alloc_nonempty base w sz) as (p & w' & i & r & Ha & Hok' & Hb & Hrest).
    + done.
    + by rewrite Hrs.
    + done.
    + unfold sizeof_region, sizeof_header, ARENA_DEFAULT_CAPACITY. lia.
    + exists p, w', i, r. split; [done |]. split; [done |].
      split.
      { unfold room. cbn [foldr].
        unfold sizeof_region, sizeof_header, ARENA_DEFAULT_CAPACITY in *. lia. }
      by rewrite <- Hrs.
Qed.

(** X15: an allocation on a sound arena with room in the backend returns
    a block that lies, header included, in one region and on top of it; the
    8 bytes of its header, which receive the size, are the only bytes of
    memory that are written, and the block meets no allocation that lay in
    the used part of a region before.  The arena stays sound. *)
Theorem alloc_fresh_block base w sz :
  world_ok base w -> 0 <= sz -> brk w + room [sz] < 2 ^ 64 ->
  exists p w' (i : nat) r,
    arena_alloc w sz = Ret (p, w') /\ world_ok base w' /\
    regions (arena w') !! i = Some r /\ at_top r p sz = true /\
    p + sz <= mem r + size r /\
    heap w' = <[p - sizeof_header := sz]> (heap w) /\
    forall q hq, 0 <= hq -> block_in (regions (arena w)) q hq ->
      block_in (regions (arena w')) q hq /\ disjoint q hq p sz.
Proof.
  intros Hok Hsz Hroom.
  destruct (alloc_block base w sz Hok Hsz Hroom)
    as (p & w' & i & r & Ha & Hok' & _ & Hi & Htop & Hend & Hheap & _ & Hold).
  by exists p, w', i, r.
Qed.

Lemma room_cons sz sizes :
  room (sz :: sizes) = room [sz] + room sizes.
Proof. unfold room. simpl. lia. Qed.

Lemma room_nonneg sizes : Forall (fun sz => 0 <= sz) sizes -> 0 <= room sizes.
Proof.
  induction 1 as [| sz sizes Hsz _ IH]; [done |].
  rewrite room_cons. unfold room at 1. simpl.
  unfold sizeof_region, sizeof_header, ARENA_DEFAULT_CAPACITY. lia.
Qed.

Lemma at_top_inside r p sz : at_top r p sz = true -> inside r p sz.
Proof.
  unfold at_top, inside. rewrite andb_true_iff, Z.leb_le, Z.eqb_eq. lia.
Qed.

Lemma disjoint_headers q hq p sz :
  0 <= hq -> 0 <= sz -> disjoint q hq p sz ->
  p - sizeof_header + 8 <= q - sizeof_header \/
  q - sizeof_header + 8 <= p - sizeof_header.
Proof. unfold disjoint, sizeof_header. lia. Qed.

Lemma alloc_all_ok base : forall sizes w,
  world_ok base w -> Forall (fun sz => 0 <= sz) sizes ->
  brk w + room sizes < 2 ^ 64 ->
  exists ps w',
    alloc_all w sizes = Ret (ps, w') /\ world_ok base w' /\
    length ps = length sizes /\
    (forall q hq, 0 <= hq -> block_in (regions (arena w)) q hq ->
       block_in (regions (arena w')) q hq /\
       heap w' !! (q - sizeof_header) = heap w !! (q - sizeof_header) /\
       forall (i : nat) p s, ps !! i = Some p -> sizes !! i = Some s ->
                             disjoint q hq p s) /\
    (forall (i : nat) p s, ps !! i = Some p -> sizes !! i = Some s ->
       block_in (regions (arena w')) p s /\
       heap w' !! (p - sizeof_header) = Some s) /\
    (forall (i j : nat) p s q t, (i < j)%nat ->
       ps !! i = Some p -> sizes !! i = Some s ->
       ps !! j = Some q -> sizes !! j = Some t -> disjoint p s q t).
Proof.
  induction sizes as [| sz sizes IH]; intros w Hok Hall Hroom.
  - exists [], w. split; [done |]. split; [done |]. split; [done |].
    split; [| split]; [| done | done].
    intros q hq _ Hq. split; [done |]. split; [done |]. done.
  - apply Forall_cons in Hall as [Hsz Hall].
    rewrite room_cons in Hroom. pose proof (room_nonneg sizes Hall) as Hnn.
    destruct (alloc_block base w sz Hok Hsz)
      as (p & w1 & i1 & r1 & Ha & Hok1 & Hb & Hi1 & Htop & Hend & Hheap & _ & Hold);
      [lia |].
    destruct (IH w1 Hok1 Hall) as (ps & w' & Hall' & Hok' & Hlen & Hold' & Hnew & Hpair);
      [lia |].
    assert (Hp1 : block_in (regions (arena w1)) p sz)
      by (exists i1, r1; split; [done | by apply at_top_inside]).
    destruct (Hold' p sz Hsz Hp1) as (Hp' & Hph & Hpd).
    exists (p :: ps), w'. cbn [alloc_all]. rewrite Ha. cbn [obind fst snd].
    rewrite Hall'. cbn [obind fst snd].
    split; [done |]. split; [done |]. split; [simpl; by rewrite Hlen |].
    split; [| split].
    + intros q hq Hhq Hq. destruct (Hold q hq Hhq Hq) as (Hq1 & Hqd).
      destruct (Hold' q hq Hhq Hq1) as (Hq' & Hqh & Hqds).
      split; [done |]. split.
      * rewrite Hqh, Hheap. apply heap_lookup_insert_ne.
        by apply (disjoint_headers q hq p sz Hhq Hsz Hqd).
      * intros [| i] p0 s0 Hp0 Hs0; simpl in *.
        -- injection Hp0 as <-. by injection Hs0 as <-.
        -- by apply (Hqds i).
    + intros [| i] p0 s0 Hp0 Hs0; simpl in *.
      * injection Hp0 as <-. injection Hs0 as <-. split; [done |].
        rewrite Hph, Hheap. apply heap_lookup_insert.
        pose proof Hok as (Hb0 & _ & Htl & _). apply tiled_le in Htl.
        fold (room sizes) in Hroom.
        unfold sizeof_region, sizeof_header, ARENA_DEFAULT_CAPACITY in Hroom. lia.
      * by apply (Hnew i).
    + intros [| i] [| j] p0 s0 q0 t0 Hij Hp0 Hs0 Hq0 Ht0; simpl in *; try lia.
      * injection Hp0 as <-. injection Hs0 as <-. by apply (Hpd j).
      * apply (Hpair i j); try done. lia.
Qed.

(** X16: allocations never overlap.  Any number of allocations of any
    sizes on a zero-initialised arena, with room in the backend, all
    return; every block lies with its header in the used part of a region,
    its header holds its size, and no two blocks meet, headers included. *)
Theorem allocations_disjoint base sizes :
  0 <= base -> Forall (fun sz => 0 <= sz) sizes -> base + room sizes < 2 ^ 64 ->
  exists ps w',
    alloc_all (fresh base) sizes = Ret (ps, w') /\ length ps = length sizes /\
    (forall (i : nat) p s, ps !! i = Some p -> sizes !! i = Some s ->
       block_in (regions (arena w')) p s /\
       heap w' !! (p - sizeof_header) = Some s) /\
    (forall (i j : nat) p s q t, (i < j)%nat ->
       ps !! i = Some p -> sizes !! i = Some s ->
       ps !! j = Some q -> sizes !! j = Some t -> disjoint p s q t).
Proof.
  intros Hbase Hall Hroom. pose proof (room_nonneg sizes Hall) as Hnn.
  destruct (alloc_all_ok base sizes (fresh base))
    as (ps & w' & Ha & _ & Hlen & _ & Hnew & Hpair).
  - apply fresh_ok. lia.
  - done.
  - done.
  - by exists ps, w'.
Qed.

(** The two cases of [arena_alloc] on a sound arena that has regions: a
    region with room, and none. *)
Lemma alloc_exact base w sz :
  world_ok base w -> regions (arena w) <> [] ->
  0 <= sz -> sz + sizeof_region + sizeof_header < 2 ^ 64 ->
  (forall (i : nat) r,
     regions (arena w) !! i = Some r ->
     sizeof_header + sz <= size r - offset r ->
     (forall (j : nat) r', (j < i)%nat -> regions (arena w) !! j = Some r' ->
        size r' - offset r' < sizeof_header + sz) ->
     arena_alloc w sz
     = Ret (mem r + offset r + sizeof_header,
            {| arena := {| total := total (arena w);
                           regions := <[i := set_offset r
                                                (offset r + (sizeof_header + sz))]>
                                        (regions (arena w)) |};
               heap := <[mem r + offset r := sz]> (heap w);
               brk := brk w |})) /\
  (Forall (fun r' => size r' - offset r' < sizeof_header + sz) (regions (arena w)) ->
   let rsz := Z.max (sizeof_header + sz) ARENA_DEFAULT_CAPACITY in
   brk w + sizeof_region + rsz < 2 ^ 64 ->
   arena_alloc w sz
   = Ret (brk w + sizeof_region + sizeof_header,
          {| arena := {| total := total (arena w) + sizeof_region + rsz;
                         regions := regions (arena w)
                                    ++ [{| size := rsz; offset := sizeof_header + sz;
                                           mem := brk w + sizeof_region |}] |};
             heap := <[brk w + sizeof_region := sz]> (heap w);
             brk := brk w + sizeof_region + rsz |})).
Proof.
  intros Hok Hne Hsz Hmax.
  pose proof Hok as (Hbase & Hbrk & Htiled & Hoff & Htotal).
  pose proof (tiled_le _ _ _ Htiled) as Hle.
  unfold sizeof_region, sizeof_header, ARENA_DEFAULT_CAPACITY in *.
  assert (Hreq : u64 (8 + sz) = 8 + sz) by (apply u64_small; lia).
  assert (Hfree : forall (j : nat) r', regions (arena w) !! j = Some r' ->
            u64 (size r' - offset r') = size r' - offset r').
  { intros j r' Hj. destruct (world_ok_region base w j r' Hok Hj) as (Ho & Hm & Hms).
    apply u64_small. unfold sizeof_region in *. lia. }
  split.
  - intros i r Hi Hfit Hfirst.
    destruct (world_ok_region base w i r Hok Hi) as (Ho & Hm & Hms).
    unfold sizeof_region in *.
    rewrite (alloc_fit w sz i r Hi).
    + unfold sizeof_header. rewrite Hreq.
      by rewrite (u64_small (offset r + (8 + sz))) by lia.
    + unfold sizeof_header. rewrite Hreq.
      apply (find_fit_first (8 + sz) _ 0 i r Hi).
      * rewrite (Hfree i r Hi). lia.
      * intros j r' Hj Hr'. rewrite (Hfree j r' Hr'). by apply (Hfirst j).
  - intros Hnone Hroom. set (rsz := Z.max (8 + sz) (2 * 4096)) in *.
    assert (Hfit : find_fit (u64 (sizeof_header + sz)) (regions (arena w)) 0 = None).
    { apply find_fit_None. unfold sizeof_header. rewrite Hreq.
      apply Forall_lookup. intros j r' Hj. rewrite (Hfree j r' Hj).
      apply (proj1 (Forall_lookup _ _) Hnone j r' Hj). }
    pose proof (alloc_append w sz Hne Hfit) as Ha. cbv zeta in Ha.
    unfold sizeof_header, sizeof_region, ARENA_DEFAULT_CAPACITY in Ha.
    rewrite Hreq in Ha.
    assert (Hr : (if 2 * 4096 <? 8 + sz then 8 + sz else 2 * 4096) = rsz).
    { unfold rsz. destruct (Z.ltb_spec (2 * 4096) (8 + sz)); lia. }
    rewrite Hr in Ha.
    assert (Hrb : 8192 <= rsz /\ 8 + sz <= rsz) by (unfold rsz; lia).
    rewrite (u64_small (24 + rsz)) in Ha by lia.
    rewrite (u64_small (total (arena w) + (24 + rsz))) in Ha by lia.
    rewrite (u64_small (0 + (8 + sz))) in Ha by lia.
    rewrite Ha by lia. by rewrite Z.add_0_l, !Z.add_assoc.
Qed.

(** X17: first fit.  On a sound arena that has regions, [arena_alloc]
    puts the block at the offset of the first region that has room for the
    header and the payload, and changes nothing but that offset and the 8
    bytes of that header.  When no region has room it appends one region,
    of the default capacity or of exactly the size needed if that is more,
    and puts the block at its start; [total] grows by the size of the
    region and of its header. *)
Theorem alloc_first_fit base w sz :
  world_ok base w -> regions (arena w) <> [] ->
  0 <= sz -> sz + sizeof_region + sizeof_header < 2 ^ 64 ->
  (forall (i : nat) r,
     regions (arena w) !! i = Some r ->
     sizeof_header + sz <= size r - offset r ->
     (forall (j : nat) r', (j < i)%nat -> regions (arena w) !! j = Some r' ->
        size r' - offset r' < sizeof_header + sz) ->
     arena_alloc w sz
     = Ret (mem r + offset r + sizeof_header,
            {| arena := {| total := total (arena w);
                           regions := <[i := set_offset r
                                                (offset r + (sizeof_header + sz))]>
                                        (regions (arena w)) |};
               heap := <[mem r + offset r := sz]> (heap w);
               brk := brk w |})) /\
  (Forall (fun r' => size r' - offset r' < sizeof_header + sz) (regions (arena w)) ->
   let rsz := Z.max (sizeof_header + sz) ARENA_DEFAULT_CAPACITY in
   brk w + sizeof_region + rsz < 2 ^ 64 ->
   arena_alloc w sz
   = Ret (brk w + sizeof_region + sizeof_header,
          {| arena := {| total := total (arena w) + sizeof_region + rsz;
                         regions := regions (arena w)
                                    ++ [{| size := rsz; offset := sizeof_header + sz;
                                           mem := brk w + sizeof_region |}] |};
             heap := <[brk w + sizeof_region := sz]> (heap w);
             brk := brk w + sizeof_region + rsz |})).
Proof. exact (alloc_exact base w sz). Qed.

(** X18: the first allocation on a zero-initialised arena runs
    [arena_init].  A request that fits the default capacity is served at
    the start of the first region.  A larger request leaves that region
    empty and opens a second region of exactly the size of the header and
    the payload. *)
Theorem alloc_first_call base sz :
  0 <= base -> 0 <= sz -> base + room [sz] < 2 ^ 64 ->
  let first := {| size := ARENA_DEFAULT_CAPACITY; offset := 0;
                  mem := base + sizeof_region |} in
  let b1 := base + sizeof_region + ARENA_DEFAULT_CAPACITY in
  (sizeof_header + sz <= ARENA_DEFAULT_CAPACITY ->
   arena_alloc (fresh base) sz
   = Ret (base + sizeof_region + sizeof_header,
          {| arena := {| total := sizeof_region + ARENA_DEFAULT_CAPACITY;
                         regions := [set_offset first (sizeof_header + sz)] |};
             heap := {[base + sizeof_region := sz]};
             brk := b1 |})) /\
  (ARENA_DEFAULT_CAPACITY < sizeof_header + sz ->
   arena_alloc (fresh base) sz
   = Ret (b1 + sizeof_region + sizeof_header,
          {| arena := {| total := 2 * sizeof_region + ARENA_DEFAULT_CAPACITY
                                  + (sizeof_header + sz);
                         regions := [first;
                                     {| size := sizeof_header + sz;
                                        offset := sizeof_header + sz;
                                        mem := b1 + sizeof_region |}] |};
             heap := {[b1 + sizeof_region := sz]};
             brk := b1 + sizeof_region + (sizeof_header + sz) |})).
Proof.
  intros Hbase Hsz Hroom first b1.
  unfold room in Hroom. cbn [foldr] in Hroom.
  rewrite (alloc_init (fresh base) sz eq_refl)
    by (unfold sizeof_region, sizeof_header, ARENA_DEFAULT_CAPACITY in *; simpl; lia).
  set (w1 := {| arena := _; heap := _; brk := _ |}).
  assert (Hok1 : world_ok base w1).
  { unfold w1, world_ok, sizeof_region, sizeof_header, ARENA_DEFAULT_CAPACITY in *.
    simpl. unfold sizeof_region.
    split; [lia |]. split; [lia |]. split; [lia |].
    split; [| lia]. constructor; [simpl; lia | constructor]. }
  destruct (alloc_exact base w1 sz Hok1) as [Hfit Hnew].
  { done. }
  { done. }
  { unfold sizeof_region, sizeof_header, ARENA_DEFAULT_CAPACITY in *. lia. }
  split.
  - intros Hsmall. rewrite (Hfit 0%nat first eq_refl).
    + unfold w1, first, b1, set_offset, sizeof_region, sizeof_header,
        ARENA_DEFAULT_CAPACITY. cbn [mem offset size regions arena heap brk total
                                     insert list_insert fresh].
      rewrite !Z.add_0_r, !Z.add_0_l, !Z.add_assoc. reflexivity.
    + unfold first. simpl. lia.
    + intros j r' Hj. lia.
  - intros Hbig. cbv zeta in Hnew. rewrite Hnew.
    + rewrite Z.max_l by lia.
      unfold w1, first, b1, sizeof_region, sizeof_header, ARENA_DEFAULT_CAPACITY.
      cbn [mem offset size regions arena heap brk total fresh app].
      replace (2 * 24 + 2 * 4096 + (8 + sz)) with (24 + 2 * 4096 + 24 + (8 + sz))
        by lia.
      rewrite !Z.add_assoc. reflexivity.
    + constructor; [simpl; lia | constructor].
    + unfold w1, sizeof_region, sizeof_header, ARENA_DEFAULT_CAPACITY in *.
      simpl. lia.
Qed.

(** X19: when the backend cannot supply a region, [arena_alloc] aborts: on
    an arena without regions already in [arena_init], otherwise when no
    region has room for the request.  [_alloc_memory_region] aborts in the
    same way. *)
Theorem alloc_aborts_without_room base w sz next :
  world_ok base w -> 0 <= sz -> sz + sizeof_region + sizeof_header < 2 ^ 64 ->
  Forall (fun r => size r - offset r < sizeof_header + sz) (regions (arena w)) ->
  2 ^ 64 <= brk w + sizeof_region + ARENA_DEFAULT_CAPACITY ->
  arena_alloc w sz = Abort /\
  arena_init w = Abort /\
  _alloc_memory_region w (Z.max (sizeof_header + sz) ARENA_DEFAULT_CAPACITY) next
  = Abort.
Proof.
  intros Hok Hsz Hmax Hnone Hfull.
  pose proof Hok as (Hbase & Hbrk & Htiled & Hoff & Htotal).
  unfold sizeof_region, sizeof_header, ARENA_DEFAULT_CAPACITY in *.
  assert (Hreq : u64 (8 + sz) = 8 + sz) by (apply u64_small; lia).
  assert (Hinit : arena_init w = Abort).
  { unfold arena_init, _arena_append_region, backend_alloc. simpl.
    change (u64 (sizeof_region + ARENA_DEFAULT_CAPACITY)) with 8216.
    destruct (Z.ltb_spec (brk w + 8216) (2 ^ 64)); [lia | done]. }
  split; [| split; [done |]].
  - unfold arena_alloc.
    destruct (regions (arena w)) as [| r0 rs] eqn:Hrs; [by rewrite Hinit |].
    simpl obind. rewrite Hrs.
    assert (Hfit : find_fit (u64 (sizeof_header + sz)) (r0 :: rs) 0 = None).
    { apply find_fit_None. unfold sizeof_header. rewrite Hreq.
      apply Forall_lookup. intros j r' Hj.
      rewrite <- Hrs in Hj.
      destruct (world_ok_region base w j r' Hok Hj) as (Ho & Hm & Hms).
      rewrite u64_small by (unfold sizeof_region in *; lia).
      rewrite Hrs in Hj.
      apply (proj1 (Forall_lookup _ _) Hnone j r' Hj). }
    rewrite Hfit. unfold _arena_append_region, backend_alloc, sizeof_header,
      sizeof_region, ARENA_DEFAULT_CAPACITY. rewrite Hreq.
    set (rsz := if 2 * 4096 <? 8 + sz then 8 + sz else 2 * 4096).
    assert (Hrb : 8192 <= rsz < 2 ^ 64 - 24)
      by (unfold rsz; destruct (Z.ltb_spec (2 * 4096) (8 + sz)); lia).
    rewrite (u64_small (24 + rsz)) by lia.
    destruct (Z.ltb_spec (brk w + (24 + rsz)) (2 ^ 64)); [lia | done].
  - unfold _alloc_memory_region, backend_alloc, sizeof_region.
    rewrite u64_small by lia.
    destruct (Z.ltb_spec (brk w + (24 + Z.max (8 + sz) (2 * 4096))) (2 ^ 64));
      [lia | done].
Qed.

(** X20: [arena_alloc] does not check the sum of the header size and the
    payload size for overflow.  A request of [2^64 - 8] bytes or more is
    served from the first region that has 8 bytes left: the call returns a
    pointer and advances the offset by the wrapped sum, less than 8 bytes,
    although the header records the size asked for. *)
Theorem alloc_size_wraps w sz r rs :
  regions (arena w) = r :: rs ->
  0 <= offset r -> offset r + sizeof_header <= size r -> size r < 2 ^ 64 ->
  2 ^ 64 - sizeof_header <= sz < 2 ^ 64 ->
  arena_alloc w sz
  = Ret (mem r + offset r + sizeof_header,
         {| arena := {| total := total (arena w);
                        regions := set_offset r (offset r + (sz + sizeof_header - 2 ^ 64))
                                   :: rs |};
            heap := <[mem r + offset r := sz]> (heap w);
            brk := brk w |}) /\
  0 <= sz + sizeof_header - 2 ^ 64 < sizeof_header.
Proof.
  intros Hrs Ho1 Ho2 Hs Hsz. unfold sizeof_header in *.
  assert (Hreq : u64 (8 + sz) = sz + 8 - 2 ^ 64).
  { unfold u64. replace (8 + sz) with (sz + 8 - 2 ^ 64 + 1 * 2 ^ 64) by lia.
    rewrite Z.mod_add by lia. apply Z.mod_small. lia. }
  split; [| lia].
  rewrite (alloc_fit w sz 0%nat r).
  - unfold sizeof_header. rewrite Hreq, Hrs.
    by rewrite (u64_small (offset r + (sz + 8 - 2 ^ 64))) by lia.
  - by rewrite Hrs.
  - rewrite Hrs. unfold sizeof_header. rewrite Hreq. simpl.
    rewrite (u64_small (size r - offset r)) by lia.
    destruct (Z.leb_spec (sz + 8 - 2 ^ 64) (size r - offset r)); [done | lia].
Qed.

(** ** Ownership of a pointer *)

Lemma regions_ok_apart rs : forall (i j : nat) r r',
  regions_ok rs = true -> (i < j)%nat -> rs !! i = Some r -> rs !! j = Some r' ->
  apart r r' = true.
Proof.
  induction rs as [| r0 rs IH]; intros i j r r' Hok Hij Hi Hj; [done |].
  simpl in Hok. apply andb_true_iff in Hok as [Hok Hrs].
  apply andb_true_iff in Hok as [_ Hap].
  destruct j as [| j]; [lia |]. simpl in Hj.
  destruct i as [| i]; simpl in Hi.
  - injection Hi as <-. rewrite forallb_forall in Hap. apply Hap.
    apply list_elem_of_In, list_elem_of_lookup. by exists j.
  - apply (IH i j); [done | lia | done | done].
Qed.

Lemma world_ok_addressable base w :
  world_ok base w -> addressable (regions (arena w)).
Proof.
  intros Hok. apply Forall_lookup. intros i r Hi.
  destruct (world_ok_region base w i r Hok Hi) as (_ & Hm & Hs).
  destruct Hok as (_ & Hbrk & _). unfold sizeof_region in Hm. lia.
Qed.

(** [_arena_find_region] finds the region in whose used part the
    allocation lies: no other region of a sound arena passes its test. *)
Lemma find_owner_in rs : forall (i n : nat) r ptr hsize,
  regions_ok rs = true -> addressable rs -> rs !! i = Some r ->
  mem r <= ptr -> ptr + hsize <= mem r + offset r -> 0 <= hsize ->
  find_owner ptr (u64 (ptr + hsize)) rs n = Some (n + i)%nat.
Proof.
  induction rs as [| r0 rs IH]; intros i n r ptr hsize Hok Had Hi Hlo Hend Hh;
    [done |].
  apply Forall_cons in Had as [[Hm0 Hs0] Had].
  destruct (regions_ok_lookup (r0 :: rs) i r Hok Hi) as [Hor _].
  unfold offset_ok in Hor. apply andb_true_iff in Hor as [Hor1 Hor2].
  apply Z.leb_le in Hor1, Hor2.
  assert (Hr : 0 <= mem r /\ mem r + size r < 2 ^ 64).
  { destruct i as [| i]; simpl in Hi.
    - by injection Hi as <-.
    - apply (proj1 (Forall_lookup _ _) Had i r Hi). }
  assert (He : u64 (ptr + hsize) = ptr + hsize) by (apply u64_small; lia).
  rewrite He.
  destruct i as [| i]; simpl in *.
  - injection Hi as ->.
    rewrite (u64_small (mem r + offset r)) by lia.
    destruct (Z.leb_spec (mem r) ptr); [| lia].
    destruct (Z.leb_spec (ptr + hsize) (mem r + offset r)); [| lia].
    simpl. f_equal. lia.
  - pose proof (regions_ok_apart (r0 :: rs) 0 (S i) r0 r Hok ltac:(lia) eq_refl Hi)
      as Hapart.
    apply andb_true_iff in Hok as [Hok Hrs].
    apply andb_true_iff in Hok as [Hok _].
    apply andb_true_iff in Hok as [Ho0 _].
    unfold offset_ok in Ho0.
    apply andb_true_iff in Ho0 as [Ho00 Ho0]. apply Z.leb_le in Ho00, Ho0.
    unfold apart in Hapart. apply orb_true_iff in Hapart.
    rewrite !Z.ltb_lt in Hapart.
    rewrite (u64_small (mem r0 + offset r0)) by lia.
    replace ((mem r0 <=? ptr) && (ptr + hsize <=? mem r0 + offset r0)) with false.
    + rewrite <- He. rewrite (IH i (S n) r ptr hsize); try done. f_equal. lia.
    + symmetry. apply andb_false_iff.
      destruct (Z.leb_spec (mem r0) ptr); [| by left].
      right. apply Z.leb_gt. lia.
Qed.

Lemma find_owner_foreign rs : forall (n : nat) ptr hsize,
  foreign rs ptr hsize = true -> find_owner ptr (u64 (ptr + hsize)) rs n = None.
Proof.
  induction rs as [| r0 rs IH]; intros n ptr hsize Hf; [done |].
  unfold foreign in Hf. simpl in Hf. apply andb_true_iff in Hf as [H0 Hf].
  apply negb_true_iff in H0. simpl. rewrite H0. by apply IH.
Qed.

Lemma find_region_in base w ptr hsize (i : nat) r :
  world_ok base w -> heap w !! (ptr - sizeof_header) = Some hsize -> 0 <= hsize ->
  regions (arena w) !! i = Some r -> inside r ptr hsize ->
  _arena_find_region w ptr = Ret i.
Proof.
  intros Hok Hhdr Hh Hi [Hlo Hend].
  unfold _arena_find_region, load_header. rewrite Hhdr. simpl.
  rewrite (find_owner_in _ i 0 r ptr hsize); try done.
  - by apply (world_ok_regions_ok base).
  - by apply (world_ok_addressable base).
  - unfold sizeof_header in Hlo. lia.
Qed.

Lemma inside_nonnull base w ptr hsize (i : nat) r :
  world_ok base w -> regions (arena w) !! i = Some r -> inside r ptr hsize ->
  ptr <> 0.
Proof.
  intros Hok Hi [Hlo _].
  destruct (world_ok_region base w i r Hok Hi) as (_ & Hm & _).
  unfold sizeof_region, sizeof_header in *. lia.
Qed.

(** On a sound arena the pointer sums of the top test do not wrap. *)
Lemma top_test base w ptr hsize (i : nat) r :
  world_ok base w -> regions (arena w) !! i = Some r -> inside r ptr hsize ->
  0 <= hsize ->
  u64 (ptr + hsize) = ptr + hsize /\ u64 (mem r + offset r) = mem r + offset r.
Proof.
  intros Hok Hi [Hlo Hend] Hh.
  destruct (world_ok_region base w i r Hok Hi) as (Ho & Hm & Hs).
  destruct Hok as (_ & Hbrk & _). unfold sizeof_region, sizeof_header in *.
  split; apply u64_small; lia.
Qed.

(** X21: freeing an allocation that is not the last of its region changes
    nothing, and its space is not handed out again: an allocation made
    afterwards does not meet it. *)
Theorem free_below_top base w ptr hsize (i : nat) r :
  world_ok base w -> heap w !! (ptr - sizeof_header) = Some hsize -> 0 <= hsize ->
  regions (arena w) !! i = Some r -> inside r ptr hsize ->
  ptr + hsize < mem r + offset r ->
  arena_free w ptr = Ret w /\
  forall sz, 0 <= sz -> brk w + room [sz] < 2 ^ 64 ->
    exists p w', arena_alloc w sz = Ret (p, w') /\ disjoint ptr hsize p sz.
Proof.
  intros Hok Hhdr Hh Hi Hin Hnot. split.
  - unfold arena_free.
    destruct (Z.eqb_spec ptr 0) as [E | _];
      [by destruct (inside_nonnull base w ptr hsize i r Hok Hi Hin) |].
    rewrite (find_region_in base w ptr hsize i r Hok Hhdr Hh Hi Hin).
    unfold load_header. rewrite Hhdr. simpl. rewrite Hi.
    destruct (top_test base w ptr hsize i r Hok Hi Hin Hh) as [-> ->].
    destruct (Z.eqb_spec (ptr + hsize) (mem r + offset r)); [lia | done].
  - intros sz Hsz Hroom.
    destruct (alloc_block base w sz Hok Hsz Hroom)
      as (p & w' & _ & _ & Ha & _ & _ & _ & _ & _ & _ & _ & Hold).
    exists p, w'. split; [done |].
    apply (Hold ptr hsize Hh). by exists i, r.
Qed.

(** X22: a pointer that no region of the arena owns, in the sense of the
    test of [_arena_find_region] with the end of the allocation computed on
    64-bit pointers.  [arena_free] aborts, and so does [arena_realloc] when
    asked to grow the allocation; when asked to shrink it or to keep its
    size, [arena_realloc] does not look for the region: it writes the size
    in front of the pointer and returns the pointer. *)
Theorem foreign_pointer_aborts w ptr hsize sz :
  ptr <> 0 -> heap w !! (ptr - sizeof_header) = Some hsize ->
  foreign (regions (arena w)) ptr hsize = true ->
  arena_free w ptr = Abort /\
  (hsize < sz -> arena_realloc w ptr sz = Abort) /\
  (sz <= hsize ->
   arena_realloc w ptr sz = Ret (ptr, store_header w (ptr - sizeof_header) sz)).
Proof.
  intros Hptr Hhdr Hf.
  assert (Hfind : _arena_find_region w ptr = Abort).
  { unfold _arena_find_region, load_header. rewrite Hhdr. simpl.
    by rewrite (find_owner_foreign _ 0 ptr hsize Hf). }
  split; [| split].
  - unfold arena_free. destruct (Z.eqb_spec ptr 0); [done |]. by rewrite Hfind.
  - intros Hgrow. unfold arena_realloc. destruct (Z.eqb_spec ptr 0); [done |].
    unfold load_header at 1. rewrite Hhdr. simpl.
    destruct (Z.leb_spec sz hsize); [lia |]. by rewrite Hfind.
  - intros Hshrink. unfold arena_realloc. destruct (Z.eqb_spec ptr 0); [done |].
    unfold load_header at 1. rewrite Hhdr. simpl.
    destruct (Z.leb_spec sz hsize); [done | lia].
Qed.

Lemma free_top_ok base w ptr hsize (i : nat) r :
  world_ok base w -> heap w !! (ptr - sizeof_header) = Some hsize ->
  sizeof_header <= hsize ->
  regions (arena w) !! i = Some r -> at_top r ptr hsize = true ->
  let r2 := set_offset r (ptr - mem r + sizeof_header) in
  let w2 := set_regions w (<[i := r2]> (regions (arena w))) in
  arena_free w ptr = Ret w2 /\ world_ok base w2.
Proof.
  intros Hok Hhdr Hh Hi Htop r2 w2.
  pose proof (world_ok_regions_ok base w Hok) as Hrok.
  destruct (regions_ok_lookup _ i r Hrok Hi) as [Ho Hs].
  pose proof (at_top_inside r ptr hsize Htop) as Hin.
  pose proof (inside_nonnull base w ptr hsize i r Hok Hi Hin) as Hnn.
  unfold sizeof_header in *.
  rewrite (free_top w ptr hsize i r Hnn Hhdr ltac:(lia) Hrok
             (world_ok_addressable base w Hok) Hi Htop).
  rewrite (free_top_offset_large r ptr hsize Ho Hs Htop Hh).
  split; [done |].
  destruct Hok as (Hbase & Hbrk & Htiled & Hoff & Htotal).
  destruct Hin as [Hlo Hend]. unfold sizeof_header in *.
  pose proof (proj1 (Forall_lookup _ _) Hoff i r Hi) as Hor. simpl in Hor.
  unfold w2, world_ok, set_regions, set_arena. simpl.
  split; [done |]. split; [done |]. split; [by apply tiled_set_offset |].
  split; [| done]. apply Forall_insert; [done |]. unfold r2. simpl. lia.
Qed.

(** X23: a double free is caught.  After the allocation on top of a
    region, of more than 8 bytes, has been freed, the region no longer
    contains its end, so a second [arena_free] of the same pointer finds no
    owner and aborts. *)
Theorem double_free_aborts base w ptr hsize (i : nat) r :
  world_ok base w -> heap w !! (ptr - sizeof_header) = Some hsize ->
  sizeof_header < hsize ->
  regions (arena w) !! i = Some r -> at_top r ptr hsize = true ->
  exists w', arena_free w ptr = Ret w' /\ arena_free w' ptr = Abort.
Proof.
  intros Hok Hhdr Hh Hi Htop.
  destruct (free_top_ok base w ptr hsize i r Hok Hhdr ltac:(lia) Hi Htop)
    as [Hfree Hok2].
  cbv zeta in Hfree, Hok2. eexists. split; [exact Hfree |].
  pose proof (at_top_inside r ptr hsize Htop) as Hin.
  pose proof (inside_nonnull base w ptr hsize i r Hok Hi Hin) as Hnn.
  destruct Hin as [Hlo Hend].
  pose proof Hok as (_ & Hbrk & Htiled & _ & _).
  destruct (world_ok_region base w i r Hok Hi) as (Hor & Hmr & Hsr).
  unfold arena_free. destruct (Z.eqb_spec ptr 0); [done |].
  unfold _arena_find_region, load_header. cbn [heap set_regions set_arena].
  rewrite Hhdr. cbn [obind arena regions].
  rewrite find_owner_foreign; [done |].
  unfold foreign. apply forallb_forall. intros r' Hin'.
  apply list_elem_of_In, list_elem_of_lookup in Hin' as [j Hj].
  apply negb_true_iff, andb_false_iff. unfold sizeof_header, sizeof_region in *.
  rewrite (u64_small (ptr + hsize)) by lia.
  apply list_lookup_insert_Some in Hj as [(_ & <- & _) | (Hne & Hj)].
  - right. simpl. rewrite u64_small by lia. apply Z.leb_gt. lia.
  - destruct (world_ok_region base w j r' Hok Hj) as (Hoj & Hmj & Hsj).
    unfold sizeof_region in Hmj.
    rewrite (u64_small (mem r' + offset r')) by lia.
    destruct (Nat.lt_ge_cases j i) as [Hl | Hg].
    + pose proof (tiled_order _ _ _ j i r' r Htiled Hl Hj Hi) as Hord.
      unfold sizeof_region in Hord. right. apply Z.leb_gt. lia.
    + pose proof (tiled_order _ _ _ i j r r' Htiled ltac:(lia) Hi Hj) as Hord.
      unfold sizeof_region in Hord. left. apply Z.leb_gt. lia.
Qed.

(** X24: what [arena_free] never does.  Whatever the pointer, a call that
    returns has released nothing to the backend and written no header; it
    has changed neither [total], nor the number, the sizes and the
    addresses of the regions, and the offset of one region at most. *)
Theorem free_frame w ptr w' :
  arena_free w ptr = Ret w' ->
  heap w' = heap w /\ brk w' = brk w /\ total (arena w') = total (arena w) /\
  (fun r => (size r, mem r)) <$> regions (arena w')
  = (fun r => (size r, mem r)) <$> regions (arena w) /\
  exists i : nat, forall j : nat,
    j <> i -> regions (arena w') !! j = regions (arena w) !! j.
Proof.
  unfold arena_free. intros H.
  destruct (ptr =? 0).
  { injection H as <-. repeat split; try done. by exists 0%nat. }
  destruct (_arena_find_region w ptr) as [i | | |]; try done. simpl in H.
  destruct (load_header w (ptr - sizeof_header)) as [hsize | | |]; try done.
  simpl in H.
  destruct (regions (arena w) !! i) as [r |] eqn:Hi; [| done].
  destruct (u64 (ptr + hsize) =? u64 (mem r + offset r)).
  - injection H as <-. simpl. repeat split; try done.
    + rewrite list_fmap_insert. simpl. apply list_insert_id.
      by rewrite list_lookup_fmap, Hi.
    + exists i. intros j Hj. by apply list_lookup_insert_ne.
  - injection H as <-. repeat split; try done. by exists 0%nat.
Qed.

(** X25: an allocation of 8 bytes or more that is freed at once does not
    give its space back.  [arena_free] leaves the offset of the region 16
    bytes above the place of the header, and when the region still has
    room for the same request, the next allocation of that size is
    returned 16 bytes after the freed one. *)
Theorem alloc_free_leaks base w sz :
  world_ok base w -> sizeof_header <= sz -> brk w + room [sz] < 2 ^ 64 ->
  exists p w1 w2 (i : nat) r1 r2,
    arena_alloc w sz = Ret (p, w1) /\ arena_free w1 p = Ret w2 /\
    world_ok base w2 /\
    regions (arena w1) !! i = Some r1 /\ regions (arena w2) !! i = Some r2 /\
    mem r1 + offset r1 = p + sz /\
    mem r2 + offset r2 = p - sizeof_header + 2 * sizeof_header /\
    (sizeof_header + sz <= size r2 - offset r2 ->
     exists w3, arena_alloc w2 sz = Ret (p + 2 * sizeof_header, w3)).
Proof.
  intros Hok Hsz Hroom.
  destruct (alloc_block base w sz Hok ltac:(unfold sizeof_header in *; lia) Hroom)
    as (p & w1 & i & r1 & Ha & Hok1 & Hb & Hi1 & Htop & Hend & Hheap & Hleast & _).
  assert (Hmax : 0 <= sz < 2 ^ 64).
  { unfold room in Hroom. cbn [foldr] in Hroom.
    destruct Hok as (? & ? & Ht0 & _). apply tiled_le in Ht0.
    unfold sizeof_region, sizeof_header, ARENA_DEFAULT_CAPACITY in *. lia. }
  assert (Hhdr : heap w1 !! (p - sizeof_header) = Some sz)
    by (rewrite Hheap; by apply heap_lookup_insert).
  destruct (free_top_ok base w1 p sz i r1 Hok1 Hhdr Hsz Hi1 Htop) as [Hfree Hok2].
  cbv zeta in Hfree, Hok2.
  set (r2 := set_offset r1 (p - mem r1 + sizeof_header)) in *.
  set (w2 := set_regions w1 (<[i := r2]> (regions (arena w1)))) in *.
  apply lookup_lt_Some in Hi1 as Hlt.
  assert (Hi2 : regions (arena w2) !! i = Some r2)
    by (unfold w2; simpl; by apply list_lookup_insert_eq).
  pose proof (at_top_inside r1 p sz Htop) as [Hlo Hend1].
  exists p, w1, w2, i, r1, r2.
  split; [done |]. split; [done |]. split; [done |]. split; [done |].
  split; [done |].
  assert (Ht : mem r1 + offset r1 = p + sz).
  { unfold at_top in Htop. apply andb_true_iff in Htop as [_ Ht].
    apply Z.eqb_eq in Ht. lia. }
  split; [done |].
  split; [unfold r2, sizeof_header; simpl; lia |].
  intros Hfits.
  destruct (alloc_exact base w2 sz Hok2) as [Hfit _].
  { intros E. by rewrite E in Hi2. }
  { unfold sizeof_header in *. lia. }
  { unfold room in Hroom. cbn [foldr] in Hroom.
    destruct Hok as (? & ? & Ht0 & _). apply tiled_le in Ht0.
    unfold sizeof_region, sizeof_header, ARENA_DEFAULT_CAPACITY in *. lia. }
  eexists. rewrite (Hfit i r2 Hi2 Hfits).
  - f_equal. f_equal. unfold r2, sizeof_header. simpl. lia.
  - intros j r' Hj Hr'. apply (Hleast j r' Hj).
    unfold w2 in Hr'. simpl in Hr'. by rewrite list_lookup_insert_ne in Hr' by lia.
Qed.

(** X26: a shrinking [arena_realloc] never gives the tail back.  It
    writes the smaller size into the header and returns the pointer,
    leaving every offset as it is; the allocation then no longer ends at
    the offset of its region, so [arena_free] of it changes nothing, and a
    later [arena_realloc] to any larger size, also back to the old one, is
    a new allocation. *)
Theorem realloc_shrink_sticks base w ptr hsize sz (i : nat) r :
  world_ok base w -> heap w !! (ptr - sizeof_header) = Some hsize ->
  regions (arena w) !! i = Some r -> inside r ptr hsize -> 0 <= sz < hsize ->
  let w1 := store_header w (ptr - sizeof_header) sz in
  arena_realloc w ptr sz = Ret (ptr, w1) /\
  regions (arena w1) = regions (arena w) /\
  arena_free w1 ptr = Ret w1 /\
  forall sz2, sz < sz2 -> arena_realloc w1 ptr sz2 = arena_alloc w1 sz2.
Proof.
  intros Hok Hhdr Hi Hin Hsz w1.
  pose proof (inside_nonnull base w ptr hsize i r Hok Hi Hin) as Hnn.
  assert (Hok1 : world_ok base w1) by done.
  destruct (world_ok_region base w i r Hok Hi) as (Hor & Hmr & Hsr).
  pose proof Hok as (_ & Hbrk & _).
  assert (Hhdr1 : heap w1 !! (ptr - sizeof_header) = Some sz).
  { unfold w1. simpl. apply heap_lookup_insert.
    destruct Hin. unfold sizeof_header, sizeof_region in *. lia. }
  assert (Hin1 : inside r ptr sz) by (destruct Hin; split; [done | lia]).
  destruct (top_test base w ptr sz i r Hok Hi Hin1 ltac:(lia)) as [Et Er].
  assert (Hfind : _arena_find_region w1 ptr = Ret i)
    by (apply (find_region_in base w1 ptr sz i r); try done; lia).
  destruct Hin as [Hlo Hend].
  split; [| split; [done |]; split].
  - unfold arena_realloc. destruct (Z.eqb_spec ptr 0); [done |].
    unfold load_header. rewrite Hhdr. simpl.
    destruct (Z.leb_spec sz hsize); [done | lia].
  - unfold arena_free. destruct (Z.eqb_spec ptr 0); [done |].
    rewrite Hfind. unfold load_header. rewrite Hhdr1. simpl.
    change (regions (arena w1)) with (regions (arena w)). rewrite Hi, Et, Er.
    destruct (Z.eqb_spec (ptr + sz) (mem r + offset r)); [lia | done].
  - intros sz2 Hsz2. unfold arena_realloc. destruct (Z.eqb_spec ptr 0); [done |].
    unfold load_header at 1. rewrite Hhdr1. simpl.
    destruct (Z.leb_spec sz2 sz); [lia |].
    rewrite Hfind. simpl.
    change (regions (arena w1)) with (regions (arena w)). rewrite Hi, Et, Er.
    destruct (Z.eqb_spec (ptr + sz) (mem r + offset r)); [lia | done].
Qed.

(** X27: a growing [arena_realloc] that cannot be served in place, because
    the allocation is not the last of its region or the region has not
    enough room left, returns a new block that does not meet the old one.
    The old block is not freed: its header is untouched and it still lies
    in the used part of its region. *)
Theorem realloc_moves base w ptr hsize sz (i : nat) r :
  world_ok base w -> heap w !! (ptr - sizeof_header) = Some hsize ->
  regions (arena w) !! i = Some r -> inside r ptr hsize ->
  0 <= hsize < sz -> brk w + room [sz] < 2 ^ 64 ->
  ptr + hsize < mem r + offset r \/ size r - offset r < sz - hsize ->
  exists p w',
    arena_realloc w ptr sz = Ret (p, w') /\ arena_alloc w sz = Ret (p, w') /\
    world_ok base w' /\ disjoint ptr hsize p sz /\
    heap w' !! (ptr - sizeof_header) = Some hsize /\
    heap w' !! (p - sizeof_header) = Some sz /\
    block_in (regions (arena w')) ptr hsize /\
    block_in (regions (arena w')) p sz.
Proof.
  intros Hok Hhdr Hi Hin Hsz Hroom Hcase.
  pose proof (inside_nonnull base w ptr hsize i r Hok Hi Hin) as Hnn.
  pose proof (find_region_in base w ptr hsize i r Hok Hhdr ltac:(lia) Hi Hin) as Hfind.
  destruct (world_ok_region base w i r Hok Hi) as (Hor & Hm & Hms).
  pose proof Hok as (_ & Hbrk & _).
  assert (Hmax : sz < 2 ^ 64).
  { unfold room in Hroom. cbn [foldr] in Hroom.
    destruct Hok as (? & ? & Ht0 & _). apply tiled_le in Ht0.
    unfold sizeof_region, sizeof_header, ARENA_DEFAULT_CAPACITY in *. lia. }
  destruct (alloc_block base w sz Hok ltac:(lia) Hroom)
    as (p & w' & i' & r' & Ha & Hok' & _ & Hi' & Htop & _ & Hheap & _ & Hold).
  destruct (Hold ptr hsize ltac:(lia)) as [Hkeep Hdis]; [by exists i, r |].
  exists p, w'. split; [| split; [done |]].
  - unfold arena_realloc. destruct (Z.eqb_spec ptr 0); [done |].
    unfold load_header at 1. rewrite Hhdr. simpl.
    destruct (Z.leb_spec sz hsize); [lia |].
    rewrite Hfind. simpl. rewrite Hi.
    destruct (top_test base w ptr hsize i r Hok Hi Hin ltac:(lia)) as [-> ->].
    replace ((ptr + hsize =? mem r + offset r)
             && (u64 (sz - hsize) <=? u64 (size r - offset r))) with false; [done |].
    symmetry. apply andb_false_iff. unfold sizeof_region in *.
    rewrite (u64_small (sz - hsize)), (u64_small (size r - offset r)) by lia.
    destruct Hcase as [Hnt | Hnr].
    + left. apply Z.eqb_neq. lia.
    + right. apply Z.leb_gt. lia.
  - split; [done |]. split; [done |].
    split.
    { rewrite Hheap, heap_lookup_insert_ne; [done |].
      apply (disjoint_headers ptr hsize p sz); [lia | lia | done]. }
    split; [rewrite Hheap; apply heap_lookup_insert; lia |].
    split; [done |]. exists i', r'. split; [done | by apply at_top_inside].
Qed.

Lemma tiled_released rs : forall a b,
  tiled a rs b -> 0 <= a -> b < 2 ^ 64 ->
  let l := map (fun r => (mem r - sizeof_region, u64 (sizeof_region + size r))) rs in
  consecutive a l b /\ released_bytes l = b - a.
Proof.
  induction rs as [| r rs IH]; intros a b H Ha Hb; simpl in *.
  - split; [done | lia].
  - destruct H as (Hm & Hs & Hrest).
    pose proof (tiled_le _ _ _ Hrest) as Hle.
    unfold sizeof_region in *.
    rewrite (u64_small (24 + size r)) by lia.
    destruct (IH _ _ Hrest) as [Hc Hsum]; [lia | lia |].
    split.
    + split; [lia |]. split; [lia |].
      by replace (a + (24 + size r)) with (mem r + size r) by lia.
    + unfold released_bytes in *. simpl. lia.
Qed.

(** X28: [arena_deinit] hands every region back to the backend once, with
    the address and the size it was obtained with: on a sound arena the
    released blocks lie one after the other from the first address the
    backend handed out to the last, and their sizes add up to [total],
    which is then reset to 0. *)
Theorem deinit_releases_all base w :
  world_ok base w ->
  consecutive base (fst (arena_deinit w)) (brk w) /\
  released_bytes (fst (arena_deinit w)) = total (arena w) /\
  length (fst (arena_deinit w)) = length (regions (arena w)) /\
  total (arena (snd (arena_deinit w))) = 0.
Proof.
  intros (Hbase & Hbrk & Htiled & _ & Htotal).
  destruct (tiled_released _ _ _ Htiled Hbase Hbrk) as [Hc Hsum].
  unfold arena_deinit. simpl.
  split; [done |]. split; [by rewrite Htotal |]. split; [| done].
  by rewrite length_map.
Qed.

(** ** Sequences of calls on an arena *)

Lemma disjoint_sym p s q t : disjoint p s q t -> disjoint q t p s.
Proof. unfold disjoint. tauto. Qed.

Lemma inside_regions_disjoint base w (i j : nat) r r' p s q t :
  world_ok base w -> i <> j ->
  regions (arena w) !! i = Some r -> regions (arena w) !! j = Some r' ->
  inside r p s -> inside r' q t -> 0 <= s -> 0 <= t -> disjoint p s q t.
Proof.
  intros Hok Hij Hi Hj [Hp1 Hp2] [Hq1 Hq2] Hs Ht.
  pose proof Hok as (_ & _ & Htiled & _ & _).
  destruct (world_ok_region base w i r Hok Hi) as (Hor & _ & _).
  destruct (world_ok_region base w j r' Hok Hj) as (Hor' & _ & _).
  unfold disjoint, sizeof_header, sizeof_region in *.
  destruct (Nat.lt_ge_cases i j) as [Hl | Hg].
  - pose proof (tiled_order _ _ _ i j r r' Htiled Hl Hi Hj) as Hord.
    unfold sizeof_region in Hord. left. lia.
  - pose proof (tiled_order _ _ _ j i r' r Htiled ltac:(lia) Hj Hi) as Hord.
    unfold sizeof_region in Hord. right. lia.
Qed.

Lemma insert_false_live (lv : list bool) (k i : nat) :
  <[k := false]> lv !! i = Some true -> i <> k /\ lv !! i = Some true.
Proof.
  intros H. apply list_lookup_insert_Some in H as [(_ & ? & _) | (? & ?)]; [done |].
  by split.
Qed.

(** The invariant after a call: the pointers still in use are among those
    in use before and have kept their blocks and headers, and the pointer the
    call returned, if it returned one, has a block that meets none of
    them. *)
Lemma inv_update base lv lv0 ps w w' (nb : option (Z * Z)) :
  arena_inv base lv ps w ->
  length lv0 = length lv ->
  (forall i : nat, lv0 !! i = Some true -> lv !! i = Some true) ->
  world_ok base w' ->
  (forall (i : nat) q t, lv0 !! i = Some true -> ps !! i = Some q ->
     heap w !! (q - sizeof_header) = Some t -> sizeof_header <= t ->
     block_in (regions (arena w)) q t ->
     block_in (regions (arena w')) q t /\
     heap w' !! (q - sizeof_header) = Some t /\
     match nb with Some (np, ns) => disjoint q t np ns | None => True end) ->
  match nb with
  | Some (np, ns) =>
    sizeof_header <= ns /\ heap w' !! (np - sizeof_header) = Some ns /\
    block_in (regions (arena w')) np ns
  | None => True
  end ->
  arena_inv base (lv0 ++ [match nb with Some _ => true | None => false end])
    (ps ++ [match nb with Some (np, _) => np | None => 0 end]) w'.
Proof.
  intros (Hok & Hlen & Hlive & Hpair) Hlen0 Hsub Hok' Hkeep Hnew.
  assert (Hold : forall (i : nat) p, lv0 !! i = Some true -> ps !! i = Some p ->
            exists s, sizeof_header <= s /\ heap w !! (p - sizeof_header) = Some s /\
                      heap w' !! (p - sizeof_header) = Some s /\
                      block_in (regions (arena w')) p s /\
                      match nb with Some (np, ns) => disjoint p s np ns | None => True end).
  { intros i p Hi Hp. destruct (Hlive i p (Hsub i Hi) Hp) as (s & Hs & Hh & Hb).
    destruct (Hkeep i p s Hi Hp Hh Hs Hb) as (Hb' & Hh' & Hd). by exists s. }
  split; [done |]. split; [rewrite !length_app; simpl; lia |].
  split.
  - intros i p Hi Hp.
    apply lookup_snoc_Some in Hi as [[Hlt Hi] | [Hil Hb]].
    + apply lookup_snoc_Some in Hp as [[_ Hp] | [Hpl _]]; [| lia].
      destruct (Hold i p Hi Hp) as (s & Hs & _ & Hh' & Hb' & _). by exists s.
    + apply lookup_snoc_Some in Hp as [[Hpl _] | [_ Hp]]; [lia |].
      destruct nb as [[np ns] |]; [| done]. subst p. by exists ns.
  - intros i j p q s t Hij Hi Hj Hp Hq Hs Ht.
    apply lookup_snoc_Some in Hi as [[Hlti Hi] | [Hil Hbi]];
      apply lookup_snoc_Some in Hj as [[Hltj Hj] | [Hjl Hbj]].
    + apply lookup_snoc_Some in Hp as [[_ Hp] | [Hpl _]]; [| lia].
      apply lookup_snoc_Some in Hq as [[_ Hq] | [Hql _]]; [| lia].
      destruct (Hold i p Hi Hp) as (s0 & _ & Hhs & Hhs' & _).
      destruct (Hold j q Hj Hq) as (t0 & _ & Hht & Hht' & _).
      assert (s0 = s) by congruence. assert (t0 = t) by congruence. subst s0 t0.
      by apply (Hpair i j p q s t Hij (Hsub i Hi) (Hsub j Hj)).
    + apply lookup_snoc_Some in Hp as [[_ Hp] | [Hpl _]]; [| lia].
      apply lookup_snoc_Some in Hq as [[Hql _] | [_ Hq]]; [lia |].
      destruct (Hold i p Hi Hp) as (s0 & _ & _ & Hhs' & _ & Hd).
      assert (s0 = s) by congruence. subst s0.
      destruct nb as [[np ns] |]; [| done]. subst q.
      destruct Hnew as (_ & Hn & _). assert (ns = t) by congruence. by subst ns.
    + apply lookup_snoc_Some in Hq as [[_ Hq] | [Hql _]]; [| lia].
      apply lookup_snoc_Some in Hp as [[Hpl _] | [_ Hp]]; [lia |].
      destruct (Hold j q Hj Hq) as (t0 & _ & _ & Hht' & _ & Hd).
      assert (t0 = t) by congruence. subst t0.
      destruct nb as [[np ns] |]; [| done]. subst p.
      destruct Hnew as (_ & Hn & _). assert (ns = s) by congruence. subst ns.
      by apply disjoint_sym.
    + lia.
Qed.

Lemma room_one_bound base w sz :
  world_ok base w -> brk w + room [sz] < 2 ^ 64 ->
  sz + sizeof_region + sizeof_header < 2 ^ 64.
Proof.
  intros Hok Hroom. unfold room in Hroom. cbn [foldr] in Hroom.
  destruct Hok as (? & ? & Ht0 & _). apply tiled_le in Ht0.
  unfold sizeof_region, sizeof_header, ARENA_DEFAULT_CAPACITY in *. lia.
Qed.

Lemma inv_alloc base lv lv0 ps w sz :
  arena_inv base lv ps w -> length lv0 = length lv ->
  (forall i : nat, lv0 !! i = Some true -> lv !! i = Some true) ->
  sizeof_header <= sz -> brk w + room [sz] < 2 ^ 64 ->
  exists p w',
    arena_alloc w sz = Ret (p, w') /\
    arena_inv base (lv0 ++ [true]) (ps ++ [p]) w' /\
    brk w' <= brk w + room [sz].
Proof.
  intros Hinv Hlen0 Hsub Hsz Hroom. pose proof Hinv as (Hok & _).
  destruct (alloc_block base w sz Hok ltac:(unfold sizeof_header in *; lia) Hroom)
    as (p & w' & i & r & Ha & Hok' & Hb & Hi & Htop & _ & Hheap & _ & Hold).
  exists p, w'. split; [done |]. split; [| lia].
  apply (inv_update base lv lv0 ps w w' (Some (p, sz))); try done.
  - intros j q t _ _ Hh Ht Hbq.
    destruct (Hold q t ltac:(unfold sizeof_header in *; lia) Hbq) as [Hb' Hd].
    split; [done |]. split; [| done].
    rewrite Hheap, heap_lookup_insert_ne; [done |].
    apply (disjoint_headers q t p sz); unfold sizeof_header in *; [lia | lia | done].
  - pose proof (room_one_bound base w sz Hok Hroom) as Hmax.
    split; [done |]. split.
    { rewrite Hheap. apply heap_lookup_insert.
      unfold sizeof_region, sizeof_header in *. lia. }
    exists i, r. split; [done | by apply at_top_inside].
Qed.

Lemma free_not_top base w ptr hsize (i : nat) r :
  world_ok base w -> heap w !! (ptr - sizeof_header) = Some hsize -> 0 <= hsize ->
  regions (arena w) !! i = Some r -> inside r ptr hsize ->
  ptr + hsize <> mem r + offset r ->
  arena_free w ptr = Ret w.
Proof.
  intros Hok Hhdr Hh Hi Hin Hnot. unfold arena_free.
  destruct (Z.eqb_spec ptr 0) as [E | _];
    [by destruct (inside_nonnull base w ptr hsize i r Hok Hi Hin) |].
  rewrite (find_region_in base w ptr hsize i r Hok Hhdr Hh Hi Hin).
  unfold load_header. rewrite Hhdr. simpl. rewrite Hi.
  destruct (top_test base w ptr hsize i r Hok Hi Hin Hh) as [-> ->].
  destruct (Z.eqb_spec (ptr + hsize) (mem r + offset r)); [lia | done].
Qed.

(** A block of the region of the last block, not meeting it, lies below
    it. *)
Lemma below_top r p s q t :
  inside r q t -> p + s = mem r + offset r -> 0 <= t -> disjoint p s q t ->
  q + t <= p - sizeof_header.
Proof. unfold inside, disjoint, sizeof_header. lia. Qed.

Lemma inv_free base lv ps w (k : nat) p :
  arena_inv base lv ps w -> lv !! k = Some true -> ps !! k = Some p ->
  exists w',
    arena_free w p = Ret w' /\
    arena_inv base (<[k := false]> lv ++ [false]) (ps ++ [0]) w' /\
    brk w' = brk w.
Proof.
  intros Hinv Hk Hp. pose proof Hinv as (Hok & Hlen & Hlive & Hpair).
  destruct (Hlive k p Hk Hp) as (s & Hs & Hh & (i & r & Hi & Hin)).
  assert (Hsub : forall j : nat, <[k := false]> lv !! j = Some true ->
            lv !! j = Some true)
    by (intros j Hj; by apply insert_false_live in Hj as [_ ?]).
  destruct (Z.eq_dec (p + s) (mem r + offset r)) as [Htop | Hnot].
  - assert (Hat : at_top r p s = true).
    { unfold at_top. apply andb_true_iff. destruct Hin as [Hlo _].
      split; [by apply Z.leb_le | by apply Z.eqb_eq]. }
    destruct (free_top_ok base w p s i r Hok Hh Hs Hi Hat) as [Hfree Hok2].
    cbv zeta in Hfree, Hok2. eexists. split; [exact Hfree |]. split; [| done].
    apply (inv_update base lv (<[k := false]> lv) ps w _ None); try done.
    + by rewrite length_insert.
    + intros j q t Hj Hq Hht Ht (j' & r' & Hj' & Hin').
      apply insert_false_live in Hj as [Hjk Hj].
      pose proof (Hpair k j p q s t ltac:(lia) Hk Hj Hp Hq Hh Hht) as Hd.
      split; [| by split].
      destruct (Nat.eq_dec j' i) as [-> | Hne].
      * assert (r' = r) by congruence. subst r'.
        pose proof (below_top r p s q t Hin' Htop
                      ltac:(unfold sizeof_header in *; lia) Hd) as Hbelow.
        exists i, (set_offset r (p - mem r + sizeof_header)).
        apply lookup_lt_Some in Hi as Hlt.
        split; [simpl; by apply list_lookup_insert_eq |].
        destruct Hin' as [Hlo' _]. unfold inside, sizeof_header in *. simpl. lia.
      * exists j', r'. split; [simpl; by rewrite list_lookup_insert_ne | done].
  - exists w. split; [| split; [| done]].
    + apply (free_not_top base w p s i r); try done. unfold sizeof_header in *. lia.
    + apply (inv_update base lv (<[k := false]> lv) ps w w None); try done.
      by rewrite length_insert.
Qed.

(** [arena_realloc] of the last block of a region that has room. *)
Lemma realloc_top base w ptr sz hsize (i : nat) r :
  world_ok base w -> heap w !! (ptr - sizeof_header) = Some hsize ->
  0 <= hsize < sz -> regions (arena w) !! i = Some r -> inside r ptr hsize ->
  ptr + hsize = mem r + offset r -> sz - hsize <= size r - offset r ->
  let r2 := set_offset r (offset r + (sz - hsize)) in
  let w2 := {| arena := {| total := total (arena w);
                           regions := <[i := r2]> (regions (arena w)) |};
               heap := <[ptr - sizeof_header := sz]> (heap w);
               brk := brk w |} in
  arena_realloc w ptr sz = Ret (ptr, w2) /\ world_ok base w2.
Proof.
  intros Hok Hhdr Hsz Hi Hin Htop Hroom r2 w2.
  pose proof (inside_nonnull base w ptr hsize i r Hok Hi Hin) as Hnn.
  pose proof (find_region_in base w ptr hsize i r Hok Hhdr ltac:(lia) Hi Hin) as Hfind.
  destruct (world_ok_region base w i r Hok Hi) as (Hor & Hm & Hms).
  pose proof Hok as (Hbase & Hbrk & Htiled & Hoff & Htotal).
  unfold sizeof_region in *.
  split.
  - unfold arena_realloc. destruct (Z.eqb_spec ptr 0); [done |].
    unfold load_header at 1. rewrite Hhdr. simpl.
    destruct (Z.leb_spec sz hsize); [lia |].
    rewrite Hfind. simpl. rewrite Hi.
    destruct (top_test base w ptr hsize i r Hok Hi Hin ltac:(lia)) as [-> ->].
    destruct (Z.eqb_spec (ptr + hsize) (mem r + offset r)); [| lia]. simpl.
    rewrite (u64_small (sz - hsize)), (u64_small (size r - offset r)) by lia.
    destruct (Z.leb_spec (sz - hsize) (size r - offset r)); [| lia].
    rewrite (u64_small (offset r + (sz - hsize))) by lia. reflexivity.
  - unfold w2, world_ok. simpl.
    split; [done |]. split; [done |]. split; [by apply tiled_set_offset |].
    split; [| done]. apply Forall_insert; [done |]. unfold r2. simpl. lia.
Qed.

Lemma inv_realloc base lv ps w (k : nat) p sz :
  arena_inv base lv ps w -> lv !! k = Some true -> ps !! k = Some p ->
  sizeof_header <= sz -> brk w + room [sz] < 2 ^ 64 ->
  exists p' w',
    arena_realloc w p sz = Ret (p', w') /\
    arena_inv base (<[k := false]> lv ++ [true]) (ps ++ [p']) w' /\
    brk w' <= brk w + room [sz].
Proof.
  intros Hinv Hk Hp Hsz Hroom. pose proof Hinv as (Hok & Hlen & Hlive & Hpair).
  destruct (Hlive k p Hk Hp) as (s & Hs & Hh & (i & r & Hi & Hin)).
  assert (Hsub : forall j : nat, <[k := false]> lv !! j = Some true ->
            lv !! j = Some true)
    by (intros j Hj; by apply insert_false_live in Hj as [_ ?]).
  pose proof (inside_nonnull base w p s i r Hok Hi Hin) as Hnn.
  assert (Hrn : 0 <= room [sz]).
  { apply room_nonneg. constructor; [| constructor].
    unfold sizeof_header in Hsz. simpl. lia. }
  assert (Hother : forall (j : nat) q t,
            <[k := false]> lv !! j = Some true -> ps !! j = Some q ->
            heap w !! (q - sizeof_header) = Some t -> sizeof_header <= t ->
            disjoint p s q t /\
            (p - sizeof_header + 8 <= q - sizeof_header \/
             q - sizeof_header + 8 <= p - sizeof_header)).
  { intros j q t Hj Hq Hht Ht. apply insert_false_live in Hj as [Hjk Hj].
    pose proof (Hpair k j p q s t ltac:(lia) Hk Hj Hp Hq Hh Hht) as Hd.
    split; [done |].
    apply (disjoint_headers q t p s); unfold sizeof_header in *;
      [lia | lia | by apply disjoint_sym]. }
  pose proof (room_one_bound base w sz Hok Hroom) as Hmax0.
  assert (Hszb : 0 <= sz < 2 ^ 64)
    by (unfold sizeof_region, sizeof_header in *; lia).
  destruct (Z.le_gt_cases sz s) as [Hshrink | Hgrow].
  - exists p, (store_header w (p - sizeof_header) sz).
    split; [| split].
    + unfold arena_realloc. destruct (Z.eqb_spec p 0); [done |].
      unfold load_header. rewrite Hh. simpl.
      destruct (Z.leb_spec sz s); [done | lia].
    + apply (inv_update base lv (<[k := false]> lv) ps w _ (Some (p, sz))); try done.
      * by rewrite length_insert.
      * intros j q t Hj Hq Hht Ht Hbq.
        destruct (Hother j q t Hj Hq Hht Ht) as [Hd Hne].
        split; [done |]. split; [simpl; by rewrite heap_lookup_insert_ne |].
        apply disjoint_sym. unfold disjoint in *. lia.
      * split; [done |]. split; [simpl; by apply heap_lookup_insert |].
        exists i, r. split; [done |]. destruct Hin. split; [done | lia].
    + unfold store_header. cbn [brk]. lia.
  - destruct (Z.eq_dec (p + s) (mem r + offset r)) as [Htop | Hnot];
      [destruct (Z.le_gt_cases (sz - s) (size r - offset r)) as [Hfits | Hfull] |].
    + destruct (realloc_top base w p sz s i r Hok Hh ltac:(unfold sizeof_header in *; lia)
                  Hi Hin Htop Hfits) as [Hre Hok2].
      cbv zeta in Hre, Hok2. eexists _, _. split; [exact Hre |].
      apply lookup_lt_Some in Hi as Hlt.
      assert (Hi2 : <[i := set_offset r (offset r + (sz - s))]> (regions (arena w)) !! i
                    = Some (set_offset r (offset r + (sz - s))))
        by (by apply list_lookup_insert_eq).
      assert (Hin2 : inside (set_offset r (offset r + (sz - s))) p sz).
      { destruct Hin as [Hlo _]. unfold inside. simpl. lia. }
      split.
      * apply (inv_update base lv (<[k := false]> lv) ps w _ (Some (p, sz))); try done.
        -- by rewrite length_insert.
        -- intros j q t Hj Hq Hht Ht (j' & r' & Hj' & Hin').
           destruct (Hother j q t Hj Hq Hht Ht) as [Hd Hne].
           split; [| split; [simpl; by rewrite heap_lookup_insert_ne |]].
           ++ destruct (Nat.eq_dec j' i) as [-> | Hne'].
              ** assert (r' = r) by congruence. subst r'.
                 exists i, (set_offset r (offset r + (sz - s))).
                 split; [done |]. destruct Hin' as [? ?].
                 unfold inside. simpl. lia.
              ** exists j', r'. split; [simpl; by rewrite list_lookup_insert_ne | done].
           ++ destruct (Nat.eq_dec j' i) as [-> | Hne'].
              ** assert (r' = r) by congruence. subst r'.
                 pose proof (below_top r p s q t Hin' Htop
                               ltac:(unfold sizeof_header in *; lia) Hd).
                 left. done.
              ** apply (inside_regions_disjoint base _ j' i r'
                          (set_offset r (offset r + (sz - s))) q t p sz Hok2);
                   try done; unfold sizeof_header in *; try lia.
                 simpl. by rewrite list_lookup_insert_ne.
        -- split; [done |]. split; [simpl; by apply heap_lookup_insert |].
           by exists i, (set_offset r (offset r + (sz - s))).
      * cbn [brk]. lia.
    + destruct (inv_alloc base lv (<[k := false]> lv) ps w sz Hinv)
        as (p' & w' & Ha & Hinv' & Hb); try done; [by rewrite length_insert |].
      exists p', w'. split; [| by split].
      rewrite <- Ha.
      pose proof (find_region_in base w p s i r Hok Hh
                    ltac:(unfold sizeof_header in *; lia) Hi Hin) as Hfind.
      destruct (world_ok_region base w i r Hok Hi) as (Hor & Hm & Hms).
      pose proof Hok as (_ & Hbrk & _).
      assert (Hmax : sz < 2 ^ 64).
      { unfold room in Hroom. cbn [foldr] in Hroom.
        destruct Hok as (? & ? & Ht0 & _). apply tiled_le in Ht0.
        unfold sizeof_region, sizeof_header, ARENA_DEFAULT_CAPACITY in *. lia. }
      unfold arena_realloc. destruct (Z.eqb_spec p 0); [done |].
      unfold load_header at 1. rewrite Hh. simpl.
      destruct (Z.leb_spec sz s); [lia |].
      rewrite Hfind. simpl. rewrite Hi.
      destruct (top_test base w p s i r Hok Hi Hin
                  ltac:(unfold sizeof_header in *; lia)) as [-> ->].
      replace ((p + s =? mem r + offset r)
               && (u64 (sz - s) <=? u64 (size r - offset r))) with false; [done |].
      symmetry. apply andb_false_iff. unfold sizeof_region, sizeof_header in *.
      rewrite (u64_small (sz - s)), (u64_small (size r - offset r)) by lia.
      right. apply Z.leb_gt. lia.
    + destruct (inv_alloc base lv (<[k := false]> lv) ps w sz Hinv)
        as (p' & w' & Ha & Hinv' & Hb); try done; [by rewrite length_insert |].
      exists p', w'. split; [| by split].
      rewrite <- Ha.
      pose proof (find_region_in base w p s i r Hok Hh
                    ltac:(unfold sizeof_header in *; lia) Hi Hin) as Hfind.
      unfold arena_realloc. destruct (Z.eqb_spec p 0); [done |].
      unfold load_header at 1. rewrite Hh. simpl.
      destruct (Z.leb_spec sz s); [lia |].
      rewrite Hfind. simpl. rewrite Hi.
      destruct (top_test base w p s i r Hok Hi Hin
                  ltac:(unfold sizeof_header in *; lia)) as [-> ->].
      destruct (Z.eqb_spec (p + s) (mem r + offset r)); [lia | done].
Qed.

Lemma room_app l1 l2 : room (l1 ++ l2) = room l1 + room l2.
Proof.
  induction l1 as [| sz l1 IH]; [done |].
  change ((sz :: l1) ++ l2) with (sz :: (l1 ++ l2)).
  rewrite (room_cons sz (l1 ++ l2)), (room_cons sz l1), IH. lia.
Qed.

Lemma sizes_of_snoc cs c : sizes_of (cs ++ [c]) = sizes_of cs ++ sizes_of [c].
Proof. unfold sizes_of. by rewrite omap_app. Qed.

Lemma sizes_of_nonneg cs :
  Forall call_ok cs -> Forall (fun sz => 0 <= sz) (sizes_of cs).
Proof.
  induction 1 as [| c cs Hc _ IH]; [constructor |].
  unfold sizes_of in *. destruct c as [sz | k | k sz]; simpl in *; try done;
    constructor; try done; unfold sizeof_header in Hc; lia.
Qed.

Lemma calls_snoc w cs c :
  calls w (cs ++ [c]) = do st <- calls w cs; step st c.
Proof. unfold calls. by rewrite foldl_app. Qed.

Lemma live_snoc cs c : live (cs ++ [c]) = live_step (live cs) c.
Proof. unfold live. by rewrite foldl_app. Qed.

(** A client that keeps the discipline of [live] and asks for 8 bytes or
    more each time keeps the invariant. *)
Lemma calls_inv base : forall cs lv,
  0 <= base -> Forall call_ok cs -> live cs = Some lv ->
  base + room (sizes_of cs) < 2 ^ 64 ->
  exists ps w,
    calls (fresh base) cs = Ret (ps, w) /\ arena_inv base lv ps w /\
    brk w <= base + room (sizes_of cs).
Proof.
  induction cs as [| c cs IH] using rev_ind; intros lv Hbase Hall Hlive Hroom.
  - injection Hlive as <-. exists [], (fresh base).
    split; [done |]. split; [| simpl; unfold room; simpl; lia].
    split; [apply fresh_ok; unfold room in Hroom; simpl in Hroom; lia |].
    split; [done |]. split; [intros i p Hi; done |].
    intros i j p q s t _ Hi. done.
  - apply Forall_app in Hall as [Hall Hc]. apply Forall_inv in Hc.
    rewrite sizes_of_snoc, room_app in *.
    pose proof (room_nonneg _ (sizes_of_nonneg cs Hall)) as Hn1.
    pose proof (room_nonneg _ (sizes_of_nonneg [c] ltac:(by constructor))) as Hn2.
    rewrite live_snoc in Hlive.
    destruct (live cs) as [lv1 |] eqn:Hlv1; [| done].
    destruct (IH lv1 Hbase Hall eq_refl) as (ps & w & Hrun & Hinv & Hbrk); [lia |].
    pose proof Hinv as (_ & Hlen & _).
    rewrite calls_snoc, Hrun. cbn [obind].
    destruct c as [sz | k | k sz]; simpl in Hlive, Hc; cbn [step fst snd].
    + injection Hlive as <-.
      destruct (inv_alloc base lv1 lv1 ps w sz Hinv) as (p & w' & Ha & Hinv' & Hb);
        try done.
      { change (sizes_of [Alloc sz]) with [sz] in *. lia. }
      rewrite Ha. cbn [obind fst snd]. exists (ps ++ [p]), w'.
      split; [done |]. split; [done |].
      change (sizes_of [Alloc sz]) with [sz] in *. lia.
    + destruct (lv1 !! k) as [b |] eqn:Hk; [| done]. simpl in Hlive.
      destruct b; [| done]. injection Hlive as <-.
      destruct (lookup_lt_is_Some_2 ps k) as [p Hp].
      { apply lookup_lt_Some in Hk. lia. }
      rewrite Hp. change (default 0 (Some p)) with p.
      destruct (inv_free base lv1 ps w k p Hinv Hk Hp) as (w' & Hf & Hinv' & Hb).
      rewrite Hf. cbn [obind]. exists (ps ++ [0]), w'.
      split; [done |]. split; [done |]. lia.
    + destruct (lv1 !! k) as [b |] eqn:Hk; [| done]. simpl in Hlive.
      destruct b; [| done]. injection Hlive as <-.
      destruct (lookup_lt_is_Some_2 ps k) as [p Hp].
      { apply lookup_lt_Some in Hk. lia. }
      rewrite Hp. change (default 0 (Some p)) with p.
      destruct (inv_realloc base lv1 ps w k p sz Hinv Hk Hp Hc)
        as (p' & w' & Hr & Hinv' & Hb).
      { change (sizes_of [Realloc k sz]) with [sz] in *. lia. }
      rewrite Hr. cbn [obind fst snd]. exists (ps ++ [p']), w'.
      split; [done |]. split; [done |].
      change (sizes_of [Realloc k sz]) with [sz] in *. lia.
Qed.

(** X29: the arena is safe for a client that asks for 8 bytes or more each
    time and uses only pointers it still holds.  Every sequence of calls
    of [arena_alloc], [arena_free] and [arena_realloc] on a
    zero-initialised arena, with room in the backend, returns; afterwards
    every region has [0 <= offset <= size], every pointer in use has its
    size in its header and lies with its header in the used part of a
    region, and no two blocks in use meet. *)
Theorem calls_safe base cs lv :
  0 <= base -> Forall call_ok cs -> live cs = Some lv ->
  base + room (sizes_of cs) < 2 ^ 64 ->
  exists ps w,
    calls (fresh base) cs = Ret (ps, w) /\ length ps = length cs /\
    Forall (fun r => 0 <= offset r <= size r) (regions (arena w)) /\
    (forall (i : nat) p, lv !! i = Some true -> ps !! i = Some p ->
       exists s, sizeof_header <= s /\ heap w !! (p - sizeof_header) = Some s /\
                 block_in (regions (arena w)) p s) /\
    (forall (i j : nat) p q s t, i <> j ->
       lv !! i = Some true -> lv !! j = Some true ->
       ps !! i = Some p -> ps !! j = Some q ->
       heap w !! (p - sizeof_header) = Some s ->
       heap w !! (q - sizeof_header) = Some t -> disjoint p s q t).
Proof.
  intros Hbase Hall Hlive Hroom.
  destruct (calls_inv base cs lv Hbase Hall Hlive Hroom)
    as (ps & w & Hrun & (Hok & Hlen & Hlv & Hpair) & _).
  exists ps, w. split; [done |]. split.
  - rewrite Hlen. clear -Hlive. revert lv Hlive.
    induction cs as [| c cs IH] using rev_ind; intros lv Hlive.
    + by injection Hlive as <-.
    + rewrite live_snoc in Hlive. destruct (live cs) as [lv1 |]; [| done].
      rewrite length_app. simpl. rewrite <- (IH lv1 eq_refl).
      destruct c as [sz | k | k sz]; simpl in Hlive.
      * injection Hlive as <-. by rewrite length_app.
      * destruct (default false (lv1 !! k)); [| done]. injection Hlive as <-.
        by rewrite length_app, length_insert.
      * destruct (default false (lv1 !! k)); [| done]. injection Hlive as <-.
        by rewrite length_app, length_insert.
  - split; [by destruct Hok as (_ & _ & _ & ? & _) |]. by split.
Qed.

(** ** The further properties on concrete arenas *)

Lemma demo_world_ok : world_ok 4096 demo_world.
Proof.
  unfold world_ok, demo_world. simpl. unfold sizeof_region.
  split; [lia |]. split; [lia |]. split; [lia |].
  split; [| lia]. constructor; [simpl; lia | constructor].
Qed.

(** X15 at a concrete input: a third allocation, of 16 bytes, on the arena
    that holds A at 4128 and B at 4152. *)
Lemma alloc_fresh_block_witness :
  exists p w' (i : nat) r,
    arena_alloc demo_world 16 = Ret (p, w') /\ world_ok 4096 w' /\
    regions (arena w') !! i = Some r /\ at_top r p 16 = true /\
    p + 16 <= mem r + size r /\
    heap w' = <[p - sizeof_header := 16]> (heap demo_world) /\
    forall q hq, 0 <= hq -> block_in (regions (arena demo_world)) q hq ->
      block_in (regions (arena w')) q hq /\ disjoint q hq p 16.
Proof.
  apply (alloc_fresh_block 4096 demo_world 16).
  - exact demo_world_ok.
  - lia.
  - vm_compute. reflexivity.
Defined.

(** X16 at a concrete input: allocations of 16, 32 and 10000 bytes, the
    last of which needs a second region. *)
Lemma allocations_disjoint_witness :
  exists ps w',
    alloc_all (fresh 4096) [16; 32; 10000] = Ret (ps, w') /\
    length ps = length [16; 32; 10000] /\
    (forall (i : nat) p s, ps !! i = Some p -> [16; 32; 10000] !! i = Some s ->
       block_in (regions (arena w')) p s /\
       heap w' !! (p - sizeof_header) = Some s) /\
    (forall (i j : nat) p s q t, (i < j)%nat ->
       ps !! i = Some p -> [16; 32; 10000] !! i = Some s ->
       ps !! j = Some q -> [16; 32; 10000] !! j = Some t -> disjoint p s q t).
Proof.
  apply (allocations_disjoint 4096 [16; 32; 10000]).
  - lia.
  - constructor; [lia |]. constructor; [lia |]. constructor; [lia | constructor].
  - vm_compute. reflexivity.
Defined.

(** X17 at a concrete input: 16 bytes fit the one region of the arena. *)
Lemma alloc_first_fit_witness :
  arena_alloc demo_world 16
  = Ret (4120 + 64 + sizeof_header,
         {| arena := {| total := 8216;
                        regions := [{| size := 8192; offset := 64 + (sizeof_header + 16);
                                       mem := 4120 |}] |};
            heap := <[4120 + 64 := 16]> (heap demo_world);
            brk := 12312 |}).
Proof.
  destruct (alloc_first_fit 4096 demo_world 16) as [Hfit _].
  - exact demo_world_ok.
  - discriminate.
  - lia.
  - vm_compute. reflexivity.
  - apply (Hfit 0%nat {| size := 8192; offset := 64; mem := 4120 |}).
    + reflexivity.
    + vm_compute. discriminate.
    + intros j r' Hj. lia.
Defined.

(** X18 at a concrete input: a first allocation of 16 bytes. *)
Lemma alloc_first_call_witness :
  arena_alloc (fresh 4096) 16
  = Ret (4096 + sizeof_region + sizeof_header,
         {| arena := {| total := sizeof_region + ARENA_DEFAULT_CAPACITY;
                        regions := [{| size := ARENA_DEFAULT_CAPACITY;
                                       offset := sizeof_header + 16;
                                       mem := 4096 + sizeof_region |}] |};
            heap := {[4096 + sizeof_region := 16]};
            brk := 4096 + sizeof_region + ARENA_DEFAULT_CAPACITY |}).
Proof.
  destruct (alloc_first_call 4096 16) as [Hsmall _].
  - lia.
  - lia.
  - vm_compute. reflexivity.
  - apply Hsmall. vm_compute. discriminate.
Defined.

(** X19 at a concrete input: a backend with 100 bytes left. *)
Lemma alloc_aborts_without_room_witness :
  arena_alloc (fresh (2 ^ 64 - 100)) 16 = Abort /\
  arena_init (fresh (2 ^ 64 - 100)) = Abort /\
  _alloc_memory_region (fresh (2 ^ 64 - 100))
    (Z.max (sizeof_header + 16) ARENA_DEFAULT_CAPACITY) [] = Abort.
Proof.
  apply (alloc_aborts_without_room (2 ^ 64 - 100) (fresh (2 ^ 64 - 100)) 16 []).
  - apply fresh_ok. lia.
  - lia.
  - vm_compute. reflexivity.
  - constructor.
  - vm_compute. discriminate.
Defined.

(** X20 at a concrete input: a request of [2^64 - 1] bytes. *)
Lemma alloc_size_wraps_witness :
  arena_alloc demo_world (2 ^ 64 - 1)
  = Ret (4120 + 64 + sizeof_header,
         {| arena := {| total := 8216;
                        regions := [set_offset {| size := 8192; offset := 64; mem := 4120 |}
                                      (64 + (2 ^ 64 - 1 + sizeof_header - 2 ^ 64))] |};
            heap := <[4120 + 64 := 2 ^ 64 - 1]> (heap demo_world);
            brk := 12312 |}) /\
  0 <= 2 ^ 64 - 1 + sizeof_header - 2 ^ 64 < sizeof_header.
Proof.
  apply (alloc_size_wraps demo_world (2 ^ 64 - 1)
           {| size := 8192; offset := 64; mem := 4120 |} []).
  - reflexivity.
  - simpl. lia.
  - vm_compute. discriminate.
  - simpl. lia.
  - unfold sizeof_header. lia.
Defined.

(** X21 at a concrete input: A, at 4128, lies below B. *)
Lemma free_below_top_witness :
  arena_free demo_world 4128 = Ret demo_world /\
  forall sz, 0 <= sz -> brk demo_world + room [sz] < 2 ^ 64 ->
    exists p w', arena_alloc demo_world sz = Ret (p, w') /\ disjoint 4128 16 p sz.
Proof.
  apply (free_below_top 4096 demo_world 4128 16 0%nat
           {| size := 8192; offset := 64; mem := 4120 |}).
  - exact demo_world_ok.
  - vm_compute. reflexivity.
  - lia.
  - reflexivity.
  - unfold inside, sizeof_header. simpl. lia.
  - simpl. lia.
Defined.

(** X22 at a concrete input: a pointer outside the region, with a size of
    16 written in front of it. *)
Lemma foreign_pointer_aborts_witness :
  let w := store_header demo_world 20000 16 in
  arena_free w 20008 = Abort /\
  (16 < 64 -> arena_realloc w 20008 64 = Abort) /\
  (64 <= 16 ->
   arena_realloc w 20008 64 = Ret (20008, store_header w (20008 - sizeof_header) 64)).
Proof.
  intros w. apply (foreign_pointer_aborts w 20008 16 64).
  - lia.
  - vm_compute. reflexivity.
  - vm_compute. reflexivity.
Defined.

(** X23 at a concrete input: B, at 4152, is freed twice. *)
Lemma double_free_aborts_witness :
  exists w', arena_free demo_world 4152 = Ret w' /\ arena_free w' 4152 = Abort.
Proof.
  apply (double_free_aborts 4096 demo_world 4152 32 0%nat
           {| size := 8192; offset := 64; mem := 4120 |}).
  - exact demo_world_ok.
  - vm_compute. reflexivity.
  - unfold sizeof_header. lia.
  - reflexivity.
  - vm_compute. reflexivity.
Defined.

(** X24 at a concrete input: B is freed. *)
Lemma free_frame_witness :
  let w' := set_regions demo_world [{| size := 8192; offset := 40; mem := 4120 |}] in
  heap w' = heap demo_world /\ brk w' = brk demo_world /\
  total (arena w') = total (arena demo_world) /\
  (fun r => (size r, mem r)) <$> regions (arena w')
  = (fun r => (size r, mem r)) <$> regions (arena demo_world) /\
  exists i : nat, forall j : nat,
    j <> i -> regions (arena w') !! j = regions (arena demo_world) !! j.
Proof.
  intros w'. apply (free_frame demo_world 4152 w').
  vm_compute. reflexivity.
Defined.

(** X25 at a concrete input: 32 bytes are allocated on the arena of A and
    B, and freed. *)
Lemma alloc_free_leaks_witness :
  exists p w1 w2 (i : nat) r1 r2,
    arena_alloc demo_world 32 = Ret (p, w1) /\ arena_free w1 p = Ret w2 /\
    world_ok 4096 w2 /\
    regions (arena w1) !! i = Some r1 /\ regions (arena w2) !! i = Some r2 /\
    mem r1 + offset r1 = p + 32 /\
    mem r2 + offset r2 = p - sizeof_header + 2 * sizeof_header /\
    (sizeof_header + 32 <= size r2 - offset r2 ->
     exists w3, arena_alloc w2 32 = Ret (p + 2 * sizeof_header, w3)).
Proof.
  apply (alloc_free_leaks 4096 demo_world 32).
  - exact demo_world_ok.
  - unfold sizeof_header. lia.
  - vm_compute. reflexivity.
Defined.

(** X26 at a concrete input: B shrinks from 32 to 8 bytes. *)
Lemma realloc_shrink_sticks_witness :
  let w1 := store_header demo_world (4152 - sizeof_header) 8 in
  arena_realloc demo_world 4152 8 = Ret (4152, w1) /\
  regions (arena w1) = regions (arena demo_world) /\
  arena_free w1 4152 = Ret w1 /\
  forall sz2, 8 < sz2 -> arena_realloc w1 4152 sz2 = arena_alloc w1 sz2.
Proof.
  apply (realloc_shrink_sticks 4096 demo_world 4152 32 8 0%nat
           {| size := 8192; offset := 64; mem := 4120 |}).
  - exact demo_world_ok.
  - vm_compute. reflexivity.
  - reflexivity.
  - unfold inside, sizeof_header. simpl. lia.
  - lia.
Defined.

(** X27 at a concrete input: A, which lies below B, grows from 16 to 100
    bytes. *)
Lemma realloc_moves_witness :
  exists p w',
    arena_realloc demo_world 4128 100 = Ret (p, w') /\
    arena_alloc demo_world 100 = Ret (p, w') /\
    world_ok 4096 w' /\ disjoint 4128 16 p 100 /\
    heap w' !! (4128 - sizeof_header) = Some 16 /\
    heap w' !! (p - sizeof_header) = Some 100 /\
    block_in (regions (arena w')) 4128 16 /\
    block_in (regions (arena w')) p 100.
Proof.
  apply (realloc_moves 4096 demo_world 4128 16 100 0%nat
           {| size := 8192; offset := 64; mem := 4120 |}).
  - exact demo_world_ok.
  - vm_compute. reflexivity.
  - reflexivity.
  - unfold inside, sizeof_header. simpl. lia.
  - lia.
  - vm_compute. reflexivity.
  - left. simpl. lia.
Defined.

(** X28 at a concrete input: the arena of A and B. *)
Lemma deinit_releases_all_witness :
  consecutive 4096 (fst (arena_deinit demo_world)) (brk demo_world) /\
  released_bytes (fst (arena_deinit demo_world)) = total (arena demo_world) /\
  length (fst (arena_deinit demo_world)) = length (regions (arena demo_world)) /\
  total (arena (snd (arena_deinit demo_world))) = 0.
Proof.
  apply (deinit_releases_all 4096 demo_world). exact demo_world_ok.
Defined.

(** X29 at a concrete input: A and B are allocated, B is freed, A grows
    to 100 bytes, and 8 more bytes are allocated. *)
Lemma calls_safe_witness :
  let cs := [Alloc 16; Alloc 32; Free 1; Realloc 0 100; Alloc 8] in
  let lv := [false; false; false; true; true] in
  exists ps w,
    calls (fresh 4096) cs = Ret (ps, w) /\ length ps = length cs /\
    Forall (fun r => 0 <= offset r <= size r) (regions (arena w)) /\
    (forall (i : nat) p, lv !! i = Some true -> ps !! i = Some p ->
       exists s, sizeof_header <= s /\ heap w !! (p - sizeof_header) = Some s /\
                 block_in (regions (arena w)) p s) /\
    (forall (i j : nat) p q s t, i <> j ->
       lv !! i = Some true -> lv !! j = Some true ->
       ps !! i = Some p -> ps !! j = Some q ->
       heap w !! (p - sizeof_header) = Some s ->
       heap w !! (q - sizeof_header) = Some t -> disjoint p s q t).
Proof.
  intros cs lv. apply (calls_safe 4096 cs lv).
  - lia.
  - unfold cs.
    constructor; [unfold call_ok, sizeof_header; lia |].
    constructor; [unfold call_ok, sizeof_header; lia |].
    constructor; [exact I |].
    constructor; [unfold call_ok, sizeof_header; lia |].
    constructor; [unfold call_ok, sizeof_header; lia | constructor].
  - reflexivity.
  - vm_compute. reflexivity.
Defined.

End ArenaFacts.
